(** * Penjadwalan-Algen: the timetable optimisation engines

    A shallow embedding of [jadwal_model.py], [genetic_algorithm.py] and
    [tabu_search.py].

    - Python [int] is [Z]; Python [float] is modelled by the rationals [Q]
      ([float('inf')] by [None] in an [option Q]) where the code only
      compares, adds or divides small counts. The one product that is
      truncated afterwards, [int(self.ukuran_populasi * self.elitism_rate)],
      is computed in IEEE binary64 ([SpecFloat], precision 53, [emax] 1024).
    - [Jadwal] objects are mutable and shared between solutions, so they
      live in an object store ([heap]) and a solution (a Python list of
      [Jadwal]) is a list of addresses together with the identity of the
      list object itself.
    - The [random] module is a tape of integers read in order; every draw
      of the source reads one cell, so quantifying over tapes quantifies
      over runs.
    - Exceptions are the [Raise] outcome of the monad [M]. *)

From Stdlib Require Import String Ascii DecimalString.
From Stdlib Require Import ZArith QArith Qround List Bool Arith Lia.
From Stdlib Require Import Sorted Permutation Lqa SpecFloat.
Import ListNotations.

Local Open Scope string_scope.
Local Open Scope list_scope.
Local Open Scope Z_scope.

(** ** jadwal_model.py *)

Inductive Hari := SENIN | SELASA | RABU | KAMIS | JUMAT.

Definition Hari_value (h : Hari) : string :=
  match h with
  | SENIN => "Senin" | SELASA => "Selasa" | RABU => "Rabu"
  | KAMIS => "Kamis" | JUMAT => "Jumat"
  end.

Inductive Kelas := PAGI | MALAM.

Definition Kelas_value (k : Kelas) : string :=
  match k with PAGI => "pagi" | MALAM => "malam" end.

Record Matakuliah := mkMatakuliah {
  m_kode : string;
  m_nama : string;
  m_sks : Z }.

(** A course record of the catalog: a dict with the keys [kode], [nama],
    [sks] and [dosen]. *)
Record Course := mkCourse {
  c_kode : string;
  c_nama : string;
  c_sks : Z;
  c_dosen : list string }.

(** The dataclass annotates [hari : Hari], [kelas : Kelas] and
    [matakuliah : Matakuliah], but annotations are not enforced and
    [generate_random_jadwal] stores a plain [str], a [str] and the course
    dict. A field therefore holds either kind of value. *)
Inductive HariVal := HariEnum (h : Hari) | HariStr (s : string).
Inductive KelasVal := KelasEnum (k : Kelas) | KelasStr (s : string).
Inductive MatkulVal := MatkulObj (m : Matakuliah) | MatkulDict (c : Course).

Record Jadwal := mkJadwal {
  hari : HariVal;
  waktu_mulai : Z;
  waktu_selesai : Z;
  matakuliah : MatkulVal;
  dosen : string;
  ruang : string;
  kelas : KelasVal;
  semester : Z }.

Definition Hari_eqb (a b : Hari) : bool :=
  match a, b with
  | SENIN, SENIN | SELASA, SELASA | RABU, RABU | KAMIS, KAMIS | JUMAT, JUMAT => true
  | _, _ => false
  end.

Definition Kelas_eqb (a b : Kelas) : bool :=
  match a, b with PAGI, PAGI | MALAM, MALAM => true | _, _ => false end.

(** Python [==] on the values a field can hold: enum members are equal
    only to themselves, strings by content, and an enum member never equals
    a string. *)
Definition hari_eq (a b : HariVal) : bool :=
  match a, b with
  | HariEnum x, HariEnum y => Hari_eqb x y
  | HariStr s, HariStr t => String.eqb s t
  | _, _ => false
  end.

Definition kelas_eq (a b : KelasVal) : bool :=
  match a, b with
  | KelasEnum x, KelasEnum y => Kelas_eqb x y
  | KelasStr s, KelasStr t => String.eqb s t
  | _, _ => false
  end.

Fixpoint strings_eqb (l1 l2 : list string) : bool :=
  match l1, l2 with
  | [], [] => true
  | a :: l1', b :: l2' => String.eqb a b && strings_eqb l1' l2'
  | _, _ => false
  end.

Definition Course_eqb (a b : Course) : bool :=
  String.eqb (c_kode a) (c_kode b) && String.eqb (c_nama a) (c_nama b)
  && Z.eqb (c_sks a) (c_sks b) && strings_eqb (c_dosen a) (c_dosen b).

(** [Matakuliah.__eq__]: same class and same [kode]; dicts compare by
    content. *)
Definition matkul_eq (a b : MatkulVal) : bool :=
  match a, b with
  | MatkulObj x, MatkulObj y => String.eqb (m_kode x) (m_kode y)
  | MatkulDict x, MatkulDict y => Course_eqb x y
  | _, _ => false
  end.

(** The [__eq__] that [@dataclass] generates: the tuples of fields are
    compared. *)
Definition Jadwal_eqb (a b : Jadwal) : bool :=
  hari_eq (hari a) (hari b)
  && Z.eqb (waktu_mulai a) (waktu_mulai b)
  && Z.eqb (waktu_selesai a) (waktu_selesai b)
  && matkul_eq (matakuliah a) (matakuliah b)
  && String.eqb (dosen a) (dosen b)
  && String.eqb (ruang a) (ruang b)
  && kelas_eq (kelas a) (kelas b)
  && Z.eqb (semester a) (semester b).

(** [Jadwal.overlaps] *)
Definition overlaps (self other : Jadwal) : bool :=
  if negb (hari_eq (hari self) (hari other))
     || negb (String.eqb (ruang self) (ruang other))
  then false
  else (waktu_mulai self <? waktu_selesai other)
       && (waktu_mulai other <? waktu_selesai self).

(** [Jadwal.get_duration] *)
Definition get_duration (self : Jadwal) : Z := waktu_selesai self - waktu_mulai self.

(** ** Exceptions, the object store and the monad of the engines *)

Inductive Exn :=
  ValueError | IndexError | AttributeError | ZeroDivisionError | OverflowError.

Record World := mkWorld {
  heap : list Jadwal;      (* the Jadwal objects, by address *)
  next_sid : nat;          (* identity given to the next list object *)
  tape : nat -> Z;         (* the draws of the random generator *)
  pos : nat;               (* how many draws were consumed *)
  crossover_count : Z;     (* metrics['crossover_count'] *)
  mutation_count : Z }.    (* metrics['mutation_count'] *)

Inductive Result (A : Type) :=
| Ok (a : A) (w : World)
| Raise (e : Exn).
Arguments Ok {A} a w.
Arguments Raise {A} e.

Definition M (A : Type) := World -> Result A.

Definition ret {A} (a : A) : M A := fun w => Ok a w.
Definition raise {A} (e : Exn) : M A := fun _ => Raise e.
Definition bind {A B} (c : M A) (k : A -> M B) : M B :=
  fun w => match c w with
           | Ok a w' => k a w'
           | Raise e => Raise e
           end.

Declare Scope py_scope.
Delimit Scope py_scope with py.
Notation "x <- c ;; k" := (bind c (fun x => k))
  (at level 100, c at next level, right associativity) : py_scope.
Notation "' pat <- c ;; k" := (bind c (fun x => match x with pat => k end))
  (at level 100, pat pattern, c at next level, right associativity) : py_scope.
Notation "c ;;; k" := (bind c (fun _ => k))
  (at level 100, right associativity) : py_scope.
Local Open Scope py_scope.

(** A solution: the list object [sid] holding the addresses [refs]. *)
Record Solution := mkSolution {
  sid : nat;
  refs : list nat }.

Definition default_jadwal : Jadwal :=
  mkJadwal (HariStr "") 0 0 (MatkulDict (mkCourse "" "" 0 [])) "" "" (KelasStr "") 0.

Definition deref (w : World) (r : nat) : Jadwal := nth r (heap w) default_jadwal.

(** The entries of a solution as they are now. *)
Definition entries (w : World) (s : Solution) : list Jadwal :=
  map (deref w) (refs s).

Definition with_heap (w : World) (h : list Jadwal) : World :=
  mkWorld h (next_sid w) (tape w) (pos w) (crossover_count w) (mutation_count w).

Fixpoint list_set {A} (l : list A) (i : nat) (x : A) : list A :=
  match l, i with
  | [], _ => []
  | _ :: t, O => x :: t
  | a :: t, S i' => a :: list_set t i' x
  end.

(** Attribute assignment [obj.field = v] on the object at address [r]. *)
Definition update (r : nat) (f : Jadwal -> Jadwal) : M unit :=
  fun w => Ok tt (with_heap w (list_set (heap w) r (f (deref w r)))).

Definition read (r : nat) : M Jadwal := fun w => Ok (deref w r) w.

(** Allocation of a new [Jadwal] object. *)
Definition alloc (j : Jadwal) : M nat :=
  fun w => Ok (length (heap w)) (with_heap w (heap w ++ [j])).

(** A new list object with the given elements ([list.copy], slicing and
    [+] all build one). *)
Definition new_list (rs : list nat) : M Solution :=
  fun w => Ok (mkSolution (next_sid w) rs)
              (mkWorld (heap w) (S (next_sid w)) (tape w) (pos w)
                       (crossover_count w) (mutation_count w)).

Definition set_hari (v : HariVal) (j : Jadwal) : Jadwal :=
  mkJadwal v (waktu_mulai j) (waktu_selesai j) (matakuliah j) (dosen j) (ruang j)
           (kelas j) (semester j).
Definition set_waktu_mulai (v : Z) (j : Jadwal) : Jadwal :=
  mkJadwal (hari j) v (waktu_selesai j) (matakuliah j) (dosen j) (ruang j)
           (kelas j) (semester j).
Definition set_waktu_selesai (v : Z) (j : Jadwal) : Jadwal :=
  mkJadwal (hari j) (waktu_mulai j) v (matakuliah j) (dosen j) (ruang j)
           (kelas j) (semester j).
Definition set_dosen (v : string) (j : Jadwal) : Jadwal :=
  mkJadwal (hari j) (waktu_mulai j) (waktu_selesai j) (matakuliah j) v (ruang j)
           (kelas j) (semester j).
Definition set_ruang (v : string) (j : Jadwal) : Jadwal :=
  mkJadwal (hari j) (waktu_mulai j) (waktu_selesai j) (matakuliah j) (dosen j) v
           (kelas j) (semester j).

(** ** The random module *)

Definition draw : M Z :=
  fun w => Ok (tape w (pos w))
              (mkWorld (heap w) (next_sid w) (tape w) (S (pos w))
                       (crossover_count w) (mutation_count w)).

(** [random.random()]: a float in [[0, 1)]. *)
Definition random_random : M Q :=
  r <- draw ;; ret (Qmake (r mod 2 ^ 53) (2 ^ 53)%positive).

(** [random.randint(a, b)]: an integer in [[a, b]]; [ValueError] on an
    empty range. *)
Definition randint (a b : Z) : M Z :=
  if b <? a then raise ValueError
  else r <- draw ;; ret (a + r mod (b - a + 1)).

(** [random.choice(seq)]: [IndexError] on an empty sequence. *)
Definition choice {A} (l : list A) : M A :=
  match l with
  | [] => raise IndexError
  | d :: _ => r <- draw ;; ret (nth (Z.to_nat (r mod Z.of_nat (length l))) l d)
  end.

Fixpoint remove_nth {A} (i : nat) (l : list A) : list A :=
  match l, i with
  | [], _ => []
  | _ :: t, O => t
  | a :: t, S i' => a :: remove_nth i' t
  end.

Fixpoint sample_from {A} (k : nat) (l : list A) : M (list A) :=
  match k with
  | O => ret []
  | S k' =>
      match l with
      | [] => raise ValueError
      | d :: _ =>
          r <- draw ;;
          let i := Z.to_nat (r mod Z.of_nat (length l)) in
          rest <- sample_from k' (remove_nth i l) ;;
          ret (nth i l d :: rest)
      end
  end.

(** [random.sample(population, k)]: [k] elements at distinct positions;
    [ValueError] when the sample is larger than the population. *)
Definition sample {A} (l : list A) (k : nat) : M (list A) :=
  if (length l <? k)%nat then raise ValueError else sample_from k l.

Definition fresh_sid : M nat :=
  fun w => Ok (next_sid w)
              (mkWorld (heap w) (S (next_sid w)) (tape w) (pos w)
                       (crossover_count w) (mutation_count w)).

Definition get_world : M World := fun w => Ok w w.

(** Python [<] and [<=] on floats. *)
Definition Qltb (x y : Q) : bool := negb (Qle_bool y x).

(** [min(seq, key=...)]: the first element of least key; [ValueError] on
    an empty sequence. *)
Fixpoint min_from {A} (key : A -> Q) (best : A) (l : list A) : A :=
  match l with
  | [] => best
  | x :: t => if Qltb (key x) (key best) then min_from key x t
              else min_from key best t
  end.

Definition py_min {A} (key : A -> Q) (l : list A) : M A :=
  match l with
  | [] => raise ValueError
  | x :: t => ret (min_from key x t)
  end.

(** [sorted(seq, key=...)]: the stable sort by key. *)
Fixpoint insert_by {A} (key : A -> Q) (x : A) (l : list A) : list A :=
  match l with
  | [] => [x]
  | y :: t => if Qle_bool (key x) (key y) then x :: y :: t
              else y :: insert_by key x t
  end.

Fixpoint sorted {A} (key : A -> Q) (l : list A) : list A :=
  match l with
  | [] => []
  | x :: t => insert_by key x (sorted key t)
  end.

(** A binary64 value that is neither an infinity nor a NaN, in the
    canonical form of [SpecFloat]. *)
Definition finite_double (x : spec_float) : bool :=
  valid_binary 53 1024 x
  && match x with
     | S754_zero _ | S754_finite _ _ _ => true
     | _ => false
     end.

(** A finite Python [float]. *)
Record Float := mkFloat {
  float_val : spec_float;
  float_finite : finite_double float_val = true }.

(** The exact value of a float. *)
Definition Q_of_float (x : spec_float) : Q :=
  match x with
  | S754_finite s m e => (inject_Z (cond_Zopp s (Zpos m)) * Qpower 2 e)%Q
  | _ => 0%Q
  end.

(** The conversion of an [int] operand of a float operation
    ([PyLong_AsDouble]): to the nearest double, a tie to the even one;
    [OverflowError] beyond the largest double. *)
Definition float_of_int (n : Z) : Exn + spec_float :=
  match binary_normalize 53 1024 n 0 false with
  | S754_infinity _ => inl OverflowError
  | f => inr f
  end.

(** [int(x)] on a float: truncation toward zero; [OverflowError] on an
    infinity and [ValueError] on a NaN. *)
Definition py_int (x : spec_float) : Exn + Z :=
  match x with
  | S754_zero _ => inr 0
  | S754_finite s m e => inr (cond_Zopp s (Z.shiftl (Zpos m) e))
  | S754_infinity _ => inl OverflowError
  | S754_nan => inl ValueError
  end.

(** A computation without effects other than an exception. *)
Definition lift {A} (r : Exn + A) : M A :=
  match r with
  | inl e => raise e
  | inr a => ret a
  end.

(** [l[:n]]: the first [n] elements, or for a negative [n] all but the
    last [-n]. *)
Definition py_prefix {A} (n : Z) (l : list A) : list A :=
  if n <? 0 then firstn (length l - Z.to_nat (- n)) l
  else firstn (Z.to_nat n) l.

(** [Jadwal(...)]: [__post_init__] validates, then the object exists. *)
Definition new_Jadwal (j : Jadwal) : M nat :=
  if waktu_selesai j <=? waktu_mulai j then raise ValueError
  else if (waktu_mulai j <? 0) || (24 * 60 <? waktu_selesai j) then raise ValueError
  else if negb ((semester j =? 2) || (semester j =? 4) || (semester j =? 6))
  then raise ValueError
  else alloc j.

Record JadwalDict := mkJadwalDict {
  d_hari : string;
  d_waktu_mulai : Z;
  d_waktu_selesai : Z;
  d_matakuliah : string * string * Z;
  d_dosen : string;
  d_ruang : string;
  d_kelas : string;
  d_semester : Z }.

Definition JadwalDict_eqb (a b : JadwalDict) : bool :=
  String.eqb (d_hari a) (d_hari b)
  && Z.eqb (d_waktu_mulai a) (d_waktu_mulai b)
  && Z.eqb (d_waktu_selesai a) (d_waktu_selesai b)
  && (let '(k1, n1, s1) := d_matakuliah a in
      let '(k2, n2, s2) := d_matakuliah b in
      String.eqb k1 k2 && String.eqb n1 n2 && Z.eqb s1 s2)
  && String.eqb (d_dosen a) (d_dosen b)
  && String.eqb (d_ruang a) (d_ruang b)
  && String.eqb (d_kelas a) (d_kelas b)
  && Z.eqb (d_semester a) (d_semester b).

(** [Jadwal.to_dict]: reads [self.hari.value], [self.matakuliah.kode] and
    [self.kelas.value]; a [str] or a [dict] has no such attribute. *)
Definition to_dict (self : Jadwal) : M JadwalDict :=
  match hari self, matakuliah self, kelas self with
  | HariEnum h, MatkulObj m, KelasEnum k =>
      ret (mkJadwalDict (Hari_value h) (waktu_mulai self) (waktu_selesai self)
                        (m_kode m, m_nama m, m_sks m) (dosen self) (ruang self)
                        (Kelas_value k) (semester self))
  | _, _, _ => raise AttributeError
  end.

(** ** genetic_algorithm.py *)

Record Catalog := mkCatalog {
  semester_2 : list Course;
  semester_4 : list Course;
  semester_6 : list Course;
  ruang_kuliah : list string;
  kelas_pagi : list string;
  kelas_malam : list string }.

Record AlgoritmaGenetika := mkGA {
  data : Catalog;
  ukuran_populasi : Z;
  generasi : Z;
  crossover_rate : Q;
  mutation_rate : Q;
  elitism_rate : Float }.

(** [0.1], the default [elitism_rate]: 0x1.999999999999ap-4. *)
Definition float_0_1 : Float :=
  mkFloat (S754_finite false 7205759403792794 (-56)) eq_refl.

(** [0.29]: 0x1.28f5c28f5c28fp-2, a little below 29/100. *)
Definition float_0_29 : Float :=
  mkFloat (S754_finite false 5224175567749775 (-54)) eq_refl.

(** The courses of the three semesters, in the order of the loops over
    [['semester_2', 'semester_4', 'semester_6']]. *)
Definition all_courses (d : Catalog) : list Course :=
  semester_2 d ++ semester_4 d ++ semester_6 d.

(** [validate_data]. The record types already give what the key and
    [isinstance] tests ask for; the test on the value of [sks] remains. *)
Definition validate_data (d : Catalog) : bool :=
  forallb (fun course => 0 <? c_sks course) (all_courses d).

(** [AlgoritmaGenetika(...)]: construction fails when validation does. *)
Definition new_AlgoritmaGenetika (d : Catalog) (ukuran generasi_ : Z)
    (cr mr : Q) (er : Float) : Exn + AlgoritmaGenetika :=
  if validate_data d then inr (mkGA d ukuran generasi_ cr mr er)
  else inl ValueError.

Definition time_slots : list (Z * Z) :=
  [(8 * 60, 10 * 60); (10 * 60, 12 * 60); (13 * 60, 15 * 60);
   (15 * 60, 17 * 60); (17 * 60, 19 * 60)].

Definition days : list string := ["Senin"; "Selasa"; "Rabu"; "Kamis"; "Jumat"].

Definition rooms : list string :=
  ["301"; "305"; "306"; "307"; "314"; "C204"; "C302"; "C407";
   "C507"; "C604"; "C701"; "C801"; "C504"; "C606"; "C702"].

(** [str(n)] for an [int]. *)
Definition str (n : Z) : string := NilZero.string_of_int (Z.to_int n).

(** One round of the loop over [all_courses] in [generate_random_jadwal].
    [semester] is the variable left over from the earlier loop over the
    three semester keys: it is ["semester_6"] for every course. *)
Definition generate_entry (course : Course) : M nat :=
  waktu <- choice time_slots ;;
  hari_ <- choice days ;;
  ruang_ <- choice rooms ;;
  dosen_ <- choice (c_dosen course) ;;
  k <- randint 1 15 ;;
  new_Jadwal (mkJadwal (HariStr hari_) (fst waktu) (snd waktu) (MatkulDict course)
                       dosen_ ruang_ (KelasStr (str k)) 6).

Fixpoint generate_entries (all_courses : list Course) : M (list nat) :=
  match all_courses with
  | [] => ret []
  | course :: rest =>
      r <- generate_entry course ;;
      rs <- generate_entries rest ;;
      ret (r :: rs)
  end.

Definition generate_random_jadwal (self : AlgoritmaGenetika) : M Solution :=
  jadwal <- fresh_sid ;;
  rs <- generate_entries (all_courses (data self)) ;;
  ret (mkSolution jadwal rs).

(** The body of the two loops of [calculate_fitness]: what one pair
    [(i, j)], [i < j], adds to [conflicts]. *)
Definition pair_conflicts (jadwal_i jadwal_j : Jadwal) : Z :=
  if hari_eq (hari jadwal_i) (hari jadwal_j) then
    (if String.eqb (ruang jadwal_i) (ruang jadwal_j)
     then if overlaps jadwal_i jadwal_j then 1 else 0
     else 0)
    + (if String.eqb (dosen jadwal_i) (dosen jadwal_j)
       then if overlaps jadwal_i jadwal_j then 1 else 0
       else 0)
    + (if kelas_eq (kelas jadwal_i) (kelas jadwal_j)
       then if semester jadwal_i =? semester jadwal_j
            then if overlaps jadwal_i jadwal_j then 1 else 0
            else 0
       else 0)
  else 0.

(** The loop over [j] for a fixed [i]. *)
Fixpoint conflicts_with (jadwal_i : Jadwal) (rest : list Jadwal) : Z :=
  match rest with
  | [] => 0
  | jadwal_j :: rest' => pair_conflicts jadwal_i jadwal_j + conflicts_with jadwal_i rest'
  end.

(** The loop over [i]: the final value of [conflicts]. *)
Fixpoint count_conflicts (individu : list Jadwal) : Z :=
  match individu with
  | [] => 0
  | jadwal_i :: rest => conflicts_with jadwal_i rest + count_conflicts rest
  end.

Definition calculate_fitness (individu : list Jadwal) : Q :=
  1 / inject_Z (1 + count_conflicts individu).

(** The fitness of a solution, through the store. *)
Definition fitness_in (w : World) (s : Solution) : Q :=
  calculate_fitness (entries w s).

Definition tournament_selection (populasi : list Solution) : M Solution :=
  selected <- sample populasi 5 ;;
  w <- get_world ;;
  py_min (fitness_in w) selected.

Definition incr_crossover : M unit :=
  fun w => Ok tt (mkWorld (heap w) (next_sid w) (tape w) (pos w)
                          (crossover_count w + 1) (mutation_count w)).

Definition incr_mutation : M unit :=
  fun w => Ok tt (mkWorld (heap w) (next_sid w) (tape w) (pos w)
                          (crossover_count w) (mutation_count w + 1)).

Definition crossover (self : AlgoritmaGenetika) (parent1 parent2 : Solution)
  : M (Solution * Solution) :=
  r <- random_random ;;
  if Qltb (crossover_rate self) r then ret (parent1, parent2)
  else
    point <- randint 1 (Z.of_nat (length (refs parent1)) - 1) ;;
    let p := Z.to_nat point in
    child1 <- new_list (firstn p (refs parent1) ++ skipn p (refs parent2)) ;;
    child2 <- new_list (firstn p (refs parent2) ++ skipn p (refs parent1)) ;;
    incr_crossover ;;;
    ret (child1, child2).

(** The three kinds of mutation of the entry at address [r]. *)
Definition mutate_waktu (r : nat) : M unit :=
  waktu <- choice time_slots ;;
  update r (set_waktu_mulai (fst waktu)) ;;;
  update r (set_waktu_selesai (snd waktu)).

Definition mutate_hari (r : nat) : M unit :=
  hari_ <- choice days ;;
  update r (set_hari (HariStr hari_)).

Definition mutate_ruang (r : nat) : M unit :=
  ruang_ <- choice rooms ;;
  update r (set_ruang ruang_).

(** The body of the loop of [mutate] for the entry at address [r]. *)
Definition mutate_entry (self : AlgoritmaGenetika) (r : nat) : M unit :=
  r1 <- random_random ;;
  if Qltb r1 (mutation_rate self) then
    r2 <- random_random ;;
    (if Qltb r2 (33 # 100) then mutate_waktu r
     else
       r3 <- random_random ;;
       if Qltb r3 (33 # 100) then mutate_hari r
       else mutate_ruang r) ;;;
    incr_mutation
  else ret tt.

Fixpoint mutate_loop (self : AlgoritmaGenetika) (rs : list nat) : M unit :=
  match rs with
  | [] => ret tt
  | r :: rest => mutate_entry self r ;;; mutate_loop self rest
  end.

(** [mutate]: [individu.copy()] is a new list of the same objects. *)
Definition mutate (self : AlgoritmaGenetika) (individu : Solution) : M Solution :=
  mutated <- new_list (refs individu) ;;
  mutate_loop self (refs mutated) ;;;
  ret mutated.

(** [populasi[j][k]]: [IndexError] past the end. *)
Definition index {A} (l : list A) (k : nat) : M A :=
  match nth_error l k with
  | Some x => ret x
  | None => raise IndexError
  end.

(** The generator expression of [calculate_diversity]: the number of
    positions [k] at which the two solutions' [to_dict()] differ. *)
Fixpoint count_diff (ind_i : list nat) (ind_j : list nat) (k : nat) : M Z :=
  match ind_i with
  | [] => ret 0
  | a :: rest =>
      ja <- read a ;;
      da <- to_dict ja ;;
      b <- index ind_j k ;;
      jb <- read b ;;
      db <- to_dict jb ;;
      n <- count_diff rest ind_j (S k) ;;
      ret ((if JadwalDict_eqb da db then 0 else 1) + n)
  end.

Fixpoint diversity_with (ind_i : Solution) (rest : list Solution) : M Z :=
  match rest with
  | [] => ret 0
  | ind_j :: rest' =>
      diff <- count_diff (refs ind_i) (refs ind_j) 0 ;;
      n <- diversity_with ind_i rest' ;;
      ret (diff + n)
  end.

Fixpoint diversity_sum (populasi : list Solution) : M Z :=
  match populasi with
  | [] => ret 0
  | ind_i :: rest =>
      d <- diversity_with ind_i rest ;;
      n <- diversity_sum rest ;;
      ret (d + n)
  end.

Definition calculate_diversity (populasi : list Solution) : M Q :=
  if (length populasi <? 2)%nat then ret 0%Q
  else
    diversity <- diversity_sum populasi ;;
    let n := Z.of_nat (length populasi) in
    let denom := n * (n - 1) * Z.of_nat (length (refs (hd (mkSolution 0 []) populasi))) in
    if denom =? 0 then raise ZeroDivisionError
    else ret (inject_Z diversity / inject_Z denom)%Q.

(** What [run] keeps between generations: the population, the best
    solution and fitness so far, and the time series of [metrics]. *)
Record GAState := mkGAState {
  populasi : list Solution;
  best_fitness : option Q;          (* None is float('inf') *)
  best_solution : option Solution;
  generations : list Z;
  best_fitness_log : list Q;
  average_fitness_log : list Q;
  diversity_log : list Q }.

Definition Qsum (l : list Q) : Q := fold_left Qplus l 0%Q.

(** Line 251: [max(2, int(self.ukuran_populasi * self.elitism_rate))],
    the product of an [int] and a [float]. *)
Definition num_elites (self : AlgoritmaGenetika) : Exn + Z :=
  match float_of_int (ukuran_populasi self) with
  | inl e => inl e
  | inr size =>
      match py_int (SFmul 53 1024 size (float_val (elitism_rate self))) with
      | inl e => inl e
      | inr k => inr (Z.max 2 k)
      end
  end.

(** Line 252: [sorted(populasi, key=...)[:num_elites]]. *)
Definition select_elites (num : Z) (w : World) (pop : list Solution)
  : list Solution :=
  py_prefix num (sorted (fitness_in w) pop).

(** The [while] loop that fills [new_populasi]. Every round appends at
    least one child, so [fuel] rounds are enough when [fuel] is at least
    the number of missing individuals. *)
Fixpoint breed (self : AlgoritmaGenetika) (fuel : nat)
    (pop new_populasi : list Solution) : M (list Solution) :=
  match fuel with
  | O => ret new_populasi
  | S fuel' =>
      if Z.of_nat (length new_populasi) <? ukuran_populasi self then
        parent1 <- tournament_selection pop ;;
        parent2 <- tournament_selection pop ;;
        children <- crossover self parent1 parent2 ;;
        new_child <- mutate self (fst children) ;;
        let np := new_populasi ++ [new_child] in
        if ukuran_populasi self <=? Z.of_nat (length np) then
          breed self fuel' pop np
        else
          new_child2 <- mutate self (snd children) ;;
          breed self fuel' pop (np ++ [new_child2])
      else ret new_populasi
  end.

(** [a < b] where [b] may be [float('inf')]. *)
Definition lt_inf (a : Q) (b : option Q) : bool :=
  match b with
  | None => true
  | Some q => Qltb a q
  end.

(** The test [self.best_fitness <= 0] that ends either loop early. *)
Definition stop_condition (best : option Q) : bool :=
  match best with
  | None => false
  | Some q => Qle_bool q 0
  end.

(** One round of the loop over [gen] in [run], up to and including the
    update of the best solution. [min] and [calculate_diversity] are
    evaluated again for the log lines, with the same outcome; an empty
    population fails at [min] before the mean is taken. *)
Definition generation (self : AlgoritmaGenetika) (gen : Z) (st : GAState)
  : M GAState :=
  w <- get_world ;;
  let fitness_scores := map (fitness_in w) (populasi st) in
  best <- py_min (fun x => x) fitness_scores ;;
  let average := (Qsum fitness_scores / inject_Z (Z.of_nat (length fitness_scores)))%Q in
  diversity <- calculate_diversity (populasi st) ;;
  num <- lift (num_elites self) ;;
  let elites := select_elites num w (populasi st) in
  new_populasi <- breed self (Z.to_nat (ukuran_populasi self)) (populasi st) elites ;;
  let pop' := py_prefix (ukuran_populasi self) new_populasi in
  w' <- get_world ;;
  current_best <- py_min (fitness_in w') pop' ;;
  let current_fitness := fitness_in w' current_best in
  let improved := lt_inf current_fitness (best_fitness st) in
  ret (mkGAState pop'
         (if improved then Some current_fitness else best_fitness st)
         (if improved then Some current_best else best_solution st)
         (generations st ++ [gen])
         (best_fitness_log st ++ [best])
         (average_fitness_log st ++ [average])
         (diversity_log st ++ [diversity])).

(** [for gen in range(self.generasi)], with its [break]. *)
Fixpoint generation_loop (self : AlgoritmaGenetika) (gens : list Z) (st : GAState)
  : M GAState :=
  match gens with
  | [] => ret st
  | gen :: rest =>
      st' <- generation self gen st ;;
      if stop_condition (best_fitness st') then ret st'
      else generation_loop self rest st'
  end.

Fixpoint initial_population (self : AlgoritmaGenetika) (n : nat)
  : M (list Solution) :=
  match n with
  | O => ret []
  | S n' =>
      s <- generate_random_jadwal self ;;
      rest <- initial_population self n' ;;
      ret (s :: rest)
  end.

(** [range(n)] *)
Definition range (n : Z) : list Z := map Z.of_nat (seq 0 (Z.to_nat n)).

Definition run (self : AlgoritmaGenetika) : M GAState :=
  pop <- initial_population self (Z.to_nat (ukuran_populasi self)) ;;
  generation_loop self (range (generasi self))
                  (mkGAState pop None None [] [] [] []).

(** ** tabu_search.py *)

(** Python [==] on two lists of [Jadwal]: same length and, position by
    position, the same object or equal objects. *)
Fixpoint refs_eqb (w : World) (l1 l2 : list nat) : bool :=
  match l1, l2 with
  | [], [] => true
  | a :: l1', b :: l2' =>
      ((a =? b)%nat || Jadwal_eqb (deref w a) (deref w b)) && refs_eqb w l1' l2'
  | _, _ => false
  end.

Definition Solution_eqb (w : World) (s t : Solution) : bool :=
  refs_eqb w (refs s) (refs t).

Definition Move : Type := Solution * Solution.

Definition Move_eqb (w : World) (m1 m2 : Move) : bool :=
  Solution_eqb w (fst m1) (fst m2) && Solution_eqb w (snd m1) (snd m2).

(** [move in tabu_list] *)
Definition move_in (w : World) (move : Move) (l : list Move) : bool :=
  existsb (Move_eqb w move) l.

Module TabuSearch.

Record t := mk {
  objective : list Jadwal -> Q;
  current_solution : Solution;
  best_solution : Solution;
  best_fitness : Q;
  tabu_list : list Move;
  max_iter : Z;
  tabu_size : Z;
  aspiration_threshold : Q;
  diversification_threshold : Q;
  intensification_threshold : Q;
  (* the metrics of [search] *)
  iterations : list Z;
  best_fitness_log : list Q;
  current_fitness_log : list Q;
  tabu_size_log : list Z;
  diversification_count : Z;
  intensification_count : Z }.

(** [TabuSearch(objective_function, initial_solution, ...)] *)
Definition init (objective_function : list Jadwal -> Q) (initial_solution : Solution)
    (max_iter_ tabu_size_ : Z) (asp div int : Q) : M t :=
  w <- get_world ;;
  ret (mk objective_function initial_solution initial_solution
          (objective_function (entries w initial_solution))
          [] max_iter_ tabu_size_ asp div int [] [] [] [] 0 0).

(** [x.f, y.f = y.f, x.f]: both reads, then the two writes in order. *)
Definition swap_field {V} (get : Jadwal -> V) (set : V -> Jadwal -> Jadwal)
    (a b : nat) : M unit :=
  ja <- read a ;;
  jb <- read b ;;
  update a (set (get jb)) ;;;
  update b (set (get ja)).

(** The body of the two loops over [i < j]: three neighbours. Each
    [solution.copy()] is a new list of the same [Jadwal] objects. *)
Definition swap_neighbors (solution : Solution) (a b : nat) : M (list Solution) :=
  n1 <- new_list (refs solution) ;;
  swap_field ruang set_ruang a b ;;;
  n2 <- new_list (refs solution) ;;
  swap_field waktu_mulai set_waktu_mulai a b ;;;
  swap_field waktu_selesai set_waktu_selesai a b ;;;
  n3 <- new_list (refs solution) ;;
  swap_field dosen set_dosen a b ;;;
  ret [n1; n2; n3].

Fixpoint swaps_with (solution : Solution) (a : nat) (rest : list nat)
  : M (list Solution) :=
  match rest with
  | [] => ret []
  | b :: rest' =>
      ns <- swap_neighbors solution a b ;;
      more <- swaps_with solution a rest' ;;
      ret (ns ++ more)
  end.

Fixpoint swaps (solution : Solution) (rs : list nat) : M (list Solution) :=
  match rs with
  | [] => ret []
  | a :: rest =>
      ns <- swaps_with solution a rest ;;
      more <- swaps solution rest ;;
      ret (ns ++ more)
  end.

Definition clamp (x : Z) : Z := Z.max 0 (Z.min (24 * 60) x).

(** The second loop: one neighbour per position, its times shifted. *)
Definition jitter_neighbor (solution : Solution) (a : nat) : M Solution :=
  neighbor <- new_list (refs solution) ;;
  time_diff <- randint (-30) 30 ;;
  ja <- read a ;;
  update a (set_waktu_mulai (clamp (waktu_mulai ja + time_diff))) ;;;
  ja' <- read a ;;
  update a (set_waktu_selesai (clamp (waktu_selesai ja' + time_diff))) ;;;
  ret neighbor.

Fixpoint jitters (solution : Solution) (rs : list nat) : M (list Solution) :=
  match rs with
  | [] => ret []
  | a :: rest =>
      n <- jitter_neighbor solution a ;;
      more <- jitters solution rest ;;
      ret (n :: more)
  end.

Definition get_neighbors (solution : Solution) : M (list Solution) :=
  ns <- swaps solution (refs solution) ;;
  js <- jitters solution (refs solution) ;;
  ret (ns ++ js).

Definition aspiration_criteria (self : t) (fitness : Q) : bool :=
  Qltb fitness (best_fitness self * (1 - aspiration_threshold self))%Q.

Definition diversification (self : t) (w : World) (solution : Solution) : bool :=
  Qltb (best_fitness self * (1 - diversification_threshold self))%Q
       (objective self (entries w solution)).

Definition intensification (self : t) (w : World) (solution : Solution) : bool :=
  Qltb (objective self (entries w solution))
       (best_fitness self * (1 - intensification_threshold self))%Q.

(** [update_tabu_list]: append, then drop the oldest when too long. *)
Definition update_tabu_list (self : t) (move : Move) : list Move :=
  let l := tabu_list self ++ [move] in
  if tabu_size self <? Z.of_nat (length l) then tl l else l.

(** The loop over [neighbors] (lines 121-135). The pair [best] is
    [(best_neighbor, best_fitness)]; [None] is [(None, float('inf'))]. *)
Fixpoint scan (self : t) (w : World) (neighbors : list Solution)
    (best : option (Solution * Q)) : option (Solution * Q) :=
  match neighbors with
  | [] => best
  | neighbor :: rest =>
      let fitness := objective self (entries w neighbor) in
      let move := (current_solution self, neighbor) in
      let best' :=
        if negb (move_in w move (tabu_list self))
        then if lt_inf fitness (option_map snd best)
             then Some (neighbor, fitness) else best
        else best in
      if aspiration_criteria self fitness then Some (neighbor, fitness)
      else scan self w rest best'
  end.

(** Lines 117-144: the neighbour accepted in this iteration, its fitness,
    and whether the diversification branch chose it. *)
Definition accept (self : t) : M (Solution * Q * bool) :=
  neighbors <- get_neighbors (current_solution self) ;;
  w <- get_world ;;
  match scan self w neighbors None with
  | Some (best_neighbor, fitness) => ret (best_neighbor, fitness, false)
  | None =>
      best_neighbor <- choice neighbors ;;
      ret (best_neighbor, objective self (entries w best_neighbor), true)
  end.

(** One round of the loop over [iteration] in [search]. *)
Definition iterate (self : t) (iteration : Z) : M t :=
  acc <- accept self ;;
  let '(best_neighbor, fitness, diversified) := acc in
  w <- get_world ;;
  let improved := Qltb fitness (best_fitness self) in
  let self1 :=
    mk (objective self) (current_solution self)
       (if improved then best_neighbor else best_solution self)
       (if improved then fitness else best_fitness self)
       (tabu_list self) (max_iter self) (tabu_size self)
       (aspiration_threshold self) (diversification_threshold self)
       (intensification_threshold self)
       (iterations self) (best_fitness_log self) (current_fitness_log self)
       (tabu_size_log self)
       (if diversified then diversification_count self + 1
        else diversification_count self)
       (intensification_count self) in
  let intensified := improved && intensification self1 w best_neighbor in
  (* self.current_solution = best_neighbor
     self.update_tabu_list((self.current_solution, best_neighbor)) *)
  let self2 :=
    mk (objective self1) best_neighbor (best_solution self1) (best_fitness self1)
       (tabu_list self1) (max_iter self1) (tabu_size self1)
       (aspiration_threshold self1) (diversification_threshold self1)
       (intensification_threshold self1)
       (iterations self1) (best_fitness_log self1) (current_fitness_log self1)
       (tabu_size_log self1) (diversification_count self1)
       (if intensified then intensification_count self1 + 1
        else intensification_count self1) in
  let tabu' := update_tabu_list self2 (current_solution self2, best_neighbor) in
  ret (mk (objective self2) (current_solution self2) (best_solution self2)
          (best_fitness self2) tabu' (max_iter self2) (tabu_size self2)
          (aspiration_threshold self2) (diversification_threshold self2)
          (intensification_threshold self2)
          (iterations self2 ++ [iteration])
          (best_fitness_log self2 ++ [best_fitness self2])
          (current_fitness_log self2 ++ [fitness])
          (tabu_size_log self2 ++ [Z.of_nat (length tabu')])
          (diversification_count self2) (intensification_count self2)).

(** [for iteration in range(self.max_iter)], with its [break]. *)
Fixpoint search_loop (self : t) (its : list Z) : M t :=
  match its with
  | [] => ret self
  | iteration :: rest =>
      self' <- iterate self iteration ;;
      if stop_condition (Some (best_fitness self')) then ret self'
      else search_loop self' rest
  end.

Definition search (self : t) : M t :=
  search_loop self (range (max_iter self)).

End TabuSearch.

(** ** The conflict rule as the specification words it *)

(** Half-open time windows that intersect. *)
Definition time_windows_overlap (a b : Jadwal) : bool :=
  (waktu_mulai a <? waktu_selesai b) && (waktu_mulai b <? waktu_selesai a).

(** A pair conflicts when the entries share the day, their time windows
    overlap, and the room, the instructor, or class label and semester
    together are the same. *)
Definition conflicting_pair (a b : Jadwal) : bool :=
  hari_eq (hari a) (hari b) && time_windows_overlap a b
  && (String.eqb (ruang a) (ruang b)
      || String.eqb (dosen a) (dosen b)
      || (kelas_eq (kelas a) (kelas b) && (semester a =? semester b))).

(** The unordered pairs of a sequence: positions [i < j]. *)
Fixpoint pairs {A} (l : list A) : list (A * A) :=
  match l with
  | [] => []
  | a :: t => map (pair a) t ++ pairs t
  end.

(** [conflict_count] as the number of conflicting pairs. *)
Definition conflicting_pairs (individu : list Jadwal) : Z :=
  Z.of_nat (length (filter (fun p => conflicting_pair (fst p) (snd p))
                           (pairs individu))).

Definition sum_over_pairs (f : Jadwal -> Jadwal -> Z) (individu : list Jadwal) : Z :=
  fold_right Z.add 0 (map (fun p => f (fst p) (snd p)) (pairs individu)).

Definition b2z (b : bool) : Z := if b then 1 else 0.

(** ** app.py: the objective handed to the tabu search *)

(** The condition of the generator expression (lines 234-238) for one
    pair [i < j]; the [isinstance] tests hold for a list of [Jadwal]. *)
Definition app_pair_test (xi xj : Jadwal) : bool :=
  hari_eq (hari xi) (hari xj)
  && String.eqb (ruang xi) (ruang xj)
  && (((waktu_mulai xi <=? waktu_mulai xj) && (waktu_mulai xj <? waktu_selesai xi))
      || ((waktu_mulai xj <=? waktu_mulai xi) && (waktu_mulai xi <? waktu_selesai xj))).

Fixpoint app_count_with (xi : Jadwal) (rest : list Jadwal) : Z :=
  match rest with
  | [] => 0
  | xj :: rest' => (if app_pair_test xi xj then 1 else 0) + app_count_with xi rest'
  end.

Fixpoint app_count (x : list Jadwal) : Z :=
  match x with
  | [] => 0
  | xi :: rest => app_count_with xi rest + app_count rest
  end.

Definition app_objective (x : list Jadwal) : Q := 1 / inject_Z (1 + app_count x).

(** The number of pairs [i < j] for which [Jadwal.overlaps] holds. *)
Definition overlapping_pairs (individu : list Jadwal) : Z :=
  Z.of_nat (length (filter (fun p => overlaps (fst p) (snd p)) (pairs individu))).

(** The invariant [_validate_time] checks at construction. *)
Definition valid_times (j : Jadwal) : Prop :=
  waktu_mulai j < waktu_selesai j /\ 0 <= waktu_mulai j /\ waktu_selesai j <= 24 * 60.

(** What the loop of [generate_random_jadwal] stores for [course],
    the semester apart. *)
Definition generated_from (course : Course) (j : Jadwal) : Prop :=
  matakuliah j = MatkulDict course
  /\ In (dosen j) (c_dosen course)
  /\ In (waktu_mulai j, waktu_selesai j) time_slots
  /\ (exists h, hari j = HariStr h /\ In h days)
  /\ In (ruang j) rooms
  /\ (exists k, 1 <= k <= 15 /\ kelas j = KelasStr (str k)).

(** The objects and the two counters are as they were. *)
Definition same_store (w w' : World) : Prop :=
  heap w' = heap w
  /\ mutation_count w' = mutation_count w
  /\ crossover_count w' = crossover_count w.

(** What mutation keeps of an entry: course, instructor, class label and
    semester, and valid times if it had them. *)
Definition mutated_from (j j' : Jadwal) : Prop :=
  matakuliah j' = matakuliah j /\ dosen j' = dosen j
  /\ kelas j' = kelas j /\ semester j' = semester j
  /\ (valid_times j -> valid_times j').

Definition mutation_frame (w w' : World) : Prop :=
  length (heap w') = length (heap w)
  /\ crossover_count w' = crossover_count w
  /\ forall r, mutated_from (deref w r) (deref w' r).

(** An entry whose day, course and class label are of the annotated
    classes, so that [to_dict] can read them. *)
Definition enum_typed (j : Jadwal) : Prop :=
  exists h m k,
    hari j = HariEnum h /\ matakuliah j = MatkulObj m /\ kelas j = KelasEnum k.

(** An engine over a catalog without courses. *)
Definition empty_catalog : Catalog := mkCatalog [] [] [] ["R1"] ["1"] ["2"].
Definition ga_empty : AlgoritmaGenetika :=
  mkGA empty_catalog 2 1 (8 # 10) (1 # 10) float_0_1.

(** Times within the day, as [clamp] leaves them. *)
Definition in_day (j : Jadwal) : Prop :=
  0 <= waktu_mulai j <= 24 * 60 /\ 0 <= waktu_selesai j <= 24 * 60.

Definition all_in_day (w : World) : Prop := forall r, in_day (deref w r).

(** What neighbour generation keeps of an entry: day, course, class
    label and semester. *)
Definition neighbor_of (j j' : Jadwal) : Prop :=
  hari j' = hari j /\ matakuliah j' = matakuliah j
  /\ kelas j' = kelas j /\ semester j' = semester j.

Definition neighbor_frame (w w' : World) : Prop :=
  length (heap w') = length (heap w)
  /\ (forall r, neighbor_of (deref w r) (deref w' r))
  /\ (all_in_day w -> all_in_day w').

(** ** Statements about runs *)

(** The computation returns from [w], and its result and final world
    satisfy [post]. *)
Definition returns {A} (c : M A) (w : World) (post : A -> World -> Prop) : Prop :=
  match c w with
  | Ok a w' => post a w'
  | Raise _ => False
  end.

(** The same engine over a catalog with another [ruang_kuliah]. *)
Definition with_ruang_kuliah (rk : list string) (self : AlgoritmaGenetika)
  : AlgoritmaGenetika :=
  mkGA (mkCatalog (semester_2 (data self)) (semester_4 (data self))
                  (semester_6 (data self)) rk (kelas_pagi (data self))
                  (kelas_malam (data self)))
       (ukuran_populasi self) (generasi self) (crossover_rate self)
       (mutation_rate self) (elitism_rate self).

(** Between two worlds, every object kept its room or took one of the
    fixed list. *)
Definition rooms_kept_or_listed (w w' : World) : Prop :=
  forall r, ruang (deref w' r) = ruang (deref w r) \/ In (ruang (deref w' r)) rooms.

(** ** Sample inputs *)

Definition course_A : Course := mkCourse "K1" "Statistik" 3 ["Dosen A"].
Definition course_B : Course := mkCourse "K2" "Ekonomi" 2 ["Dosen B"].

(** An entry as [generate_random_jadwal] builds them. *)
Definition entry (c : Course) (h : string) (mulai selesai : Z)
    (d r k : string) : Jadwal :=
  mkJadwal (HariStr h) mulai selesai (MatkulDict c) d r (KelasStr k) 6.

(** Monday, room 301, 08:00-10:00 and 09:00-11:00, the same instructor. *)
Definition clash_1 : Jadwal := entry course_A "Senin" 480 600 "Dosen A" "301" "1".
Definition clash_2 : Jadwal := entry course_B "Senin" 540 660 "Dosen A" "301" "2".

(** A course that the instructor of [course_A] may teach as well, and an
    entry for it on Monday 08:00-10:00 like [clash_1], with that
    instructor, in another room. *)
Definition course_C : Course := mkCourse "K3" "Akuntansi" 3 ["Dosen A"; "Dosen C"].
Definition other_room : Jadwal := entry course_C "Senin" 480 600 "Dosen A" "305" "2".

(** Tuesday, room 305, 13:00-15:00. *)
Definition apart : Jadwal := entry course_B "Selasa" 780 900 "Dosen B" "305" "3".

(** A store of three entries and a generator whose n-th draw is n. *)
Definition sample_world : World :=
  mkWorld [clash_1; clash_2; apart] 2 (fun n => Z.of_nat n) 0 0 0.

Definition sample_catalog : Catalog :=
  mkCatalog [course_A] [course_B] [] ["R1"; "R2"] ["1"] ["2"].

(** An engine that always crosses over and always mutates. *)
Definition sample_ga : AlgoritmaGenetika := mkGA sample_catalog 1 3 1 1 float_0_1.

(** Two parents that differ in their first entry and share the second. *)
Definition parent_a : Solution := mkSolution 0 [0%nat; 2%nat].
Definition parent_b : Solution := mkSolution 1 [1%nat; 2%nat].

(** C9 as stated: with [crossover_rate = 1.0], parents of one length that
    are not identical give two children of that length, one of which
    differs from its parent at some position. *)
Definition crossover_always_changes : Prop :=
  forall (self : AlgoritmaGenetika) (w : World) (parent1 parent2 : Solution),
    (crossover_rate self == 1)%Q ->
    length (refs parent1) = length (refs parent2) ->
    entries w parent1 <> entries w parent2 ->
    returns (crossover self parent1 parent2) w
      (fun children w' =>
         length (refs (fst children)) = length (refs parent1)
         /\ length (refs (snd children)) = length (refs parent1)
         /\ (entries w' (fst children) <> entries w' parent1
             \/ entries w' (snd children) <> entries w' parent2)).

(** Python's [round(x)]: to the nearest integer, a half to the even one. *)
Definition py_round (x : Q) : Z :=
  let f := Qfloor x in
  let frac := (x - inject_Z f)%Q in
  if Qltb frac (1 # 2) then f
  else if Qltb (1 # 2) frac then f + 1
  else if Z.even f then f else f + 1.

(** C7 as stated: the next population begins with
    [max(2, round(elitism_rate * size))] elite individuals, the ones of
    lowest fitness in the current population. *)
Definition elite_count_is_rounded : Prop :=
  forall (self : AlgoritmaGenetika) (gen : Z) (st : GAState) (w : World)
         (st' : GAState) (w' : World),
    Z.of_nat (length (populasi st)) = ukuran_populasi self ->
    generation self gen st w = Ok st' w' ->
    exists elites rest tail,
      populasi st' = elites ++ tail
      /\ Z.of_nat (length elites)
         = Z.max 2 (py_round (Q_of_float (float_val (elitism_rate self))
                              * inject_Z (ukuran_populasi self)))
      /\ Permutation (populasi st) (elites ++ rest)
      /\ (forall e x, In e elites -> In x rest ->
                      (fitness_in w e <= fitness_in w x)%Q).

(** A store of entries built with the enum members, five individuals
    over it, and an engine for a population of five. *)
Definition enum_entry (h : Hari) (mulai selesai : Z) (d r : string) : Jadwal :=
  mkJadwal (HariEnum h) mulai selesai (MatkulObj (mkMatakuliah "K1" "Statistik" 3))
           d r (KelasEnum PAGI) 2.

Definition enum_world : World :=
  mkWorld [enum_entry SENIN 480 600 "Dosen A" "301";
           enum_entry SENIN 540 660 "Dosen B" "301";
           enum_entry RABU 480 600 "Dosen A" "305";
           enum_entry RABU 480 600 "Dosen A" "306"]
          5 (fun n => Z.of_nat (7 * n + 3)) 0 0 0.

Definition five_individuals : list Solution :=
  [mkSolution 0 [0%nat; 1%nat]; mkSolution 1 [2%nat; 3%nat];
   mkSolution 2 [0%nat; 2%nat]; mkSolution 3 [1%nat; 3%nat];
   mkSolution 4 [0%nat; 3%nat]].

Definition ga_5 : AlgoritmaGenetika :=
  mkGA sample_catalog 5 3 (8 # 10) (1 # 10) float_0_1.

(** A tabu search from [parent_a] with the default thresholds and a
    budget of three iterations. *)
Definition ts_start : M TabuSearch.t :=
  TabuSearch.init calculate_fitness parent_a 3 10 (1 # 10) (8 # 10) (9 # 10).

(** C6 as stated: an accepted neighbour whose move is in the tabu queue
    satisfies the aspiration criterion. *)
Definition tabu_needs_aspiration : Prop :=
  forall (self : TabuSearch.t) (w : World) nb fitness diversified w',
    TabuSearch.accept self w = Ok (nb, fitness, diversified) w' ->
    move_in w' (TabuSearch.current_solution self, nb) (TabuSearch.tabu_list self)
    = true ->
    TabuSearch.aspiration_criteria self fitness = true.

(** A best fitness that is [float('inf')] or above zero. *)
Definition positive_or_inf (best : option Q) : Prop :=
  match best with
  | None => True
  | Some q => (0 < q)%Q
  end.

(** What every entry built by [generate_random_jadwal] has: a room of
    the fixed list and a plain string for the day. *)
Definition as_generated (j : Jadwal) : Prop :=
  In (ruang j) rooms /\ exists h, hari j = HariStr h.

(** The order of [sorted]: by key. *)
Definition key_le {A} (key : A -> Q) (a b : A) : Prop := (key a <= key b)%Q.

(** An engine for a population of three. *)
Definition ga_3 : AlgoritmaGenetika :=
  mkGA sample_catalog 3 3 (8 # 10) (1 # 10) float_0_1.

(** A tabu search from [parent_a] with a queue of one move. *)
Definition ts_small : M TabuSearch.t :=
  TabuSearch.init calculate_fitness parent_a 3 1 (1 # 10) (8 # 10) (9 # 10).

(** * Properties *)

(** ** The conflict evaluator *)

Lemma pair_conflicts_nonneg a b : 0 <= pair_conflicts a b.
Proof.
  unfold pair_conflicts.
  repeat match goal with |- context [if ?c then _ else _] => destruct c end; lia.
Qed.

Lemma conflicts_with_nonneg a rest : 0 <= conflicts_with a rest.
Proof.
  induction rest as [|b rest IH]; simpl; [lia|].
  pose proof (pair_conflicts_nonneg a b); lia.
Qed.

Lemma count_conflicts_nonneg individu : 0 <= count_conflicts individu.
Proof.
  induction individu as [|a rest IH]; simpl; [lia|].
  pose proof (conflicts_with_nonneg a rest); lia.
Qed.

Lemma sum_app (l1 l2 : list Z) :
  fold_right Z.add 0 (l1 ++ l2) = fold_right Z.add 0 l1 + fold_right Z.add 0 l2.
Proof. induction l1 as [|x l1 IH]; simpl; lia. Qed.

Lemma conflicts_with_sum f a rest :
  fold_right Z.add 0 (map (fun p : Jadwal * Jadwal => f (fst p) (snd p)) (map (pair a) rest))
  = fold_right Z.add 0 (map (f a) rest).
Proof. induction rest as [|b rest IH]; simpl; congruence. Qed.

Lemma conflicts_with_fold a rest :
  conflicts_with a rest = fold_right Z.add 0 (map (pair_conflicts a) rest).
Proof. induction rest as [|b rest IH]; simpl; congruence. Qed.

Lemma count_conflicts_pairs individu :
  count_conflicts individu = sum_over_pairs pair_conflicts individu.
Proof.
  unfold sum_over_pairs.
  induction individu as [|a rest IH]; simpl; [reflexivity|].
  rewrite map_app, sum_app, conflicts_with_sum, <- conflicts_with_fold, IH.
  reflexivity.
Qed.

(** What one pair adds when day, room and time window are shared. *)
Lemma pair_conflicts_shared_room a b :
  hari_eq (hari a) (hari b) = true ->
  String.eqb (ruang a) (ruang b) = true ->
  time_windows_overlap a b = true ->
  pair_conflicts a b
  = 1 + b2z (String.eqb (dosen a) (dosen b))
      + b2z (kelas_eq (kelas a) (kelas b) && (semester a =? semester b)).
Proof.
  intros Hd Hr Ht. unfold pair_conflicts, overlaps, time_windows_overlap in *.
  rewrite Hd, Hr. simpl. rewrite Ht.
  destruct (String.eqb (dosen a) (dosen b)), (kelas_eq (kelas a) (kelas b)),
    (semester a =? semester b); reflexivity.
Qed.

Lemma pair_conflicts_apart a b :
  hari_eq (hari a) (hari b) = false \/ time_windows_overlap a b = false ->
  pair_conflicts a b = 0.
Proof.
  intros H. unfold pair_conflicts, overlaps, time_windows_overlap in *.
  destruct (hari_eq (hari a) (hari b)); [|reflexivity].
  destruct H as [H|H]; [discriminate|]. rewrite H. simpl.
  destruct (String.eqb (ruang a) (ruang b)), (String.eqb (dosen a) (dosen b)),
    (kelas_eq (kelas a) (kelas b)), (semester a =? semester b); reflexivity.
Qed.

Lemma fitness_shape individu :
  exists p : positive,
    1 + count_conflicts individu = Zpos p
    /\ calculate_fitness individu = (1 * (1 # p))%Q.
Proof.
  pose proof (count_conflicts_nonneg individu) as H.
  unfold calculate_fitness.
  destruct (1 + count_conflicts individu) as [|p|p] eqn:E; try lia.
  exists p. split; reflexivity.
Qed.

(** C2, as stated, fails: two entries in one room at overlapping times
    with the same instructor are one conflicting pair, and the evaluator
    counts 2, giving 1/3 and not 1/2. *)
Lemma calculate_fitness_not_pair_count :
  ~ (forall individu : list Jadwal,
       (calculate_fitness individu == 1 / inject_Z (1 + conflicting_pairs individu))%Q).
Proof.
  intros H. specialize (H [clash_1; clash_2]). vm_compute in H. discriminate.
Qed.

(** C2, amended: the fitness is [1 / (1 + conflicts)] where [conflicts]
    sums a contribution over the unordered pairs of entries; a pair that
    shares day and room with overlapping time windows contributes 1, plus
    1 for the same instructor, plus 1 for the same class label and
    semester; a pair on different days or with disjoint time windows
    contributes 0. *)
Theorem calculate_fitness_counts_every_criterion :
  forall (individu : list Jadwal) (a b : Jadwal),
    (calculate_fitness individu
       == 1 / inject_Z (1 + sum_over_pairs pair_conflicts individu))%Q
    /\ (hari_eq (hari a) (hari b) = true ->
        String.eqb (ruang a) (ruang b) = true ->
        time_windows_overlap a b = true ->
        pair_conflicts a b
        = 1 + b2z (String.eqb (dosen a) (dosen b))
            + b2z (kelas_eq (kelas a) (kelas b) && (semester a =? semester b)))
    /\ (hari_eq (hari a) (hari b) = false \/ time_windows_overlap a b = false ->
        pair_conflicts a b = 0).
Proof.
  intros individu a b. split; [|split].
  - unfold calculate_fitness. rewrite count_conflicts_pairs. reflexivity.
  - apply pair_conflicts_shared_room.
  - apply pair_conflicts_apart.
Qed.

Lemma calculate_fitness_counts_every_criterion_witness :
  pair_conflicts clash_1 clash_2 = 2.
Proof.
  destruct (calculate_fitness_counts_every_criterion [clash_1; clash_2] clash_1 clash_2)
    as (_ & Hshared & _).
  rewrite Hshared; reflexivity.
Defined.

Lemma pair_conflicts_zero_iff a b :
  pair_conflicts a b = 0 <-> overlaps a b = false.
Proof.
  unfold pair_conflicts.
  destruct (overlaps a b) eqn:Eo.
  - unfold overlaps in Eo.
    destruct (hari_eq (hari a) (hari b)); [|discriminate].
    destruct (String.eqb (ruang a) (ruang b)); [|discriminate].
    split; [|discriminate].
    destruct (String.eqb (dosen a) (dosen b)), (kelas_eq (kelas a) (kelas b)),
      (semester a =? semester b); simpl; lia.
  - split; [reflexivity|]. intros _.
    destruct (hari_eq (hari a) (hari b)), (String.eqb (ruang a) (ruang b)),
      (String.eqb (dosen a) (dosen b)), (kelas_eq (kelas a) (kelas b)),
      (semester a =? semester b); reflexivity.
Qed.

Lemma conflicts_with_zero_iff a rest :
  conflicts_with a rest = 0 <-> Forall (fun b => overlaps a b = false) rest.
Proof.
  induction rest as [|b rest IH]; simpl.
  - split; [constructor|reflexivity].
  - pose proof (pair_conflicts_nonneg a b).
    pose proof (conflicts_with_nonneg a rest).
    split.
    + intros H1. constructor.
      * apply pair_conflicts_zero_iff. lia.
      * apply IH. lia.
    + intros H1. inversion H1; subst.
      assert (pair_conflicts a b = 0) by (apply pair_conflicts_zero_iff; assumption).
      assert (conflicts_with a rest = 0) by (apply IH; assumption).
      lia.
Qed.

Lemma count_conflicts_zero_iff individu :
  count_conflicts individu = 0
  <-> Forall (fun p => overlaps (fst p) (snd p) = false) (pairs individu).
Proof.
  induction individu as [|a rest IH]; simpl.
  - split; [constructor|reflexivity].
  - pose proof (conflicts_with_nonneg a rest).
    pose proof (count_conflicts_nonneg rest).
    rewrite Forall_app, Forall_map. simpl.
    rewrite <- IH, <- conflicts_with_zero_iff. lia.
Qed.

Lemma overlaps_as_worded a b :
  overlaps a b
  = hari_eq (hari a) (hari b) && String.eqb (ruang a) (ruang b)
    && time_windows_overlap a b.
Proof.
  unfold overlaps, time_windows_overlap.
  destruct (hari_eq (hari a) (hari b)), (String.eqb (ruang a) (ruang b));
    reflexivity.
Qed.

Lemma overlaps_conflicting_pair a b :
  overlaps a b = true -> conflicting_pair a b = true.
Proof.
  rewrite overlaps_as_worded. unfold conflicting_pair.
  destruct (hari_eq (hari a) (hari b)), (String.eqb (ruang a) (ruang b)),
    (time_windows_overlap a b); simpl; intros H; try discriminate; reflexivity.
Qed.

Lemma filter_none {A} (f : A -> bool) (l : list A) :
  length (filter f l) = 0%nat -> Forall (fun x => f x = false) l.
Proof.
  induction l as [|x l IH]; simpl; intros H; [constructor|].
  destruct (f x) eqn:E; [discriminate|]. constructor; [exact E|apply IH, H].
Qed.

(** C3 fails on the code. The fitness does lie in (0, 1], and it is 1
    when no pair conflicts; but it is 1 as well for solutions with
    conflicting pairs: [Jadwal.overlaps] demands the same room, so the
    instructor test and the class test of [calculate_fitness] never fire
    for entries in different rooms. Two entries on Monday 08:00-10:00
    with the same instructor in rooms 301 and 305 are one conflicting
    pair and score 1. The fitness is 1 exactly when no two entries share
    day and room with intersecting time windows. *)
Theorem calculate_fitness_misses_conflicts_across_rooms :
  (forall individu : list Jadwal,
     (0 < calculate_fitness individu)%Q /\ (calculate_fitness individu <= 1)%Q)
  /\ (forall individu : list Jadwal,
        conflicting_pairs individu = 0 -> (calculate_fitness individu == 1)%Q)
  /\ (forall individu : list Jadwal,
        (calculate_fitness individu == 1)%Q
        <-> Forall (fun p =>
                      hari_eq (hari (fst p)) (hari (snd p))
                      && String.eqb (ruang (fst p)) (ruang (snd p))
                      && time_windows_overlap (fst p) (snd p) = false)
                   (pairs individu))
  /\ conflicting_pairs [clash_1; other_room] = 1
  /\ (calculate_fitness [clash_1; other_room] == 1)%Q.
Proof.
  assert (Hone : forall individu,
             (calculate_fitness individu == 1)%Q <-> count_conflicts individu = 0).
  { intros individu. destruct (fitness_shape individu) as (p & Hp & ->).
    unfold Qeq; simpl; lia. }
  split; [|split; [|split; [|split]]].
  - intros individu. destruct (fitness_shape individu) as (p & Hp & ->).
    split; [unfold Qlt; simpl; lia|unfold Qle; simpl; lia].
  - intros individu H. apply Hone, count_conflicts_zero_iff.
    unfold conflicting_pairs in H.
    assert (H0 : length (filter (fun p => conflicting_pair (fst p) (snd p))
                                (pairs individu)) = 0%nat) by lia.
    apply filter_none in H0. rewrite Forall_forall in H0 |- *.
    intros p Hp. specialize (H0 p Hp). cbv beta in H0.
    destruct (overlaps (fst p) (snd p)) eqn:E; [|reflexivity].
    apply overlaps_conflicting_pair in E. congruence.
  - intros individu. rewrite Hone, count_conflicts_zero_iff.
    rewrite !Forall_forall. split; intros H p Hp; specialize (H p Hp);
      cbv beta in *; [rewrite <- overlaps_as_worded|rewrite overlaps_as_worded];
      exact H.
  - reflexivity.
  - reflexivity.
Qed.

(** ** Runs of monadic code *)

Lemma bind_inv {A B} (c : M A) (k : A -> M B) w b w2 :
  bind c k w = Ok b w2 ->
  exists a w1, c w = Ok a w1 /\ k a w1 = Ok b w2.
Proof.
  unfold bind. destruct (c w) as [a w1|e]; [|discriminate].
  intros H. exists a, w1. split; [reflexivity|exact H].
Qed.

Lemma returns_bind {A B} (c : M A) (k : A -> M B) w post :
  returns c w (fun a w1 => returns (k a) w1 post) ->
  returns (bind c k) w post.
Proof. unfold returns, bind. destruct (c w); auto. Qed.

Lemma returns_weaken {A} (c : M A) w (post post' : A -> World -> Prop) :
  returns c w post -> (forall a w', post a w' -> post' a w') -> returns c w post'.
Proof. unfold returns. destruct (c w); auto. Qed.

Lemma returns_inv {A} (c : M A) w post :
  returns c w post -> exists a w', c w = Ok a w' /\ post a w'.
Proof. unfold returns. destruct (c w) as [a w'|]; [eauto|tauto]. Qed.

(** A property of the result of a run is read off the run itself. *)
Lemma Ok_eval {A} (r : Result A) a w (P : A -> World -> Prop) :
  r = Ok a w ->
  match r with Ok a' w' => P a' w' | Raise _ => True end ->
  P a w.
Proof. intros ->. exact (fun H => H). Qed.

Lemma not_Raise {A} (r : Result A) e :
  match r with Ok _ _ => True | Raise _ => False end -> r <> Raise e.
Proof. intros H ->. exact H. Qed.

Lemma returns_intro {A} (c : M A) w (post : A -> World -> Prop) :
  match c w with Ok _ _ => True | Raise _ => False end ->
  (forall r w', c w = Ok r w' -> post r w') ->
  returns c w post.
Proof.
  unfold returns. destruct (c w) as [r w'|e]; [|tauto].
  intros _ H. apply H. reflexivity.
Qed.

Ltac inv_bind H :=
  repeat match type of H with
  | bind _ _ _ = Ok _ _ =>
      let a := fresh "a" in let w := fresh "w" in
      let H1 := fresh "Hc" in
      apply bind_inv in H; destruct H as (a & w & H1 & H)
  end.

Lemma choice_inv {A} (l : list A) w x w' :
  choice l w = Ok x w' ->
  In x l /\ heap w' = heap w /\ next_sid w' = next_sid w.
Proof.
  destruct l as [|d l]; simpl; [discriminate|].
  unfold bind, draw, ret. intros H. inversion H; subst; clear H. simpl.
  split; [|split; reflexivity].
  set (n := Z.of_nat (S (length l))).
  assert (Hn : 0 < n) by (unfold n; lia).
  pose proof (Z.mod_pos_bound (tape w (pos w)) n Hn) as Hb.
  change (In (nth (Z.to_nat (tape w (pos w) mod n)) (d :: l) d) (d :: l)).
  apply nth_In. simpl length. unfold n in *. lia.
Qed.

Lemma choice_returns {A} (l : list A) w :
  l <> [] -> exists x w', choice l w = Ok x w'.
Proof.
  destruct l as [|d l]; [congruence|]. intros _.
  unfold choice, bind, draw, ret. eauto.
Qed.

Lemma randint_inv a b w x w' :
  randint a b w = Ok x w' ->
  a <= x <= b /\ heap w' = heap w /\ next_sid w' = next_sid w.
Proof.
  unfold randint. destruct (b <? a) eqn:E; [discriminate|].
  apply Z.ltb_ge in E.
  unfold bind, draw, ret. intros H. inversion H; subst; clear H. simpl.
  pose proof (Z.mod_pos_bound (tape w (pos w)) (b - a + 1) ltac:(lia)).
  repeat split; lia.
Qed.

Lemma nth_list_set {A} (l : list A) r x i d :
  nth i (list_set l r x) d
  = if (i =? r)%nat && (r <? length l)%nat then x else nth i l d.
Proof.
  revert r i. induction l as [|a l IH]; intros r i; simpl.
  - rewrite andb_false_r. reflexivity.
  - destruct r as [|r], i as [|i]; simpl; try reflexivity.
    rewrite IH. reflexivity.
Qed.

Lemma length_list_set {A} (l : list A) r x : length (list_set l r x) = length l.
Proof.
  revert r. induction l as [|a l IH]; intros r; simpl; [reflexivity|].
  destruct r; simpl; [reflexivity|]. rewrite IH. reflexivity.
Qed.

(** ** The rooms of generated and mutated entries *)

Lemma generate_entry_inv course w r w' :
  generate_entry course w = Ok r w' ->
  exists j, as_generated j /\ heap w' = heap w ++ [j] /\ r = length (heap w).
Proof.
  unfold generate_entry. intros H. inv_bind H.
  apply choice_inv in Hc as (_ & Hh0 & _).
  apply choice_inv in Hc0 as (_ & Hh1 & _).
  apply choice_inv in Hc1 as (Hroom & Hh2 & _).
  apply choice_inv in Hc2 as (_ & Hh3 & _).
  apply randint_inv in Hc3 as (_ & Hh4 & _).
  unfold new_Jadwal in H. simpl in H.
  repeat match type of H with
  | (if ?c then _ else _) _ = _ => destruct c; [discriminate|]
  end.
  unfold alloc in H. inversion H; subst; clear H.
  eexists. split; [|split].
  2: { simpl. rewrite Hh4, Hh3, Hh2, Hh1, Hh0. reflexivity. }
  - split; [exact Hroom|]. simpl. eauto.
  - congruence.
Qed.

Lemma generate_entries_inv courses w rs w' :
  generate_entries courses w = Ok rs w' ->
  exists js, heap w' = heap w ++ js
             /\ rs = seq (length (heap w)) (length js)
             /\ length js = length courses
             /\ Forall as_generated js.
Proof.
  revert w rs w'. induction courses as [|c courses IH]; intros w rs w' H; simpl in H.
  - inversion H; subst. exists []. rewrite app_nil_r. repeat split; constructor.
  - inv_bind H. inversion H; subst; clear H.
    apply generate_entry_inv in Hc as (j & Hj & Hh & ->).
    apply IH in Hc0 as (js & Hh' & -> & Hlen & Hjs).
    exists (j :: js). rewrite Hh', Hh, <- app_assoc. simpl.
    split; [reflexivity|]. split; [|split].
    + rewrite length_app. simpl. f_equal. f_equal. lia.
    + f_equal. exact Hlen.
    + constructor; assumption.
Qed.

Lemma choice_total {A} (l : list A) w :
  l <> [] -> returns (choice l) w (fun x _ => In x l).
Proof.
  intros Hl. destruct (choice_returns l w Hl) as (x & w' & H).
  unfold returns. rewrite H. apply choice_inv in H. tauto.
Qed.

Lemma randint_total a b w :
  a <= b -> returns (randint a b) w (fun x _ => a <= x <= b).
Proof.
  intros Hab. unfold returns.
  destruct (randint a b w) as [x w'|e] eqn:E.
  - apply randint_inv in E. tauto.
  - unfold randint in E. destruct (b <? a) eqn:E'; [apply Z.ltb_lt in E'; lia|].
    discriminate.
Qed.

Lemma new_Jadwal_total j w :
  waktu_mulai j < waktu_selesai j ->
  0 <= waktu_mulai j -> waktu_selesai j <= 24 * 60 ->
  semester j = 6 ->
  returns (new_Jadwal j) w (fun _ _ => True).
Proof.
  intros H1 H2 H3 H4. unfold returns, new_Jadwal.
  destruct (waktu_selesai j <=? waktu_mulai j) eqn:E1; [apply Z.leb_le in E1; lia|].
  destruct (waktu_mulai j <? 0) eqn:E2; [apply Z.ltb_lt in E2; lia|].
  destruct (24 * 60 <? waktu_selesai j) eqn:E3; [apply Z.ltb_lt in E3; lia|].
  rewrite H4. simpl. exact I.
Qed.

Ltac step_with lem :=
  apply returns_bind; eapply returns_weaken; [apply lem|cbv beta; intros ? ? ?].

Lemma generate_entry_total course w :
  c_dosen course <> [] -> returns (generate_entry course) w (fun _ _ => True).
Proof.
  intros Hd. unfold generate_entry.
  step_with (@choice_total (Z * Z)); [discriminate|].
  step_with (@choice_total string); [discriminate|].
  step_with (@choice_total string); [discriminate|].
  step_with (@choice_total string); [exact Hd|].
  step_with randint_total; [lia|].
  match goal with H : In _ time_slots |- _ => simpl in H; rename H into Hs end.
  apply new_Jadwal_total; simpl; try reflexivity;
    destruct Hs as [<-|[<-|[<-|[<-|[<-|[]]]]]]; simpl; lia.
Qed.

Lemma generate_entries_returns courses w :
  Forall (fun c => c_dosen c <> []) courses ->
  exists rs w', generate_entries courses w = Ok rs w'.
Proof.
  intros Hd. revert w. induction Hd as [|c courses Hc _ IH]; intros w; simpl.
  - unfold ret. eauto.
  - destruct (returns_inv _ _ _ (generate_entry_total c w Hc)) as (r & w1 & He & _).
    destruct (IH w1) as (rs & w2 & Hrs).
    unfold bind. rewrite He, Hrs. unfold ret. eauto.
Qed.

Lemma rooms_kept_refl w : rooms_kept_or_listed w w.
Proof. intros r. left. reflexivity. Qed.

Lemma rooms_kept_trans w1 w2 w3 :
  rooms_kept_or_listed w1 w2 -> rooms_kept_or_listed w2 w3 ->
  rooms_kept_or_listed w1 w3.
Proof.
  intros H12 H23 r. destruct (H23 r) as [E|I]; [|right; exact I].
  rewrite E. apply H12.
Qed.

Lemma rooms_kept_same_heap w w' :
  heap w' = heap w -> rooms_kept_or_listed w w'.
Proof. intros E r. left. unfold deref. rewrite E. reflexivity. Qed.

Lemma deref_update r f w r' :
  deref (with_heap w (list_set (heap w) r (f (deref w r)))) r'
  = if (r' =? r)%nat && (r <? length (heap w))%nat then f (deref w r) else deref w r'.
Proof. unfold deref at 1. simpl. apply nth_list_set. Qed.

Lemma update_keeps_rooms r f w :
  (forall j, ruang (f j) = ruang j \/ In (ruang (f j)) rooms) ->
  returns (update r f) w (fun _ w' => rooms_kept_or_listed w w').
Proof.
  intros Hf. unfold returns, update. intros r'.
  rewrite deref_update.
  destruct ((r' =? r)%nat && (r <? length (heap w))%nat) eqn:E.
  - apply andb_prop in E as [E _]. apply Nat.eqb_eq in E. subst r'. apply Hf.
  - left. reflexivity.
Qed.

Lemma random_random_total w :
  returns random_random w (fun _ w' => heap w' = heap w).
Proof. reflexivity. Qed.

Lemma choice_total_heap {A} (l : list A) w :
  l <> [] -> returns (choice l) w (fun x w' => In x l /\ heap w' = heap w).
Proof.
  intros Hl. destruct (choice_returns l w Hl) as (x & w' & H).
  unfold returns. rewrite H. apply choice_inv in H. tauto.
Qed.

Ltac step_as lem a w H :=
  apply returns_bind; eapply returns_weaken; [apply lem|cbv beta; intros a w H].

Ltac kept_by_heap H0 :=
  eapply rooms_kept_trans; [exact H0|apply rooms_kept_same_heap; assumption].

Ltac kept_after_update H0 :=
  let w := fresh "w" in let H := fresh "H" in
  cbv beta; intros _ w H; eapply rooms_kept_trans; [exact H0|exact H].

Lemma mutate_branches_rooms r q w0 w :
  rooms_kept_or_listed w0 w ->
  returns
    (if Qltb q (33 # 100) then mutate_waktu r
     else r3 <- random_random;;
          (if Qltb r3 (33 # 100) then mutate_hari r else mutate_ruang r))
    w (fun _ w' => rooms_kept_or_listed w0 w').
Proof.
  unfold mutate_waktu, mutate_hari, mutate_ruang.
  intros H0. destruct (Qltb q (33 # 100)).
  - step_as (@choice_total_heap (Z * Z)) waktu w1 Hc; [discriminate|].
    destruct Hc as [_ Hh].
    assert (H1 : rooms_kept_or_listed w0 w1) by kept_by_heap H0.
    step_as update_keeps_rooms u w2 Hu; [intros j; left; reflexivity|].
    assert (H2 : rooms_kept_or_listed w0 w2)
      by (eapply rooms_kept_trans; [exact H1|exact Hu]).
    eapply returns_weaken;
      [apply update_keeps_rooms; intros j; left; reflexivity|].
    kept_after_update H2.
  - step_as random_random_total r3 w1 Hh.
    assert (H1 : rooms_kept_or_listed w0 w1) by kept_by_heap H0.
    destruct (Qltb r3 (33 # 100)).
    + step_as (@choice_total_heap string) hari_ w2 Hc; [discriminate|].
      destruct Hc as [_ Hh2].
      assert (H2 : rooms_kept_or_listed w0 w2) by kept_by_heap H1.
      eapply returns_weaken;
        [apply update_keeps_rooms; intros j; left; reflexivity|].
      kept_after_update H2.
    + step_as (@choice_total_heap string) ruang_ w2 Hc; [discriminate|].
      destruct Hc as [Hin Hh2].
      assert (H2 : rooms_kept_or_listed w0 w2) by kept_by_heap H1.
      eapply returns_weaken;
        [apply update_keeps_rooms; intros j; right; exact Hin|].
      kept_after_update H2.
Qed.

Lemma mutate_entry_rooms self r w0 w :
  rooms_kept_or_listed w0 w ->
  returns (mutate_entry self r) w (fun _ w' => rooms_kept_or_listed w0 w').
Proof.
  intros H0. unfold mutate_entry.
  step_as random_random_total r1 w1 Hh.
  assert (H1 : rooms_kept_or_listed w0 w1) by kept_by_heap H0.
  destruct (Qltb r1 (mutation_rate self)); [|exact H1].
  step_as random_random_total r2 w2 Hh2.
  assert (H2 : rooms_kept_or_listed w0 w2) by kept_by_heap H1.
  apply returns_bind.
  eapply returns_weaken; [apply mutate_branches_rooms; exact H2|].
  cbv beta. intros _ w3 H3. unfold returns, incr_mutation.
  eapply rooms_kept_trans; [exact H3|apply rooms_kept_same_heap; reflexivity].
Qed.

Lemma mutate_loop_rooms self rs w0 w :
  rooms_kept_or_listed w0 w ->
  returns (mutate_loop self rs) w (fun _ w' => rooms_kept_or_listed w0 w').
Proof.
  revert w. induction rs as [|r rs IH]; intros w H0; simpl.
  - exact H0.
  - apply returns_bind. eapply returns_weaken; [apply mutate_entry_rooms; exact H0|].
    cbv beta. intros _ w1 H1. apply IH. exact H1.
Qed.

Lemma mutate_rooms self individu w :
  returns (mutate self individu) w (fun _ w' => rooms_kept_or_listed w w').
Proof.
  unfold mutate. apply returns_bind. unfold returns at 1, new_list.
  apply returns_bind.
  eapply returns_weaken.
  - apply mutate_loop_rooms with (w0 := w).
    apply rooms_kept_same_heap. reflexivity.
  - cbv beta. intros _ w1 H1. exact H1.
Qed.

Lemma mutate_ruang_listed r w :
  (r < length (heap w))%nat ->
  returns (mutate_ruang r) w (fun _ w' => In (ruang (deref w' r)) rooms).
Proof.
  intros Hr. unfold mutate_ruang.
  step_as (@choice_total_heap string) ruang_ w1 Hc; [discriminate|].
  destruct Hc as [Hin Hh]. unfold returns, update.
  rewrite deref_update, Nat.eqb_refl, Hh.
  apply Nat.ltb_lt in Hr. rewrite Hr. exact Hin.
Qed.

(** C10: every entry of a generated solution has its room in the fixed
    list of the engine, generation returns whenever every course has an
    instructor, a catalog that differs only in [ruang_kuliah] gives the
    same solution, mutation leaves each room as it was or draws it from
    the same list, and the room mutation of an entry leaves it with a room
    of that list. *)
Theorem rooms_are_hard_coded :
  forall (self : AlgoritmaGenetika) (w : World),
    (forall sol w', generate_random_jadwal self w = Ok sol w' ->
       Forall (fun r => In (ruang (deref w' r)) rooms) (refs sol))
    /\ (Forall (fun c => c_dosen c <> []) (all_courses (data self)) ->
        exists sol w', generate_random_jadwal self w = Ok sol w')
    /\ (forall rk : list string,
          generate_random_jadwal (with_ruang_kuliah rk self) w
          = generate_random_jadwal self w)
    /\ (forall individu : Solution,
          returns (mutate self individu) w
                  (fun _ w' => rooms_kept_or_listed w w'))
    /\ (forall r : nat,
          (r < length (heap w))%nat ->
          returns (mutate_ruang r) w
                  (fun _ w' => In (ruang (deref w' r)) rooms)).
Proof.
  intros self w. split; [|split; [|split; [|split]]].
  - intros sol w' H. unfold generate_random_jadwal in H. inv_bind H.
    inversion H; subst; clear H. simpl.
    unfold fresh_sid in Hc. inversion Hc; subst; clear Hc.
    apply generate_entries_inv in Hc0 as (js & Hh & -> & _ & Hjs). simpl in Hh.
    apply Forall_forall. intros r Hr. apply in_seq in Hr. simpl in Hr.
    unfold deref. rewrite Hh. rewrite app_nth2 by lia.
    rewrite Forall_forall in Hjs. apply Hjs. apply nth_In. lia.
  - intros Hd. unfold generate_random_jadwal, bind at 1, fresh_sid.
    destruct (generate_entries_returns _
                (mkWorld (heap w) (S (next_sid w)) (tape w) (pos w)
                         (crossover_count w) (mutation_count w)) Hd)
      as (rs & w' & H).
    unfold bind. rewrite H. unfold ret. eauto.
  - intros rk. reflexivity.
  - intros individu. apply mutate_rooms.
  - intros r Hr. apply mutate_ruang_listed, Hr.
Qed.

Lemma rooms_are_hard_coded_witness :
  exists sol w', generate_random_jadwal sample_ga sample_world = Ok sol w'.
Proof.
  apply (proj1 (proj2 (rooms_are_hard_coded sample_ga sample_world))).
  repeat constructor; discriminate.
Defined.

(** ** Crossover *)

Lemma random_random_below_one w :
  returns random_random w
    (fun q w' => (q < 1)%Q /\ heap w' = heap w /\ next_sid w' = next_sid w).
Proof.
  unfold returns, random_random, bind, draw, ret. simpl.
  split; [|split; reflexivity].
  unfold Qlt. simpl.
  pose proof (Z.mod_pos_bound (tape w (pos w)) (2 ^ 53) ltac:(lia)) as Hb.
  change (Z.pow_pos 2 53) with (2 ^ 53) in *. lia.
Qed.

Lemma Qltb_false_of_le (x y : Q) : (y <= x)%Q -> Qltb x y = false.
Proof.
  intros H. unfold Qltb. apply Qle_bool_iff in H. rewrite H. reflexivity.
Qed.

Lemma nth_splice {A} (l1 l2 : list A) p k d :
  (p <= length l1)%nat ->
  nth k (firstn p l1 ++ skipn p l2) d
  = if (k <? p)%nat then nth k l1 d else nth k l2 d.
Proof.
  intros Hp.
  assert (Hl : length (firstn p l1) = p) by (rewrite length_firstn; lia).
  destruct (k <? p)%nat eqn:E.
  - apply Nat.ltb_lt in E. rewrite app_nth1 by lia. rewrite nth_firstn.
    apply Nat.ltb_lt in E. rewrite E. reflexivity.
  - apply Nat.ltb_ge in E. rewrite app_nth2 by lia. rewrite Hl.
    rewrite nth_skipn. f_equal. lia.
Qed.

Lemma length_splice {A} (l1 l2 : list A) p :
  (p <= length l1)%nat -> length l2 = length l1 ->
  length (firstn p l1 ++ skipn p l2) = length l1.
Proof.
  intros Hp Hl. rewrite length_app, length_firstn, length_skipn. lia.
Qed.

(** C9, as stated, fails: two parents of length 2 that differ in the
    first entry only are cut at 1, and both children equal their parents. *)
Lemma crossover_can_change_nothing : ~ crossover_always_changes.
Proof.
  intros H.
  specialize (H sample_ga sample_world parent_a parent_b).
  assert (Hr : (crossover_rate sample_ga == 1)%Q) by reflexivity.
  assert (Hl : length (refs parent_a) = length (refs parent_b)) by reflexivity.
  assert (Hd : entries sample_world parent_a <> entries sample_world parent_b)
    by (vm_compute; discriminate).
  specialize (H Hr Hl Hd).
  vm_compute in H.
  destruct H as (_ & _ & [H|H]); apply H; reflexivity.
Qed.

(** C9, amended: for parents of one length N >= 2, crossover with
    [crossover_rate = 1.0] returns two children of length N; before the
    cut (1 <= cut <= N-1) a child has the entries of its own parent and
    from the cut on those of the other parent, so a child differs from its
    parent exactly where the parents differ at or after the cut. *)
Theorem crossover_splices_at_the_cut :
  forall (self : AlgoritmaGenetika) (w : World) (parent1 parent2 : Solution),
    (crossover_rate self == 1)%Q ->
    (2 <= length (refs parent1))%nat ->
    length (refs parent2) = length (refs parent1) ->
    exists (point : nat) (child1 child2 : Solution) (w' : World),
      crossover self parent1 parent2 w = Ok (child1, child2) w'
      /\ heap w' = heap w
      /\ (1 <= point < length (refs parent1))%nat
      /\ length (refs child1) = length (refs parent1)
      /\ length (refs child2) = length (refs parent1)
      /\ forall k d,
           nth k (refs child1) d
           = (if (k <? point)%nat then nth k (refs parent1) d
              else nth k (refs parent2) d)
           /\ nth k (refs child2) d
              = (if (k <? point)%nat then nth k (refs parent2) d
                 else nth k (refs parent1) d).
Proof.
  intros self w parent1 parent2 Hrate HN Hlen.
  unfold crossover.
  destruct (returns_inv _ _ _ (random_random_below_one w)) as (q & w1 & Hq & Hlt & Hh1 & _).
  unfold bind at 1. rewrite Hq.
  rewrite Qltb_false_of_le by (rewrite Hrate; apply Qlt_le_weak; exact Hlt).
  destruct (returns_inv _ _ _
              (randint_total 1 (Z.of_nat (length (refs parent1)) - 1) w1 ltac:(lia)))
    as (point & w2 & Hp & Hb).
  pose proof (randint_inv _ _ _ _ _ Hp) as (_ & Hh2 & _).
  unfold bind at 1. rewrite Hp.
  unfold bind, new_list, incr_crossover, ret. simpl.
  exists (Z.to_nat point). do 3 eexists.
  split; [reflexivity|]. simpl.
  split; [congruence|].
  split; [lia|].
  split; [apply length_splice; lia|].
  split; [rewrite <- Hlen; apply length_splice; lia|].
  intros k d. split; apply nth_splice; lia.
Qed.

Lemma crossover_splices_at_the_cut_witness :
  exists (point : nat) (child1 child2 : Solution) (w' : World),
    crossover sample_ga parent_a parent_b sample_world = Ok (child1, child2) w'
    /\ heap w' = heap sample_world
    /\ (1 <= point < 2)%nat
    /\ length (refs child1) = 2%nat
    /\ length (refs child2) = 2%nat
    /\ forall k d,
         nth k (refs child1) d
         = (if (k <? point)%nat then nth k (refs parent_a) d
            else nth k (refs parent_b) d)
         /\ nth k (refs child2) d
            = (if (k <? point)%nat then nth k (refs parent_b) d
               else nth k (refs parent_a) d).
Proof.
  apply (crossover_splices_at_the_cut sample_ga sample_world parent_a parent_b).
  - reflexivity.
  - simpl. lia.
  - reflexivity.
Defined.

(** ** Elitism *)

Section Sorting.
Context {A : Type} (key : A -> Q).

Lemma insert_by_perm x l : Permutation (insert_by key x l) (x :: l).
Proof.
  induction l as [|y t IH]; simpl; [reflexivity|].
  destruct (Qle_bool (key x) (key y)); [reflexivity|].
  rewrite IH. apply perm_swap.
Qed.

Lemma sorted_perm l : Permutation (sorted key l) l.
Proof.
  induction l as [|x t IH]; simpl; [reflexivity|].
  rewrite insert_by_perm. constructor. exact IH.
Qed.

Lemma insert_by_sorted x l :
  StronglySorted (key_le key) l -> StronglySorted (key_le key) (insert_by key x l).
Proof.
  induction 1 as [|y t Ht IH Hy]; simpl.
  - repeat constructor.
  - destruct (Qle_bool (key x) (key y)) eqn:E.
    + apply Qle_bool_iff in E.
      constructor; [constructor; assumption|].
      constructor; [exact E|].
      rewrite Forall_forall in Hy |- *. intros z Hz.
      unfold key_le in *. eapply Qle_trans; [exact E|apply Hy, Hz].
    + constructor; [exact IH|].
      assert (Hyx : key_le key y x).
      { unfold key_le. destruct (Qlt_le_dec (key y) (key x)) as [L|L].
        - apply Qlt_le_weak, L.
        - apply Qle_bool_iff in L. congruence. }
      rewrite Forall_forall in Hy |- *. intros z Hz.
      apply (Permutation_in _ (insert_by_perm x t)) in Hz.
      destruct Hz as [<-|Hz]; [exact Hyx|apply Hy, Hz].
Qed.

Lemma sorted_sorted l : StronglySorted (key_le key) (sorted key l).
Proof.
  induction l as [|x t IH]; simpl; [constructor|].
  apply insert_by_sorted, IH.
Qed.

Lemma sorted_split_le (l1 l2 : list A) :
  StronglySorted (key_le key) (l1 ++ l2) ->
  forall a b, In a l1 -> In b l2 -> key_le key a b.
Proof.
  induction l1 as [|x l1 IH]; simpl; intros Hs a b Ha Hb; [contradiction|].
  inversion Hs as [|? ? Hs' Hx]; subst.
  destruct Ha as [<-|Ha].
  - rewrite Forall_forall in Hx. apply Hx, in_or_app. right. exact Hb.
  - apply IH; assumption.
Qed.
End Sorting.

Lemma breed_prefix self fuel pop :
  forall np w r w',
    breed self fuel pop np w = Ok r w' -> exists rest, r = np ++ rest.
Proof.
  induction fuel as [|fuel IH]; intros np w r w' H; simpl in H.
  - inversion H; subst. exists []. rewrite app_nil_r. reflexivity.
  - destruct (Z.of_nat (length np) <? ukuran_populasi self).
    + inv_bind H.
      destruct (ukuran_populasi self <=? Z.of_nat (length (np ++ [a2]))).
      * apply IH in H as (rest & ->). exists (a2 :: rest).
        rewrite <- app_assoc. reflexivity.
      * inv_bind H. apply IH in H as (rest & ->). exists (a2 :: a3 :: rest).
        rewrite <- !app_assoc. reflexivity.
    + inversion H; subst. exists []. rewrite app_nil_r. reflexivity.
Qed.

(** The fuel given to [breed] in [generation] is enough: the loop ends
    because the new population is full. *)
Lemma breed_fills self fuel pop :
  forall np w r w',
    (Z.to_nat (ukuran_populasi self) - length np <= fuel)%nat ->
    breed self fuel pop np w = Ok r w' ->
    ukuran_populasi self <= Z.of_nat (length r).
Proof.
  induction fuel as [|fuel IH]; intros np w r w' Hfuel H; simpl in H.
  - inversion H; subst. lia.
  - destruct (Z.of_nat (length np) <? ukuran_populasi self) eqn:E.
    + inv_bind H.
      destruct (ukuran_populasi self <=? Z.of_nat (length (np ++ [a2]))).
      * apply IH in H; [exact H|]. rewrite length_app. simpl. lia.
      * inv_bind H. apply IH in H; [exact H|].
        rewrite !length_app. simpl. lia.
    + inversion H; subst. apply Z.ltb_ge in E. exact E.
Qed.

(** ** The float product behind the elite count *)

Lemma shr_1_even p :
  shr_1 (Build_shr_record (Zpos p~0) false false)
  = Build_shr_record (Zpos p) false false.
Proof. reflexivity. Qed.

(** Multiplying a finite double by [1.0] is exact. *)
Lemma SFmul_one x :
  finite_double x = true ->
  SFmul 53 1024 (S754_finite false 4503599627370496 (-52)) x = x.
Proof.
  unfold finite_double. destruct x as [s|s| |s m e]; simpl valid_binary;
    try discriminate; intros H.
  - reflexivity.
  - apply andb_prop in H as [H _]. unfold bounded, canonical_mantissa in H.
    apply andb_prop in H as [Hc He]. apply Z.eqb_eq in Hc. apply Z.leb_le in He.
    unfold fexp, emin in Hc.
    unfold SFmul, binary_round_aux, shr_fexp.
    cbn [Pos.mul Zdigits2 digits2_pos xorb shr_record_of_loc].
    unfold fexp, emin.
    replace (Z.max _ _ - (-52 + e)) with 52 by lia.
    cbn [shr iter_pos]. rewrite !shr_1_even.
    cbn [shr_m loc_of_shr_record round_nearest_even Zdigits2 shr_record_of_loc].
    replace (Z.max _ _ - (-52 + e + 52)) with 0 by lia.
    cbn [shr shr_m].
    replace (-52 + e + 52) with e by lia.
    destruct (e <=? 1024 - 53) eqn:E; [reflexivity|]. apply Z.leb_gt in E. lia.
Qed.

Lemma py_int_finite x :
  finite_double x = true -> exists k, py_int x = inr k.
Proof.
  unfold finite_double. destruct x as [s|s| |s m e]; simpl;
    rewrite ?andb_false_r; try discriminate; intros _; eexists; reflexivity.
Qed.

Lemma lift_inv {A} (r : Exn + A) w a w' :
  lift r w = Ok a w' -> r = inr a /\ w' = w.
Proof.
  destruct r as [e|x]; unfold lift, raise, ret; intros H;
    inversion H; subst; split; reflexivity.
Qed.

Lemma num_elites_inv self num :
  num_elites self = inr num ->
  2 <= num
  /\ exists size k,
       float_of_int (ukuran_populasi self) = inr size
       /\ py_int (SFmul 53 1024 size (float_val (elitism_rate self))) = inr k
       /\ num = Z.max 2 k.
Proof.
  unfold num_elites.
  destruct (float_of_int (ukuran_populasi self)) as [e|size]; [discriminate|].
  destruct (py_int _) as [e|k] eqn:Ek; [discriminate|].
  intros H. inversion H; subst; clear H.
  split; [lia|]. exists size, k. repeat split. exact Ek.
Qed.

(** With one individual the product is the rate itself, so line 251
    cannot raise. *)
Lemma num_elites_single self :
  ukuran_populasi self = 1 ->
  exists num, num_elites self = inr num /\ 2 <= num.
Proof.
  intros HP. unfold num_elites. rewrite HP.
  change (float_of_int 1)
    with (@inr Exn _ (S754_finite false 4503599627370496 (-52))).
  cbv beta iota. rewrite SFmul_one by apply float_finite.
  destruct (py_int_finite _ (float_finite (elitism_rate self))) as (k & Hk).
  rewrite Hk. exists (Z.max 2 k). split; [reflexivity|lia].
Qed.

(** Line 251 truncates the float product: [100 * 0.29] is
    28.999999999999996 and [int] gives 28, where rounding the product of
    the decimals gives 29. *)
Example num_elites_truncates :
  num_elites (mkGA sample_catalog 100 3 (8 # 10) (1 # 10) float_0_29) = inr 28
  /\ py_round ((29 # 100) * 100) = 29.
Proof. split; reflexivity. Qed.

(** ** Elite selection *)

Lemma select_elites_length num w pop :
  0 <= num ->
  length (select_elites num w pop) = Nat.min (length pop) (Z.to_nat num).
Proof.
  intros Hn. unfold select_elites, py_prefix.
  destruct (num <? 0) eqn:E; [apply Z.ltb_lt in E; lia|].
  rewrite length_firstn.
  rewrite (Permutation_length (sorted_perm (fitness_in w) pop)). lia.
Qed.

Lemma select_elites_split num w pop :
  0 <= num ->
  exists rest,
    Permutation pop (select_elites num w pop ++ rest)
    /\ forall e x, In e (select_elites num w pop) -> In x rest ->
                   (fitness_in w e <= fitness_in w x)%Q.
Proof.
  intros Hn. unfold select_elites, py_prefix.
  destruct (num <? 0) eqn:E; [apply Z.ltb_lt in E; lia|].
  exists (skipn (Z.to_nat num) (sorted (fitness_in w) pop)). split.
  - rewrite firstn_skipn. symmetry. apply sorted_perm.
  - intros e x He Hx.
    refine (sorted_split_le (fitness_in w) _ _ _ e x He Hx).
    rewrite firstn_skipn. apply sorted_sorted.
Qed.

Lemma py_prefix_app {A} (n : Z) (l1 l2 : list A) :
  Z.of_nat (length l1) <= n ->
  exists tail, py_prefix n (l1 ++ l2) = l1 ++ tail.
Proof.
  intros H. unfold py_prefix.
  destruct (n <? 0) eqn:E; [apply Z.ltb_lt in E; lia|].
  exists (firstn (Z.to_nat n - length l1) l2).
  rewrite firstn_app. rewrite firstn_all2 by lia. reflexivity.
Qed.

(** ** A generation with a single individual *)

Lemma select_elites_single num w s :
  2 <= num -> select_elites num w [s] = [s].
Proof.
  intros Hn. unfold select_elites, py_prefix.
  destruct (num <? 0) eqn:E; [apply Z.ltb_lt in E; lia|].
  simpl sorted.
  destruct (Z.to_nat num) as [|n] eqn:En; [lia|].
  simpl. destruct n; reflexivity.
Qed.

Lemma breed_full self fuel pop np w :
  ukuran_populasi self <= Z.of_nat (length np) ->
  breed self fuel pop np w = Ok np w.
Proof.
  intros H. destruct fuel; simpl; [reflexivity|].
  destruct (Z.of_nat (length np) <? ukuran_populasi self) eqn:E;
    [apply Z.ltb_lt in E; lia|reflexivity].
Qed.

Lemma Qltb_irrefl q : Qltb q q = false.
Proof. apply Qltb_false_of_le, Qle_refl. Qed.

Lemma generation_single self gen st s w :
  ukuran_populasi self = 1 ->
  populasi st = [s] ->
  exists st',
    generation self gen st w = Ok st' w
    /\ populasi st' = [s]
    /\ generations st' = generations st ++ [gen]
    /\ best_fitness st'
       = (if lt_inf (fitness_in w s) (best_fitness st)
          then Some (fitness_in w s) else best_fitness st)
    /\ best_solution st'
       = (if lt_inf (fitness_in w s) (best_fitness st)
          then Some s else best_solution st).
Proof.
  intros HP Hpop. unfold generation, bind, get_world.
  rewrite Hpop, HP. cbn [map py_min ret min_from].
  unfold calculate_diversity. cbn [length Nat.ltb Nat.leb ret].
  destruct (num_elites_single self HP) as (num & Hnum & Hge).
  rewrite Hnum. cbn [lift ret]. rewrite (select_elites_single num w s Hge).
  rewrite breed_full by (rewrite HP; simpl; lia).
  unfold py_prefix.
  cbn [Z.ltb Z.compare firstn Z.to_nat Pos.to_nat Pos.iter_op Nat.add
       py_min ret min_from].
  eexists. split; [reflexivity|]. cbn [populasi generations best_fitness best_solution].
  repeat split.
Qed.

(** ** The elite of a generation *)

(** C7, as stated, fails: a run with [ukuran_populasi = 1] holds one
    individual, so the sorted population has one member and the next
    population begins with one elite, where [max(2, ...)] is at least 2. *)
Lemma one_individual_has_one_elite : ~ elite_count_is_rounded.
Proof.
  intros H.
  destruct (generate_random_jadwal sample_ga sample_world) as [s w1|e] eqn:Es;
    [|revert Es; apply not_Raise; vm_compute; exact I].
  destruct (generation_single sample_ga 0 (mkGAState [s] None None [] [] [] [])
              s w1 eq_refl eq_refl) as (st' & Hg & Hpop & _).
  destruct (H sample_ga 0 (mkGAState [s] None None [] [] [] []) w1 st' w1
              eq_refl Hg)
    as (elites & rest & tail & Hp & Hlen & _).
  rewrite Hpop in Hp. apply (f_equal (@length Solution)) in Hp.
  rewrite length_app in Hp. simpl in Hp. lia.
Qed.

(** C7, amended: a generation that completes from a population of
    [ukuran_populasi] individuals has an elite of
    [min(len(populasi), max(2, int(ukuran_populasi * elitism_rate)))]
    members, the product being the float product and [int] truncating
    toward zero; they are individuals of lowest fitness, every other
    individual scoring at least as much; and the next population begins
    with these same solutions. *)
Theorem elites_are_the_lowest_fitness :
  forall (self : AlgoritmaGenetika) (gen : Z) (st : GAState) (w : World)
         (st' : GAState) (w' : World),
    Z.of_nat (length (populasi st)) = ukuran_populasi self ->
    generation self gen st w = Ok st' w' ->
    exists (size : spec_float) (k : Z) (elites rest tail : list Solution),
      float_of_int (ukuran_populasi self) = inr size
      /\ py_int (SFmul 53 1024 size (float_val (elitism_rate self))) = inr k
      /\ length elites
         = Nat.min (length (populasi st)) (Z.to_nat (Z.max 2 k))
      /\ Permutation (populasi st) (elites ++ rest)
      /\ (forall e x, In e elites -> In x rest ->
                      (fitness_in w e <= fitness_in w x)%Q)
      /\ populasi st' = elites ++ tail.
Proof.
  intros self gen st w st' w' Hlen H.
  unfold generation in H. inv_bind H.
  unfold get_world in Hc. inversion Hc; subst a w0; clear Hc.
  apply lift_inv in Hc2 as (Hnum & ->).
  apply num_elites_inv in Hnum as (Hge & size & k & Hsize & Hk & ->).
  unfold get_world in Hc4. inversion Hc4; subst a4 w5; clear Hc4.
  inversion H; subst; clear H. cbn [populasi].
  apply breed_prefix in Hc3 as (children & ->).
  pose proof (select_elites_length (Z.max 2 k) w (populasi st)) as Hl.
  destruct (select_elites_split (Z.max 2 k) w (populasi st))
    as (rest & Hperm & Hlow); [lia|].
  destruct (py_prefix_app (ukuran_populasi self)
              (select_elites (Z.max 2 k) w (populasi st)) children)
    as (tail & Htail); [lia|].
  exists size, k, (select_elites (Z.max 2 k) w (populasi st)), rest, tail.
  split; [exact Hsize|]. split; [exact Hk|]. split; [apply Hl; lia|].
  split; [exact Hperm|]. split; [exact Hlow|exact Htail].
Qed.

Lemma elites_are_the_lowest_fitness_witness :
  returns (pop <- initial_population sample_ga 1 ;;
           w <- get_world ;;
           st' <- generation sample_ga 0 (mkGAState pop None None [] [] [] []) ;;
           ret (pop, w, st'))
          sample_world
          (fun r _ =>
             exists (size : spec_float) (k : Z) (elites rest tail : list Solution),
               float_of_int 1 = inr size
               /\ py_int (SFmul 53 1024 size (float_val float_0_1)) = inr k
               /\ length elites
                  = Nat.min (length (fst (fst r))) (Z.to_nat (Z.max 2 k))
               /\ Permutation (fst (fst r)) (elites ++ rest)
               /\ (forall e x, In e elites -> In x rest ->
                               (fitness_in (snd (fst r)) e
                                <= fitness_in (snd (fst r)) x)%Q)
               /\ populasi (snd r) = elites ++ tail).
Proof.
  apply returns_intro; [vm_compute; exact I|].
  intros r w' E. inv_bind E.
  unfold get_world in Hc0. inversion Hc0; subst a0 w0; clear Hc0.
  inversion E; subst r w'; clear E. cbn [fst snd].
  refine (elites_are_the_lowest_fitness sample_ga 0
            (mkGAState a None None [] [] [] []) w a1 w1 _ Hc1).
  refine (Ok_eval _ _ _ (fun pop _ => Z.of_nat (length pop) = 1) Hc _).
  vm_compute. reflexivity.
Defined.

(** ** The early exit of the two loops *)

Lemma calculate_fitness_positive individu : (0 < calculate_fitness individu)%Q.
Proof.
  destruct (fitness_shape individu) as (p & _ & ->).
  unfold Qlt; simpl; lia.
Qed.

Lemma stop_condition_positive best :
  positive_or_inf best -> stop_condition best = false.
Proof.
  destruct best as [q|]; simpl; [|reflexivity].
  intros Hq. destruct (Qle_bool q 0) eqn:E; [|reflexivity].
  apply Qle_bool_iff in E. exfalso. apply (Qlt_irrefl 0).
  eapply Qlt_le_trans; eassumption.
Qed.

Lemma generation_log self gen st w st' w' :
  generation self gen st w = Ok st' w' ->
  positive_or_inf (best_fitness st) ->
  positive_or_inf (best_fitness st')
  /\ generations st' = generations st ++ [gen].
Proof.
  unfold generation. intros H Hpos. inv_bind H.
  inversion H; subst; clear H. simpl. split; [|reflexivity].
  destruct (lt_inf _ _); [|exact Hpos].
  apply calculate_fitness_positive.
Qed.

Lemma generation_loop_runs_all self gens :
  forall st w st' w',
    positive_or_inf (best_fitness st) ->
    generation_loop self gens st w = Ok st' w' ->
    generations st' = generations st ++ gens.
Proof.
  induction gens as [|gen rest IH]; intros st w st' w' Hpos H; simpl in H.
  - inversion H; subst. rewrite app_nil_r. reflexivity.
  - inv_bind H.
    apply generation_log in Hc as [Hpos' Hg]; [|exact Hpos].
    rewrite (stop_condition_positive _ Hpos') in H.
    apply IH in H; [|exact Hpos'].
    rewrite H, Hg, <- app_assoc. reflexivity.
Qed.

(** ** The tabu search *)

Module TabuSearchFacts.
Import TabuSearch.

Lemma scan_selects self w neighbors :
  forall best nb fitness,
    scan self w neighbors best = Some (nb, fitness) ->
    best = Some (nb, fitness)
    \/ (In nb neighbors
        /\ fitness = objective self (entries w nb)
        /\ (move_in w (current_solution self, nb) (tabu_list self) = false
            \/ aspiration_criteria self fitness = true)).
Proof.
  induction neighbors as [|n rest IH]; intros best nb fitness H; simpl in H.
  - left. exact H.
  - destruct (aspiration_criteria self (objective self (entries w n))) eqn:Ea.
    + inversion H; subst. right. split; [left; reflexivity|].
      split; [reflexivity|]. right. exact Ea.
    + apply IH in H. destruct H as [H|(Hin & Hf & Hm)].
      * destruct (move_in w (current_solution self, n) (tabu_list self)) eqn:Em;
          simpl in H; [left; exact H|].
        destruct (lt_inf (objective self (entries w n)) (option_map snd best));
          [|left; exact H].
        inversion H; subst. right. split; [left; reflexivity|].
        split; [reflexivity|]. left. exact Em.
      * right. split; [right; exact Hin|]. split; assumption.
Qed.

Lemma scan_nothing self w neighbors :
  scan self w neighbors None = None ->
  Forall (fun nb =>
            move_in w (current_solution self, nb) (tabu_list self) = true
            /\ aspiration_criteria self (objective self (entries w nb)) = false)
         neighbors.
Proof.
  induction neighbors as [|n rest IH]; intros H; simpl in H; [constructor|].
  destruct (aspiration_criteria self (objective self (entries w n))) eqn:Ea;
    [discriminate|].
  destruct (move_in w (current_solution self, n) (tabu_list self)) eqn:Em;
    simpl in H.
  - constructor; [split; [exact Em|exact Ea]|]. apply IH, H.
  - exfalso. clear IH Em Ea.
    cut (forall b, scan self w rest (Some b) <> None).
    { intros C. eapply C, H. }
    clear H. induction rest as [|m rest IH]; intros b; simpl; [discriminate|].
    destruct (aspiration_criteria self (objective self (entries w m)));
      [discriminate|].
    destruct (negb (move_in w (current_solution self, m) (tabu_list self)));
      [|apply IH].
    destruct (Qltb (objective self (entries w m)) (snd b)); apply IH.
Qed.

(** C6, as stated, fails: after one iteration from [parent_a] the queue
    holds the pair (neighbour, neighbour); in the second iteration every
    move equals it, none meets the aspiration criterion, and the
    diversification branch accepts a neighbour all the same. *)
Lemma tabu_move_accepted_without_aspiration : ~ tabu_needs_aspiration.
Proof.
  intros H.
  destruct ((self <- ts_start ;; iterate self 0) sample_world)
    as [self1 w1|e] eqn:E1;
    [|revert E1; apply not_Raise; vm_compute; exact I].
  destruct (accept self1 w1) as [[[nb fitness] diversified] w2|e] eqn:E2.
  - specialize (H _ _ _ _ _ _ E2). revert H.
    refine (Ok_eval _ _ _
              (fun acc w2 =>
                 (move_in w2 (current_solution self1, fst (fst acc))
                          (tabu_list self1) = true ->
                  aspiration_criteria self1 (snd (fst acc)) = true) -> False)
              E2 _).
    refine (Ok_eval _ _ _
              (fun self1 w1 =>
                 match accept self1 w1 with
                 | Ok acc w2 =>
                     (move_in w2 (current_solution self1, fst (fst acc))
                              (tabu_list self1) = true ->
                      aspiration_criteria self1 (snd (fst acc)) = true) -> False
                 | Raise _ => True
                 end)
              E1 _).
    vm_compute. intros H. specialize (H eq_refl). discriminate.
  - revert E2. apply not_Raise.
    refine (Ok_eval _ _ _
              (fun self1 w1 =>
                 match accept self1 w1 with
                 | Ok _ _ => True
                 | Raise _ => False
                 end)
              E1 _).
    vm_compute. exact I.
Qed.

(** C6, amended: a neighbour whose move is in the tabu queue is accepted
    only if it satisfies the aspiration criterion or the diversification
    branch picked it, and that branch runs only when every neighbour's
    move is tabu and none satisfies the aspiration criterion. *)
Theorem tabu_move_needs_aspiration_or_diversification :
  forall (self : TabuSearch.t) (w : World) nb fitness diversified w',
    accept self w = Ok (nb, fitness, diversified) w' ->
    move_in w' (current_solution self, nb) (tabu_list self) = true ->
    (aspiration_criteria self fitness = true \/ diversified = true)
    /\ (diversified = true ->
        exists neighbors w1,
          get_neighbors (current_solution self) w = Ok neighbors w1
          /\ In nb neighbors
          /\ Forall (fun n =>
                       move_in w1 (current_solution self, n) (tabu_list self) = true
                       /\ aspiration_criteria self (objective self (entries w1 n))
                          = false)
                    neighbors).
Proof.
  intros self w nb fitness diversified w' H Htabu.
  unfold accept in H. inv_bind H.
  unfold get_world in Hc0. inversion Hc0; subst a0 w1; clear Hc0.
  destruct (scan self w0 a None) as [[bn f]|] eqn:Es.
  - inversion H; subst; clear H.
    apply scan_selects in Es as [Es|(_ & _ & [Hm|Ha])]; [discriminate| |].
    + rewrite Hm in Htabu. discriminate.
    + split; [left; exact Ha|discriminate].
  - inv_bind H. inversion H; subst; clear H.
    split; [right; reflexivity|]. intros _.
    exists a, w0. split; [exact Hc|].
    split; [apply choice_inv in Hc0; tauto|].
    apply scan_nothing, Es.
Qed.

Lemma tabu_move_needs_aspiration_or_diversification_witness :
  returns (self <- ts_start ;; self1 <- iterate self 0 ;;
           acc <- accept self1 ;; ret (self1, acc))
          sample_world
          (fun r _ =>
             aspiration_criteria (fst r) (snd (fst (snd r))) = true
             \/ snd (snd r) = true).
Proof.
  unfold returns.
  destruct ((self <- ts_start ;; self1 <- iterate self 0 ;;
             acc <- accept self1 ;; ret (self1, acc)) sample_world)
    as [r w'|e] eqn:E;
    [|revert E; apply not_Raise; vm_compute; exact I].
  inv_bind E. inversion E; subst r w'; clear E.
  destruct a1 as [[nb fitness] diversified]. simpl.
  refine (proj1 (tabu_move_needs_aspiration_or_diversification
                   a0 w0 nb fitness diversified w1 Hc1 _)).
  refine (Ok_eval _ _ _
            (fun acc w1 =>
               move_in w1 (current_solution a0, fst (fst acc)) (tabu_list a0)
               = true)
            Hc1 _).
  refine (Ok_eval _ _ _
            (fun a0 w0 =>
               match accept a0 w0 with
               | Ok acc w1 =>
                   move_in w1 (current_solution a0, fst (fst acc))
                           (tabu_list a0) = true
               | Raise _ => True
               end)
            Hc0 _).
  refine (Ok_eval _ _ _
            (fun a w =>
               match iterate a 0 w with
               | Ok a0 w0 =>
                   match accept a0 w0 with
                   | Ok acc w1 =>
                       move_in w1 (current_solution a0, fst (fst acc))
                               (tabu_list a0) = true
                   | Raise _ => True
                   end
               | Raise _ => True
               end)
            Hc _).
  vm_compute. reflexivity.
Defined.

(** ** Copies are shallow *)

Lemma new_list_refs rs w s w' : new_list rs w = Ok s w' -> refs s = rs.
Proof. unfold new_list. intros H. inversion H. reflexivity. Qed.

Lemma swap_neighbors_refs solution a b w ns w' :
  swap_neighbors solution a b w = Ok ns w' ->
  Forall (fun nb => refs nb = refs solution) ns.
Proof.
  unfold swap_neighbors. intros H. inv_bind H. inversion H; subst; clear H.
  apply new_list_refs in Hc, Hc1, Hc4.
  repeat constructor; assumption.
Qed.

Lemma swaps_with_refs solution a rest :
  forall w ns w',
    swaps_with solution a rest w = Ok ns w' ->
    Forall (fun nb => refs nb = refs solution) ns.
Proof.
  induction rest as [|b rest IH]; intros w ns w' H; simpl in H.
  - inversion H. constructor.
  - inv_bind H. inversion H; subst; clear H.
    apply Forall_app. split.
    + eapply swap_neighbors_refs; eassumption.
    + eapply IH; eassumption.
Qed.

Lemma swaps_refs solution rs :
  forall w ns w',
    swaps solution rs w = Ok ns w' ->
    Forall (fun nb => refs nb = refs solution) ns.
Proof.
  induction rs as [|a rest IH]; intros w ns w' H; simpl in H.
  - inversion H. constructor.
  - inv_bind H. inversion H; subst; clear H.
    apply Forall_app. split.
    + eapply swaps_with_refs; eassumption.
    + eapply IH; eassumption.
Qed.

Lemma jitters_refs solution rs :
  forall w ns w',
    jitters solution rs w = Ok ns w' ->
    Forall (fun nb => refs nb = refs solution) ns.
Proof.
  induction rs as [|a rest IH]; intros w ns w' H; simpl in H.
  - inversion H. constructor.
  - inv_bind H. inversion H; subst; clear H.
    constructor; [|eapply IH; eassumption].
    unfold jitter_neighbor in Hc. inv_bind Hc. inversion Hc; subst; clear Hc.
    eapply new_list_refs; eassumption.
Qed.

Lemma get_neighbors_refs solution w ns w' :
  get_neighbors solution w = Ok ns w' ->
  Forall (fun nb => refs nb = refs solution) ns.
Proof.
  unfold get_neighbors. intros H. inv_bind H. inversion H; subst; clear H.
  apply Forall_app. split.
  - eapply swaps_refs; eassumption.
  - eapply jitters_refs; eassumption.
Qed.

Lemma mutate_refs self individu w m w' :
  mutate self individu w = Ok m w' -> refs m = refs individu.
Proof.
  unfold mutate. intros H. inv_bind H. inversion H; subst; clear H.
  eapply new_list_refs; eassumption.
Qed.

(** C4 fails on the code: [solution.copy()] and [individu.copy()] copy the
    list and not the entries. Every neighbour and every mutant holds the
    very objects of its input, and on [parent_a] both [get_neighbors] and
    [mutate] leave the input's entries with other values than before. *)
Theorem copies_share_the_entries :
  (forall solution w ns w',
     get_neighbors solution w = Ok ns w' ->
     Forall (fun nb => refs nb = refs solution) ns)
  /\ returns (get_neighbors parent_a) sample_world
       (fun ns w' =>
          length ns = 5%nat
          /\ entries w' parent_a <> entries sample_world parent_a)
  /\ (forall self individu w m w',
        mutate self individu w = Ok m w' -> refs m = refs individu)
  /\ returns (mutate sample_ga parent_a) sample_world
       (fun _ w' => entries w' parent_a <> entries sample_world parent_a).
Proof.
  split; [|split; [|split]].
  - intros solution w ns w'. apply get_neighbors_refs.
  - vm_compute. split; [reflexivity|]. intros E. discriminate E.
  - intros self individu w m w'. apply mutate_refs.
  - vm_compute. intros E. discriminate E.
Qed.

(** ** What the tabu queue receives *)

Lemma iterate_pushes_neighbor_twice self iteration w self' w' :
  iterate self iteration w = Ok self' w' ->
  tabu_list self'
  = update_tabu_list self (current_solution self', current_solution self').
Proof.
  unfold iterate. intros H. inv_bind H.
  destruct a as [[nb fitness] diversified]. inv_bind H.
  inversion H; subst; clear H. reflexivity.
Qed.

(** C5 fails on the code: [self.current_solution] is overwritten before
    the pair is built, so the queue receives (neighbour, neighbour). From
    [parent_a] the first component of the queued pair is not the list
    that was current, and its entries are not what the current solution
    held when the iteration began. *)
Theorem tabu_queue_gets_the_neighbor_twice :
  (forall self iteration w self' w',
     iterate self iteration w = Ok self' w' ->
     tabu_list self'
     = update_tabu_list self (current_solution self', current_solution self'))
  /\ returns (self <- ts_start ;; self' <- iterate self 0 ;; ret (self, self'))
       sample_world
       (fun r w' =>
          tabu_list (snd r)
          = [(current_solution (snd r), current_solution (snd r))]
          /\ sid (current_solution (snd r)) <> sid (current_solution (fst r))
          /\ entries w' (current_solution (snd r))
             <> entries sample_world (current_solution (fst r))).
Proof.
  split.
  - intros self iteration w self' w'. apply iterate_pushes_neighbor_twice.
  - vm_compute. split; [reflexivity|]. split; intros E; discriminate E.
Qed.

Lemma accept_fitness self w nb fitness diversified w' :
  accept self w = Ok (nb, fitness, diversified) w' ->
  exists individu, fitness = objective self individu.
Proof.
  unfold accept. intros H. inv_bind H.
  unfold get_world in Hc0. inversion Hc0; subst a0 w1; clear Hc0.
  destruct (scan self w0 a None) as [[bn f]|] eqn:Es.
  - inversion H; subst; clear H.
    apply scan_selects in Es as [Es|(_ & -> & _)]; [discriminate|]. eauto.
  - inv_bind H. inversion H; subst; clear H. eauto.
Qed.

Lemma iterate_log self iteration w self' w' :
  iterate self iteration w = Ok self' w' ->
  (forall individu, (0 < objective self individu)%Q) ->
  (0 < best_fitness self)%Q ->
  objective self' = objective self
  /\ max_iter self' = max_iter self
  /\ (0 < best_fitness self')%Q
  /\ iterations self' = iterations self ++ [iteration].
Proof.
  unfold iterate. intros H Hobj Hbest. inv_bind H.
  destruct a as [[nb fitness] diversified]. inv_bind H.
  inversion H; subst; clear H. simpl.
  repeat split; try reflexivity.
  destruct (Qltb fitness (best_fitness self)); [|exact Hbest].
  apply accept_fitness in Hc as (individu & ->). apply Hobj.
Qed.

Lemma search_loop_runs_all its :
  forall self w self' w',
    (forall individu, (0 < objective self individu)%Q) ->
    (0 < best_fitness self)%Q ->
    search_loop self its w = Ok self' w' ->
    iterations self' = iterations self ++ its.
Proof.
  induction its as [|iteration rest IH]; intros self w self' w' Hobj Hbest H;
    simpl in H.
  - inversion H; subst. rewrite app_nil_r. reflexivity.
  - inv_bind H.
    apply iterate_log in Hc as (Ho & _ & Hb & Hi); [|exact Hobj|exact Hbest].
    pose proof (stop_condition_positive (Some (best_fitness a)) Hb) as Hstop.
    simpl in Hstop. rewrite Hstop in H.
    apply IH in H; [|intros l; rewrite Ho; apply Hobj|exact Hb].
    rewrite H, Hi, <- app_assoc. reflexivity.
Qed.

End TabuSearchFacts.

(** C1 fails on the code: both loops test [best_fitness <= 0], and a
    fitness [1 / (1 + conflicts)] is never that low. A run of the genetic
    engine that returns has gone through every generation, and so has a
    tabu search over any positive objective; on the sample inputs the
    best fitness is 1, the value of zero conflicts, from the first round
    on and all three rounds are run. *)
Theorem zero_conflicts_never_end_the_loop :
  (forall individu, stop_condition (Some (calculate_fitness individu)) = false)
  /\ (forall self w st w',
        run self w = Ok st w' -> generations st = range (generasi self))
  /\ (forall self w self' w',
        (forall individu, (0 < TabuSearch.objective self individu)%Q) ->
        (0 < TabuSearch.best_fitness self)%Q ->
        TabuSearch.iterations self = [] ->
        TabuSearch.search self w = Ok self' w' ->
        TabuSearch.iterations self' = range (TabuSearch.max_iter self))
  /\ returns (run sample_ga) sample_world
       (fun st _ =>
          best_fitness_log st = [1%Q; 1%Q; 1%Q]
          /\ generations st = [0; 1; 2])
  /\ returns (self <- ts_start ;; TabuSearch.search self) sample_world
       (fun self' _ =>
          TabuSearch.best_fitness_log self' = [1%Q; 1%Q; 1%Q]
          /\ TabuSearch.iterations self' = [0; 1; 2]).
Proof.
  split; [|split; [|split; [|split]]].
  - intros individu. apply stop_condition_positive. simpl.
    apply calculate_fitness_positive.
  - intros self w st w' H. unfold run in H. inv_bind H.
    apply generation_loop_runs_all in H; [exact H|exact I].
  - intros self w self' w' Hobj Hbest Hnil H. unfold TabuSearch.search in H.
    apply TabuSearchFacts.search_loop_runs_all in H; [|exact Hobj|exact Hbest].
    rewrite H, Hnil. reflexivity.
  - vm_compute. split; reflexivity.
  - vm_compute. split; reflexivity.
Qed.

(** ** Exceptions raised while the genetic engine runs *)

Lemma generate_random_jadwal_inv self w s w' :
  generate_random_jadwal self w = Ok s w' ->
  exists js, heap w' = heap w ++ js
             /\ refs s = seq (length (heap w)) (length js)
             /\ length js = length (all_courses (data self))
             /\ Forall as_generated js.
Proof.
  unfold generate_random_jadwal. intros H. inv_bind H.
  inversion H; subst; clear H.
  unfold fresh_sid in Hc. inversion Hc; subst; clear Hc.
  apply generate_entries_inv in Hc0 as (js & Hh & -> & Hlen & Hjs).
  exists js. simpl in *. repeat split; assumption.
Qed.

Lemma generate_random_jadwal_total self w :
  Forall (fun c => c_dosen c <> []) (all_courses (data self)) ->
  exists s w', generate_random_jadwal self w = Ok s w'.
Proof.
  intros Hd. unfold generate_random_jadwal, bind at 1, fresh_sid.
  destruct (generate_entries_returns _
              (mkWorld (heap w) (S (next_sid w)) (tape w) (pos w)
                       (crossover_count w) (mutation_count w)) Hd)
    as (rs & w' & H).
  unfold bind. rewrite H. unfold ret. eauto.
Qed.

Lemma initial_population_inv self n :
  forall w pop w',
    initial_population self n w = Ok pop w' ->
    length pop = n /\ exists more, heap w' = heap w ++ more.
Proof.
  induction n as [|n IH]; intros w pop w' H; simpl in H.
  - inversion H; subst. split; [reflexivity|]. exists []. rewrite app_nil_r.
    reflexivity.
  - inv_bind H. inversion H; subst; clear H.
    apply generate_random_jadwal_inv in Hc as (js & Hh & _).
    apply IH in Hc0 as (Hlen & more & Hh').
    split; [simpl; congruence|].
    exists (js ++ more). rewrite Hh', Hh, app_assoc. reflexivity.
Qed.

Lemma initial_population_total self n :
  Forall (fun c => c_dosen c <> []) (all_courses (data self)) ->
  forall w, exists pop w', initial_population self n w = Ok pop w'.
Proof.
  intros Hd. induction n as [|n IH]; intros w; simpl.
  - unfold ret. eauto.
  - destruct (generate_random_jadwal_total self w Hd) as (s & w1 & Hs).
    destruct (IH w1) as (pop & w2 & Hp).
    unfold bind. rewrite Hs, Hp. unfold ret. eauto.
Qed.

(** The first entry of the first individual of an initial population
    holds a plain string for its day. *)
Lemma initial_population_first self n w pop w' :
  initial_population self (S n) w = Ok pop w' ->
  all_courses (data self) <> [] ->
  exists s rest a rs h,
    pop = s :: rest /\ length rest = n /\ refs s = a :: rs
    /\ hari (deref w' a) = HariStr h.
Proof.
  simpl. intros H Hne. inv_bind H. inversion H; subst; clear H.
  apply generate_random_jadwal_inv in Hc as (js & Hh & Hrefs & Hlen & Hjs).
  apply initial_population_inv in Hc0 as (Hn & more & Hh').
  destruct js as [|j js].
  { destruct (all_courses (data self)); [congruence|discriminate]. }
  inversion Hjs as [|? ? [_ (h & Hj)] _]; subst.
  exists a, a0, (length (heap w)), (seq (S (length (heap w))) (length js)), h.
  repeat split; try assumption.
  unfold deref. rewrite Hh', Hh, <- app_assoc.
  rewrite app_nth2 by lia. rewrite Nat.sub_diag. exact Hj.
Qed.

Lemma to_dict_of_string j h w :
  hari j = HariStr h -> to_dict j w = Raise AttributeError.
Proof. unfold to_dict. intros ->. reflexivity. Qed.

Lemma count_diff_raises a rs ind_j k h w :
  hari (deref w a) = HariStr h ->
  count_diff (a :: rs) ind_j k w = Raise AttributeError.
Proof.
  intros Hh. simpl. unfold bind at 1, read. unfold bind at 1.
  rewrite (to_dict_of_string _ h w Hh). reflexivity.
Qed.

Lemma calculate_diversity_raises s1 s2 rest a rs h w :
  refs s1 = a :: rs ->
  hari (deref w a) = HariStr h ->
  calculate_diversity (s1 :: s2 :: rest) w = Raise AttributeError.
Proof.
  intros Hr Hh. unfold calculate_diversity.
  destruct (length (s1 :: s2 :: rest) <? 2)%nat eqn:E; [simpl in E; discriminate|].
  unfold bind at 1. simpl diversity_sum.
  unfold bind at 1. unfold bind at 1. rewrite Hr.
  rewrite (count_diff_raises a rs (refs s2) 0 h w Hh). reflexivity.
Qed.

Lemma py_min_nonempty {A} (key : A -> Q) x l w :
  py_min key (x :: l) w = Ok (min_from key x l) w.
Proof. reflexivity. Qed.

Lemma run_raises_AttributeError self w :
  2 <= ukuran_populasi self ->
  1 <= generasi self ->
  all_courses (data self) <> [] ->
  Forall (fun c => c_dosen c <> []) (all_courses (data self)) ->
  run self w = Raise AttributeError.
Proof.
  intros HP HG Hne Hd. unfold run.
  destruct (Z.to_nat (ukuran_populasi self)) as [|[|n]] eqn:En; try lia.
  destruct (initial_population_total self (S (S n)) Hd w) as (pop & w1 & Hp).
  unfold bind at 1. rewrite Hp.
  apply initial_population_first in Hp as (s1 & rest & a & rs & h & -> & Hlen & Hr & Hh);
    [|exact Hne].
  destruct rest as [|s2 rest]; [discriminate|].
  unfold range. destruct (Z.to_nat (generasi self)) as [|g] eqn:Eg; [lia|].
  simpl generation_loop. unfold bind at 1. unfold generation.
  unfold bind at 1. unfold get_world at 1.
  cbn [populasi map]. unfold bind at 1. rewrite py_min_nonempty.
  unfold bind at 1.
  rewrite (calculate_diversity_raises s1 s2 rest a rs h w1 Hr Hh).
  reflexivity.
Qed.

Lemma tournament_selection_raises pop w :
  (length pop < 5)%nat -> tournament_selection pop w = Raise ValueError.
Proof.
  intros H. unfold tournament_selection, bind at 1, sample.
  apply Nat.ltb_lt in H. rewrite H. reflexivity.
Qed.

Lemma crossover_raises self parent1 parent2 w :
  (1 <= crossover_rate self)%Q ->
  (length (refs parent1) <= 1)%nat ->
  crossover self parent1 parent2 w = Raise ValueError.
Proof.
  intros Hrate Hlen. unfold crossover.
  destruct (returns_inv _ _ _ (random_random_below_one w)) as (q & w1 & Hq & Hlt & _).
  unfold bind at 1. rewrite Hq.
  rewrite Qltb_false_of_le
    by (eapply Qle_trans; [apply Qlt_le_weak; exact Hlt|exact Hrate]).
  unfold bind at 1, randint.
  destruct (Z.of_nat (length (refs parent1)) - 1 <? 1) eqn:E; [reflexivity|].
  apply Z.ltb_ge in E. lia.
Qed.

(** C8 fails on the code. A run with two or more individuals over a
    validated, non-empty catalog raises [AttributeError] in its first
    generation ([calculate_diversity] calls [to_dict], which reads
    [self.hari.value] of a plain string); tournament selection raises
    [ValueError] on fewer than five individuals; crossover that is always
    applied raises [ValueError] on parents with fewer than two entries. *)
Theorem operators_raise_at_runtime :
  (forall self w,
     2 <= ukuran_populasi self -> 1 <= generasi self ->
     all_courses (data self) <> [] ->
     Forall (fun c => c_dosen c <> []) (all_courses (data self)) ->
     run self w = Raise AttributeError)
  /\ (forall pop w,
        (length pop < 5)%nat -> tournament_selection pop w = Raise ValueError)
  /\ (forall self parent1 parent2 w,
        (1 <= crossover_rate self)%Q ->
        (length (refs parent1) <= 1)%nat ->
        crossover self parent1 parent2 w = Raise ValueError)
  /\ new_AlgoritmaGenetika sample_catalog 3 3 (8 # 10) (1 # 10) float_0_1 = inr ga_3
  /\ run ga_3 sample_world = Raise AttributeError
  /\ tournament_selection [parent_a; parent_b; parent_a] sample_world
     = Raise ValueError.
Proof.
  split; [|split; [|split; [|split; [|split]]]].
  - apply run_raises_AttributeError.
  - apply tournament_selection_raises.
  - apply crossover_raises.
  - reflexivity.
  - vm_compute. reflexivity.
  - vm_compute. reflexivity.
Qed.

(** * Further properties of the code *)

(** ** jadwal_model.py and the evaluators *)

Lemma Hari_eqb_sym a b : Hari_eqb a b = Hari_eqb b a.
Proof. destruct a, b; reflexivity. Qed.

Lemma hari_eq_sym a b : hari_eq a b = hari_eq b a.
Proof.
  destruct a, b; simpl; try reflexivity;
    [apply Hari_eqb_sym|apply String.eqb_sym].
Qed.

Lemma kelas_eq_sym a b : kelas_eq a b = kelas_eq b a.
Proof.
  destruct a as [x|s], b as [y|t]; simpl; try reflexivity;
    [destruct x, y; reflexivity|apply String.eqb_sym].
Qed.

(** X1: [overlaps] is symmetric. *)
Theorem overlaps_sym :
  forall a b : Jadwal, overlaps a b = overlaps b a.
Proof.
  intros a b. unfold overlaps.
  rewrite (hari_eq_sym (hari b)), (String.eqb_sym (ruang b)).
  destruct (negb (hari_eq (hari a) (hari b)) || negb (ruang a =? ruang b)%string);
    [reflexivity|apply andb_comm].
Qed.

Lemma pair_conflicts_sym a b : pair_conflicts a b = pair_conflicts b a.
Proof.
  unfold pair_conflicts.
  rewrite (overlaps_sym b a), (hari_eq_sym (hari b)), (String.eqb_sym (ruang b)),
    (String.eqb_sym (dosen b)), (kelas_eq_sym (kelas b)), (Z.eqb_sym (semester b)).
  reflexivity.
Qed.

Lemma conflicts_with_perm a l l' :
  Permutation l l' -> conflicts_with a l = conflicts_with a l'.
Proof. induction 1; simpl; lia. Qed.

Lemma count_conflicts_perm l l' :
  Permutation l l' -> count_conflicts l = count_conflicts l'.
Proof.
  induction 1 as [|x l l' Hp IH|x y l|l l' l'' _ IH1 _ IH2]; simpl.
  - reflexivity.
  - rewrite (conflicts_with_perm x l l' Hp), IH. reflexivity.
  - rewrite (pair_conflicts_sym y x). lia.
  - congruence.
Qed.

(** X2: the fitness does not depend on the order of the entries. *)
Theorem calculate_fitness_perm :
  forall individu individu' : list Jadwal,
    Permutation individu individu' ->
    calculate_fitness individu = calculate_fitness individu'.
Proof.
  intros l l' Hp. unfold calculate_fitness.
  rewrite (count_conflicts_perm l l' Hp). reflexivity.
Qed.

Lemma calculate_fitness_perm_witness :
  calculate_fitness [clash_1; clash_2; apart]
  = calculate_fitness [apart; clash_2; clash_1].
Proof.
  apply calculate_fitness_perm.
  apply perm_trans with (l' := [clash_2; apart; clash_1]).
  - apply Permutation_cons_append with (l := [clash_2; apart]).
  - apply perm_swap.
Defined.

Lemma pair_conflicts_le_3 a b : pair_conflicts a b <= 3.
Proof.
  unfold pair_conflicts.
  repeat match goal with |- context [if ?c then _ else _] => destruct c end; lia.
Qed.

Lemma conflicts_with_le a rest :
  conflicts_with a rest <= 3 * Z.of_nat (length rest).
Proof.
  induction rest as [|b rest IH]; simpl length; simpl conflicts_with; [lia|].
  pose proof (pair_conflicts_le_3 a b). lia.
Qed.

Lemma count_conflicts_le individu :
  count_conflicts individu
  <= 3 * (Z.of_nat (length individu) * (Z.of_nat (length individu) - 1) / 2).
Proof.
  induction individu as [|a rest IH]; [simpl; lia|].
  simpl count_conflicts. pose proof (conflicts_with_le a rest) as Ha.
  replace (Z.of_nat (length (a :: rest)) * (Z.of_nat (length (a :: rest)) - 1))
    with (Z.of_nat (length rest) * (Z.of_nat (length rest) - 1)
          + Z.of_nat (length rest) * 2)
    by (simpl length; lia).
  rewrite Z.div_add by lia. lia.
Qed.

(** X3: a solution of N entries has at most 3 N (N-1) / 2 conflicts, so
    its fitness is at least 1 / (1 + 3 N (N-1) / 2). *)
Theorem calculate_fitness_lower_bound :
  forall individu : list Jadwal,
    count_conflicts individu
    <= 3 * (Z.of_nat (length individu) * (Z.of_nat (length individu) - 1) / 2)
    /\ (1 / inject_Z (1 + 3 * (Z.of_nat (length individu)
                               * (Z.of_nat (length individu) - 1) / 2))
        <= calculate_fitness individu)%Q.
Proof.
  intros individu.
  pose proof (count_conflicts_le individu) as Hle.
  pose proof (count_conflicts_nonneg individu) as Hge.
  split; [exact Hle|].
  unfold calculate_fitness.
  set (c := count_conflicts individu) in *.
  set (m := 3 * (Z.of_nat (length individu) * (Z.of_nat (length individu) - 1) / 2)) in *.
  destruct (1 + c) as [|p|p] eqn:Ep; try lia.
  destruct (1 + m) as [|q|q] eqn:Eq; try lia.
  unfold Qle. simpl. lia.
Qed.

(** ** app.py: the objective of the tabu search *)

Lemma app_pair_test_overlaps xi xj :
  waktu_mulai xi < waktu_selesai xi ->
  waktu_mulai xj < waktu_selesai xj ->
  app_pair_test xi xj = overlaps xi xj.
Proof.
  intros Hi Hj. unfold app_pair_test, overlaps.
  destruct (hari_eq (hari xi) (hari xj)); [|reflexivity].
  destruct (String.eqb (ruang xi) (ruang xj)); [|reflexivity].
  simpl.
  destruct (waktu_mulai xi <=? waktu_mulai xj) eqn:E1;
  destruct (waktu_mulai xj <? waktu_selesai xi) eqn:E2;
  destruct (waktu_mulai xj <=? waktu_mulai xi) eqn:E3;
  destruct (waktu_mulai xi <? waktu_selesai xj) eqn:E4;
  try reflexivity; exfalso;
  repeat match goal with
  | H : (_ <=? _) = true |- _ => apply Z.leb_le in H
  | H : (_ <=? _) = false |- _ => apply Z.leb_gt in H
  | H : (_ <? _) = true |- _ => apply Z.ltb_lt in H
  | H : (_ <? _) = false |- _ => apply Z.ltb_ge in H
  end; lia.
Qed.

Lemma app_count_with_overlaps xi rest :
  waktu_mulai xi < waktu_selesai xi ->
  Forall (fun j => waktu_mulai j < waktu_selesai j) rest ->
  app_count_with xi rest
  = Z.of_nat (length (filter (fun p => overlaps (fst p) (snd p)) (map (pair xi) rest)))
  /\ app_count_with xi rest <= conflicts_with xi rest.
Proof.
  intros Hi Hrest. induction Hrest as [|xj rest Hj _ IH]; simpl.
  - split; [reflexivity|lia].
  - destruct IH as [IH1 IH2].
    rewrite (app_pair_test_overlaps xi xj Hi Hj).
    assert (Hpc : (if overlaps xi xj then 1 else 0) <= pair_conflicts xi xj).
    { destruct (overlaps xi xj) eqn:Eo; [|apply pair_conflicts_nonneg].
      pose proof (pair_conflicts_nonneg xi xj).
      destruct (Z.eq_dec (pair_conflicts xi xj) 0) as [E|E]; [|lia].
      apply pair_conflicts_zero_iff in E. congruence. }
    split; [|lia].
    destruct (overlaps xi xj); simpl length; lia.
Qed.

Lemma app_count_overlaps x :
  Forall (fun j => waktu_mulai j < waktu_selesai j) x ->
  app_count x = overlapping_pairs x /\ app_count x <= count_conflicts x.
Proof.
  unfold overlapping_pairs.
  intros Hx. induction Hx as [|xi rest Hi Hrest IH]; simpl.
  - split; [reflexivity|lia].
  - destruct IH as [IH1 IH2].
    destruct (app_count_with_overlaps xi rest Hi Hrest) as [H1 H2].
    split; [|lia].
    rewrite filter_app, length_app. lia.
Qed.

(** X4: on entries whose start is before their end, the objective that
    the application gives to the tabu search is 1 / (1 + the number of
    pairs for which [Jadwal.overlaps] holds), and it is never below the
    fitness of the genetic engine. *)
Theorem app_objective_counts_overlaps :
  forall x : list Jadwal,
    Forall (fun j => waktu_mulai j < waktu_selesai j) x ->
    app_objective x = (1 / inject_Z (1 + overlapping_pairs x))%Q
    /\ (calculate_fitness x <= app_objective x)%Q.
Proof.
  intros x Hx. destruct (app_count_overlaps x Hx) as [H1 H2].
  unfold app_objective. split; [rewrite H1; reflexivity|].
  unfold calculate_fitness.
  pose proof (count_conflicts_nonneg x) as Hc.
  assert (Ha : 0 <= app_count x).
  { rewrite H1. unfold overlapping_pairs. lia. }
  destruct (1 + count_conflicts x) as [|p|p] eqn:Ep; try lia.
  destruct (1 + app_count x) as [|q|q] eqn:Eq; try lia.
  unfold Qle. simpl. lia.
Qed.

Lemma app_objective_counts_overlaps_witness :
  app_objective [clash_1; clash_2; apart]
  = (1 / inject_Z (1 + overlapping_pairs [clash_1; clash_2; apart]))%Q
  /\ (calculate_fitness [clash_1; clash_2; apart]
      <= app_objective [clash_1; clash_2; apart])%Q.
Proof.
  apply app_objective_counts_overlaps.
  repeat constructor.
Defined.

(** ** The random solution generator *)

Lemma generate_entry_shape course w r w' :
  generate_entry course w = Ok r w' ->
  exists j, generated_from course j /\ semester j = 6
            /\ heap w' = heap w ++ [j] /\ r = length (heap w).
Proof.
  unfold generate_entry. intros H. inv_bind H.
  apply choice_inv in Hc as (Hslot & Hh0 & _).
  apply choice_inv in Hc0 as (Hday & Hh1 & _).
  apply choice_inv in Hc1 as (Hroom & Hh2 & _).
  apply choice_inv in Hc2 as (Hdosen & Hh3 & _).
  apply randint_inv in Hc3 as (Hk & Hh4 & _).
  unfold new_Jadwal in H. simpl in H.
  repeat match type of H with
  | (if ?c then _ else _) _ = _ => destruct c; [discriminate|]
  end.
  unfold alloc in H. inversion H; subst; clear H.
  eexists. split; [|split; [|split]].
  3: { simpl. rewrite Hh4, Hh3, Hh2, Hh1, Hh0. reflexivity. }
  - unfold generated_from. simpl.
    split; [reflexivity|]. split; [exact Hdosen|].
    split; [destruct a; exact Hslot|].
    split; [eauto|]. split; [exact Hroom|eauto].
  - reflexivity.
  - congruence.
Qed.

Lemma generate_entries_shape courses :
  forall w rs w',
    generate_entries courses w = Ok rs w' ->
    exists js, heap w' = heap w ++ js
               /\ rs = seq (length (heap w)) (length js)
               /\ Forall2 generated_from courses js
               /\ Forall (fun j => semester j = 6) js.
Proof.
  induction courses as [|c courses IH]; intros w rs w' H; simpl in H.
  - inversion H; subst. exists []. rewrite app_nil_r. repeat split; constructor.
  - inv_bind H. inversion H; subst; clear H.
    apply generate_entry_shape in Hc as (j & Hj & Hs & Hh & ->).
    apply IH in Hc0 as (js & Hh' & -> & Hjs & Hss).
    exists (j :: js). rewrite Hh', Hh, <- app_assoc. simpl.
    split; [reflexivity|]. split; [|split].
    + rewrite length_app. simpl. f_equal. f_equal. lia.
    + constructor; assumption.
    + constructor; assumption.
Qed.

Lemma entries_of_fresh w w' js s :
  heap w' = heap w ++ js ->
  refs s = seq (length (heap w)) (length js) ->
  entries w' s = js.
Proof.
  intros Hh Hr. unfold entries. rewrite Hr.
  apply nth_ext with (d := default_jadwal) (d' := default_jadwal).
  - rewrite length_map, length_seq. reflexivity.
  - intros n Hn. rewrite length_map, length_seq in Hn.
    rewrite (nth_indep _ default_jadwal (deref w' 0)) by
      (rewrite length_map, length_seq; exact Hn).
    rewrite map_nth, seq_nth by exact Hn.
    unfold deref. rewrite Hh, app_nth2 by lia. f_equal. lia.
Qed.

Lemma generate_random_jadwal_shape self w s w' :
  generate_random_jadwal self w = Ok s w' ->
  heap w' = heap w ++ entries w' s
  /\ refs s = seq (length (heap w)) (length (all_courses (data self)))
  /\ Forall2 generated_from (all_courses (data self)) (entries w' s)
  /\ Forall (fun j => semester j = 6) (entries w' s).
Proof.
  unfold generate_random_jadwal. intros H. inv_bind H.
  inversion H; subst; clear H.
  unfold fresh_sid in Hc. inversion Hc; subst; clear Hc.
  apply generate_entries_shape in Hc0 as (js & Hh & Hr & Hjs & Hs).
  simpl in Hh, Hr.
  assert (He : entries w' {| sid := next_sid w; refs := a0 |} = js)
    by (apply (entries_of_fresh w); assumption).
  rewrite He. simpl refs.
  rewrite <- (Forall2_length Hjs) in Hr.
  repeat split; assumption.
Qed.

(** X5: a generated solution consists of new objects, one per course in
    catalog order; the entry of a course holds that course, one of its
    instructors, one of the five time slots, one of the five days, a room
    of the fixed list and a class label from "1" to "15"; the store's
    earlier objects are left as they were. *)
Theorem generate_random_jadwal_one_entry_per_course :
  forall (self : AlgoritmaGenetika) (w : World) (s : Solution) (w' : World),
    generate_random_jadwal self w = Ok s w' ->
    heap w' = heap w ++ entries w' s
    /\ refs s = seq (length (heap w)) (length (all_courses (data self)))
    /\ Forall2 generated_from (all_courses (data self)) (entries w' s).
Proof.
  intros self w s w' H.
  apply generate_random_jadwal_shape in H as (H1 & H2 & H3 & _).
  repeat split; assumption.
Qed.

Lemma generate_random_jadwal_one_entry_per_course_witness :
  returns (generate_random_jadwal sample_ga) sample_world
    (fun s w' =>
       heap w' = heap sample_world ++ entries w' s
       /\ refs s = seq (length (heap sample_world))
                       (length (all_courses (data sample_ga)))
       /\ Forall2 generated_from (all_courses (data sample_ga)) (entries w' s)).
Proof.
  unfold returns.
  destruct (generate_random_jadwal sample_ga sample_world) as [s w'|e] eqn:E.
  - exact (generate_random_jadwal_one_entry_per_course sample_ga sample_world s w' E).
  - vm_compute in E. discriminate.
Defined.

(** X6: every generated entry is given semester 6, also the entries of
    the courses of [semester_2] and [semester_4]: the semester is read
    from the variable the loop over the three keys has left behind. *)
Theorem generate_random_jadwal_semester_6 :
  forall (self : AlgoritmaGenetika) (w : World) (s : Solution) (w' : World),
    generate_random_jadwal self w = Ok s w' ->
    length (entries w' s)
    = (length (semester_2 (data self)) + length (semester_4 (data self))
       + length (semester_6 (data self)))%nat
    /\ Forall (fun j => semester j = 6) (entries w' s).
Proof.
  intros self w s w' H.
  apply generate_random_jadwal_shape in H as (_ & _ & H3 & H4).
  split; [|exact H4].
  rewrite <- (Forall2_length H3). unfold all_courses.
  rewrite !length_app. lia.
Qed.

Lemma generate_random_jadwal_semester_6_witness :
  returns (generate_random_jadwal sample_ga) sample_world
    (fun s w' =>
       length (entries w' s) = 2%nat
       /\ Forall (fun j => semester j = 6) (entries w' s)).
Proof.
  unfold returns.
  destruct (generate_random_jadwal sample_ga sample_world) as [s w'|e] eqn:E.
  - exact (generate_random_jadwal_semester_6 sample_ga sample_world s w' E).
  - vm_compute in E. discriminate.
Defined.

Lemma initial_population_addresses self n :
  forall w pop w',
    initial_population self n w = Ok pop w' ->
    length pop = n
    /\ Forall (fun s => length (refs s) = length (all_courses (data self))) pop
    /\ concat (map refs pop)
       = seq (length (heap w)) (n * length (all_courses (data self)))
    /\ length (heap w')
       = (length (heap w) + n * length (all_courses (data self)))%nat.
Proof.
  induction n as [|n IH]; intros w pop w' H; simpl in H.
  - inversion H; subst. simpl. repeat split; [constructor|lia].
  - inv_bind H. inversion H; subst; clear H.
    apply generate_random_jadwal_shape in Hc as (Hh & Hr & Hjs & _).
    apply IH in Hc0 as (Hlen & Hall & Hcat & Hheap).
    assert (Hw0 : length (heap w0)
                  = (length (heap w) + length (all_courses (data self)))%nat).
    { rewrite Hh, length_app. f_equal. symmetry. apply (Forall2_length Hjs). }
    simpl. split; [congruence|]. split; [|split].
    + constructor; [rewrite Hr; apply length_seq|exact Hall].
    + rewrite Hcat, Hr, Hw0. symmetry. apply seq_app.
    + rewrite Hheap, Hw0. lia.
Qed.

(** X7: the initial population has the requested number of individuals,
    each with one entry per course, and all their entries are distinct
    new objects: no two individuals share an entry at the start. *)
Theorem initial_population_shares_nothing :
  forall (self : AlgoritmaGenetika) (n : nat) (w : World)
         (pop : list Solution) (w' : World),
    initial_population self n w = Ok pop w' ->
    length pop = n
    /\ Forall (fun s => length (refs s) = length (all_courses (data self))) pop
    /\ NoDup (concat (map refs pop))
    /\ Forall (fun r => (length (heap w) <= r < length (heap w'))%nat)
              (concat (map refs pop)).
Proof.
  intros self n w pop w' H.
  apply initial_population_addresses in H as (H1 & H2 & H3 & H4).
  split; [exact H1|]. split; [exact H2|]. rewrite H3. split.
  - apply seq_NoDup.
  - apply Forall_forall. intros r Hr. apply in_seq in Hr. lia.
Qed.

Lemma initial_population_shares_nothing_witness :
  returns (initial_population sample_ga 3) sample_world
    (fun pop w' =>
       length pop = 3%nat
       /\ Forall (fun s => length (refs s) = length (all_courses (data sample_ga)))
                 pop
       /\ NoDup (concat (map refs pop))
       /\ Forall (fun r => (length (heap sample_world) <= r < length (heap w'))%nat)
                 (concat (map refs pop))).
Proof.
  unfold returns.
  destruct (initial_population sample_ga 3 sample_world) as [pop w'|e] eqn:E.
  - exact (initial_population_shares_nothing sample_ga 3 sample_world pop w' E).
  - vm_compute in E. discriminate.
Defined.

(** ** Mutation *)

Lemma same_store_refl w : same_store w w.
Proof. repeat split. Qed.

Lemma same_store_trans w1 w2 w3 :
  same_store w1 w2 -> same_store w2 w3 -> same_store w1 w3.
Proof. unfold same_store. intros (A & B & C) (D & E & F). repeat split; congruence. Qed.

Lemma random_random_keeps w :
  returns random_random w
    (fun q w' => (0 <= q)%Q /\ (q < 1)%Q /\ same_store w w').
Proof.
  unfold returns, random_random, bind, draw, ret. simpl.
  pose proof (Z.mod_pos_bound (tape w (pos w)) (2 ^ 53) ltac:(lia)) as Hb.
  change (Z.pow_pos 2 53) with (2 ^ 53) in *.
  split; [unfold Qle; simpl; lia|].
  split; [unfold Qlt; simpl; lia|]. repeat split.
Qed.

Lemma choice_keeps {A} (l : list A) w :
  l <> [] -> returns (choice l) w (fun x w' => In x l /\ same_store w w').
Proof.
  intros Hl. destruct l as [|d l]; [congruence|].
  destruct (choice_returns (d :: l) w Hl) as (x & w' & H).
  unfold returns. rewrite H. pose proof (choice_inv _ _ _ _ H) as (Hin & _).
  split; [exact Hin|].
  unfold choice, bind, draw, ret in H. inversion H. repeat split.
Qed.

Lemma mutated_from_refl j : mutated_from j j.
Proof. unfold mutated_from. intuition. Qed.

Lemma mutated_from_trans j1 j2 j3 :
  mutated_from j1 j2 -> mutated_from j2 j3 -> mutated_from j1 j3.
Proof.
  unfold mutated_from. intros (A & B & C & D & E) (A' & B' & C' & D' & E').
  split; [congruence|]. split; [congruence|]. split; [congruence|].
  split; [congruence|]. intros H. apply E', E, H.
Qed.

Lemma mutation_frame_refl w : mutation_frame w w.
Proof.
  split; [reflexivity|]. split; [reflexivity|]. intros r. apply mutated_from_refl.
Qed.

Lemma mutation_frame_trans w1 w2 w3 :
  mutation_frame w1 w2 -> mutation_frame w2 w3 -> mutation_frame w1 w3.
Proof.
  intros (A & B & C) (A' & B' & C'). split; [congruence|]. split; [congruence|].
  intros r. eapply mutated_from_trans; [apply C|apply C'].
Qed.

Lemma mutation_frame_same_store w w' : same_store w w' -> mutation_frame w w'.
Proof.
  intros (A & B & C). split; [congruence|]. split; [exact C|].
  intros r. unfold deref. rewrite A. apply mutated_from_refl.
Qed.

(** One or two assignments to the object at [r] by functions whose
    composition [f] keeps what mutation keeps. *)
Lemma assign_frame (f : Jadwal -> Jadwal) r w w' :
  (forall j, mutated_from j (f j)) ->
  length (heap w') = length (heap w) ->
  crossover_count w' = crossover_count w ->
  (forall r', deref w' r'
              = if (r' =? r)%nat && (r <? length (heap w))%nat
                then f (deref w r) else deref w r') ->
  mutation_frame w w'.
Proof.
  intros Hf Hl Hc Hd. split; [exact Hl|]. split; [exact Hc|].
  intros r'. rewrite Hd.
  destruct ((r' =? r)%nat && (r <? length (heap w))%nat) eqn:E.
  - apply andb_prop in E as [E _]. apply Nat.eqb_eq in E. subst. apply Hf.
  - apply mutated_from_refl.
Qed.

Lemma update_once r f w :
  (forall j, mutated_from j (f j)) ->
  returns (update r f) w
    (fun _ w' => mutation_frame w w' /\ mutation_count w' = mutation_count w).
Proof.
  intros Hf. unfold returns, update. split; [|reflexivity].
  apply (assign_frame f r); [exact Hf|simpl; apply length_list_set|reflexivity|].
  intros r'. apply deref_update.
Qed.

Lemma update_twice r f1 f2 w :
  (forall j, mutated_from j (f2 (f1 j))) ->
  returns (update r f1 ;;; update r f2) w
    (fun _ w' => mutation_frame w w' /\ mutation_count w' = mutation_count w).
Proof.
  intros Hf. unfold returns, bind, update. split; [|reflexivity].
  apply (assign_frame (fun j => f2 (f1 j)) r); [exact Hf| |reflexivity|].
  - simpl. rewrite !length_list_set. reflexivity.
  - intros r'. rewrite deref_update. simpl heap. rewrite length_list_set.
    rewrite (deref_update r f1 w r). rewrite (deref_update r f1 w r').
    rewrite Nat.eqb_refl. simpl.
    destruct (r' =? r)%nat, (r <? length (heap w))%nat; reflexivity.
Qed.

Lemma slot_valid (slot : Z * Z) (j : Jadwal) :
  In slot time_slots ->
  valid_times (set_waktu_selesai (snd slot) (set_waktu_mulai (fst slot) j)).
Proof.
  simpl. unfold valid_times.
  intros [<-|[<-|[<-|[<-|[<-|[]]]]]]; simpl; lia.
Qed.

Lemma mutate_kinds_frame r q w :
  returns
    (if Qltb q (33 # 100) then mutate_waktu r
     else r3 <- random_random;;
          (if Qltb r3 (33 # 100) then mutate_hari r else mutate_ruang r))
    w (fun _ w' => mutation_frame w w' /\ mutation_count w' = mutation_count w).
Proof.
  unfold mutate_waktu, mutate_hari, mutate_ruang.
  destruct (Qltb q (33 # 100)).
  - step_as (@choice_keeps (Z * Z)) waktu w1 Hc; [discriminate|].
    destruct Hc as (Hin & Hs).
    eapply returns_weaken.
    + apply update_twice. intros j.
      unfold mutated_from.
      split; [reflexivity|]. split; [reflexivity|]. split; [reflexivity|].
      split; [reflexivity|]. intros _. apply slot_valid, Hin.
    + cbv beta. intros _ w2 (Hf & Hm). split.
      * eapply mutation_frame_trans; [apply mutation_frame_same_store, Hs|exact Hf].
      * destruct Hs as (_ & Hm1 & _). congruence.
  - step_as random_random_keeps r3 w1 Hr. destruct Hr as (_ & _ & Hs).
    destruct (Qltb r3 (33 # 100)).
    + step_as (@choice_keeps string) hari_ w2 Hc; [discriminate|].
      destruct Hc as (_ & Hs2).
      eapply returns_weaken.
      * apply update_once. intros j. unfold mutated_from, valid_times.
        simpl. intuition.
      * cbv beta. intros _ w3 (Hf & Hm). split.
        -- eapply mutation_frame_trans; [|exact Hf].
           apply mutation_frame_same_store.
           eapply same_store_trans; eassumption.
        -- destruct Hs as (_ & Hm1 & _), Hs2 as (_ & Hm2 & _). congruence.
    + step_as (@choice_keeps string) ruang_ w2 Hc; [discriminate|].
      destruct Hc as (_ & Hs2).
      eapply returns_weaken.
      * apply update_once. intros j. unfold mutated_from, valid_times.
        simpl. intuition.
      * cbv beta. intros _ w3 (Hf & Hm). split.
        -- eapply mutation_frame_trans; [|exact Hf].
           apply mutation_frame_same_store.
           eapply same_store_trans; eassumption.
        -- destruct Hs as (_ & Hm1 & _), Hs2 as (_ & Hm2 & _). congruence.
Qed.

Lemma mutate_entry_frame self r w :
  returns (mutate_entry self r) w
    (fun _ w' =>
       mutation_frame w w'
       /\ mutation_count w <= mutation_count w' <= mutation_count w + 1
       /\ ((mutation_rate self <= 0)%Q -> same_store w w')
       /\ ((1 <= mutation_rate self)%Q -> mutation_count w' = mutation_count w + 1)).
Proof.
  unfold mutate_entry.
  step_as random_random_keeps r1 w1 Hr. destruct Hr as (H0 & H1 & Hs).
  destruct (Qltb r1 (mutation_rate self)) eqn:E.
  - step_as random_random_keeps r2 w2 Hr2. destruct Hr2 as (_ & _ & Hs2).
    apply returns_bind.
    eapply returns_weaken; [apply mutate_kinds_frame|].
    cbv beta. intros _ w3 (Hf & Hm). unfold returns, incr_mutation.
    pose proof (same_store_trans _ _ _ Hs Hs2) as Hs12.
    assert (Hf' : mutation_frame w w3)
      by (eapply mutation_frame_trans; [apply mutation_frame_same_store, Hs12|exact Hf]).
    destruct Hs12 as (_ & Hm12 & _).
    split; [|split; [|split]].
    + destruct Hf' as (A & B & C). split; [exact A|]. split; [exact B|].
      intros r'. apply C.
    + simpl. lia.
    + intros Hrate. exfalso. unfold Qltb in E.
      assert (Hle : (mutation_rate self <= r1)%Q) by (eapply Qle_trans; eassumption).
      apply Qle_bool_iff in Hle. rewrite Hle in E. discriminate.
    + intros _. simpl. lia.
  - unfold returns, ret.
    split; [apply mutation_frame_same_store, Hs|].
    destruct Hs as (Hh & Hm & Hc).
    split; [lia|]. split; [intros _; repeat split; assumption|].
    intros Hrate. exfalso. unfold Qltb in E.
    apply Bool.negb_false_iff, Qle_bool_iff in E.
    apply (Qlt_irrefl r1). eapply Qlt_le_trans; [exact H1|].
    eapply Qle_trans; eassumption.
Qed.

Lemma mutate_loop_frame self rs :
  forall w,
    returns (mutate_loop self rs) w
      (fun _ w' =>
         mutation_frame w w'
         /\ mutation_count w <= mutation_count w'
            <= mutation_count w + Z.of_nat (length rs)
         /\ ((mutation_rate self <= 0)%Q -> same_store w w')
         /\ ((1 <= mutation_rate self)%Q ->
             mutation_count w' = mutation_count w + Z.of_nat (length rs))).
Proof.
  induction rs as [|r rs IH]; intros w.
  - unfold returns. simpl.
    split; [apply mutation_frame_refl|]. split; [lia|].
    split; [intros _; apply same_store_refl|intros _; lia].
  - cbn [mutate_loop]. apply returns_bind.
    eapply returns_weaken; [apply mutate_entry_frame|].
    cbv beta. intros _ w1 (Hf & Hm & H0 & H1).
    eapply returns_weaken; [apply IH|].
    cbv beta. intros _ w2 (Hf' & Hm' & H0' & H1').
    split; [eapply mutation_frame_trans; eassumption|].
    split; [simpl length; lia|].
    split.
    + intros Hr. eapply same_store_trans; [apply H0, Hr|apply H0', Hr].
    + intros Hr. specialize (H1 Hr). specialize (H1' Hr). simpl length. lia.
Qed.

Lemma mutate_frame self individu w :
  returns (mutate self individu) w
    (fun mutated w' =>
       refs mutated = refs individu
       /\ mutation_frame w w'
       /\ mutation_count w <= mutation_count w'
          <= mutation_count w + Z.of_nat (length (refs individu))
       /\ ((mutation_rate self <= 0)%Q -> same_store w w')
       /\ ((1 <= mutation_rate self)%Q ->
           mutation_count w'
           = mutation_count w + Z.of_nat (length (refs individu)))).
Proof.
  unfold mutate. apply returns_bind. unfold returns at 1, new_list.
  apply returns_bind. cbn [refs].
  eapply returns_weaken; [apply mutate_loop_frame|].
  cbv beta. intros _ w1 (Hf & Hm & H0 & H1). unfold returns, ret. cbn [refs].
  split; [reflexivity|]. split; [|split; [|split]].
  - destruct Hf as (A & B & C). split; [exact A|]. split; [exact B|exact C].
  - exact Hm.
  - intros Hr. destruct (H0 Hr) as (A & B & C). repeat split; assumption.
  - exact H1.
Qed.

(** X8: with [mutation_rate = 0.0], [mutate] returns a list of the same
    entries and changes no object and no counter: the result equals its
    input by value. *)
Theorem mutate_rate_zero_is_identity :
  forall (self : AlgoritmaGenetika) (individu : Solution) (w : World),
    (mutation_rate self == 0)%Q ->
    returns (mutate self individu) w
      (fun mutated w' =>
         refs mutated = refs individu
         /\ same_store w w'
         /\ entries w' mutated = entries w individu).
Proof.
  intros self individu w Hrate.
  eapply returns_weaken; [apply mutate_frame|].
  cbv beta. intros m w' (Hr & _ & _ & H0 & _).
  assert (Hs : same_store w w') by (apply H0; rewrite Hrate; apply Qle_refl).
  split; [exact Hr|]. split; [exact Hs|].
  unfold entries, deref. rewrite Hr. destruct Hs as (-> & _). reflexivity.
Qed.

Lemma mutate_rate_zero_is_identity_witness :
  returns (mutate (mkGA sample_catalog 5 3 (8 # 10) 0 float_0_1) parent_a)
          sample_world
    (fun mutated w' =>
       refs mutated = refs parent_a
       /\ same_store sample_world w'
       /\ entries w' mutated = entries sample_world parent_a).
Proof.
  apply mutate_rate_zero_is_identity. reflexivity.
Defined.

(** X9: [mutate] never raises; it creates and removes no object, keeps
    the course, instructor, class label and semester of every entry and
    the crossover counter, and raises the mutation counter by at most the
    number of entries, by exactly that number when [mutation_rate] is 1. *)
Theorem mutate_keeps_course_and_instructor :
  forall (self : AlgoritmaGenetika) (individu : Solution) (w : World),
    returns (mutate self individu) w
      (fun mutated w' =>
         length (heap w') = length (heap w)
         /\ crossover_count w' = crossover_count w
         /\ (forall r,
               matakuliah (deref w' r) = matakuliah (deref w r)
               /\ dosen (deref w' r) = dosen (deref w r)
               /\ kelas (deref w' r) = kelas (deref w r)
               /\ semester (deref w' r) = semester (deref w r))
         /\ mutation_count w <= mutation_count w'
            <= mutation_count w + Z.of_nat (length (refs individu))
         /\ ((1 <= mutation_rate self)%Q ->
             mutation_count w'
             = mutation_count w + Z.of_nat (length (refs individu)))).
Proof.
  intros self individu w.
  eapply returns_weaken; [apply mutate_frame|].
  cbv beta. intros m w' (_ & (A & B & C) & Hm & _ & H1).
  split; [exact A|]. split; [exact B|]. split; [|split; assumption].
  intros r. destruct (C r) as (C1 & C2 & C3 & C4 & _).
  repeat split; assumption.
Qed.

(** X10: [mutate] keeps the time invariant of [Jadwal]: an entry that had
    [0 <= start < end <= 1440] before has it afterwards. *)
Theorem mutate_keeps_valid_times :
  forall (self : AlgoritmaGenetika) (individu : Solution) (w : World),
    returns (mutate self individu) w
      (fun _ w' => forall r, valid_times (deref w r) -> valid_times (deref w' r)).
Proof.
  intros self individu w.
  eapply returns_weaken; [apply mutate_frame|].
  cbv beta. intros m w' (_ & (_ & _ & C) & _). intros r.
  destruct (C r) as (_ & _ & _ & _ & Hv). exact Hv.
Qed.

(** ** Crossover and tournament selection *)

Lemma in_firstn_in {A} (n : nat) (l : list A) x : In x (firstn n l) -> In x l.
Proof.
  intros H. rewrite <- (firstn_skipn n l). apply in_or_app. left. exact H.
Qed.

Lemma in_skipn_in {A} (n : nat) (l : list A) x : In x (skipn n l) -> In x l.
Proof.
  intros H. rewrite <- (firstn_skipn n l). apply in_or_app. right. exact H.
Qed.

Lemma splice_incl {A} (p : nat) (l1 l2 : list A) :
  incl (firstn p l1 ++ skipn p l2) (l1 ++ l2).
Proof.
  intros x Hx. apply in_app_or in Hx. apply in_or_app.
  destruct Hx as [Hx|Hx]; [left; eapply in_firstn_in|right; eapply in_skipn_in];
    eassumption.
Qed.

(** X11: [crossover] never touches an entry: the store and the mutation
    counter are as before and the children hold addresses of the parents
    only. Either it returns the two parents themselves and counts
    nothing, or it counts one crossover and returns two new lists. *)
Theorem crossover_keeps_the_store :
  forall (self : AlgoritmaGenetika) (parent1 parent2 : Solution) (w : World)
         (children : Solution * Solution) (w' : World),
    crossover self parent1 parent2 w = Ok children w' ->
    heap w' = heap w
    /\ mutation_count w' = mutation_count w
    /\ incl (refs (fst children)) (refs parent1 ++ refs parent2)
    /\ incl (refs (snd children)) (refs parent2 ++ refs parent1)
    /\ ((children = (parent1, parent2)
         /\ crossover_count w' = crossover_count w)
        \/ (crossover_count w' = crossover_count w + 1
            /\ sid (fst children) = next_sid w
            /\ sid (snd children) = S (next_sid w))).
Proof.
  intros self parent1 parent2 w children w' H.
  unfold crossover in H. inv_bind H.
  pose proof (returns_inv _ _ _ (random_random_keeps w)) as (q & w1 & Hq & _ & _ & Hs).
  rewrite Hq in Hc. inversion Hc; subst a w0; clear Hc.
  destruct Hs as (Hh & Hm & Hcc).
  destruct (Qltb (crossover_rate self) q).
  - inversion H; subst; clear H. simpl.
    split; [exact Hh|]. split; [exact Hm|].
    split; [apply incl_appl, incl_refl|]. split; [apply incl_appl, incl_refl|].
    left. split; [reflexivity|exact Hcc].
  - inv_bind H. inversion H; subst; clear H.
    pose proof (randint_inv _ _ _ _ _ Hc) as (_ & Hh2 & Hsid).
    unfold randint in Hc.
    destruct (Z.of_nat (length (refs parent1)) - 1 <? 1); [discriminate|].
    unfold bind, draw, ret in Hc. inversion Hc; subst a w0; clear Hc.
    unfold new_list in Hc0. inversion Hc0; subst a0 w2; clear Hc0.
    unfold new_list in Hc1. inversion Hc1; subst a1 w3; clear Hc1.
    unfold incr_crossover in Hc2. inversion Hc2; subst; clear Hc2.
    simpl in *.
    split; [exact Hh|]. split; [exact Hm|].
    split; [apply splice_incl|]. split; [apply splice_incl|].
    right. split; [lia|]. unfold random_random, bind, draw, ret in Hq.
    inversion Hq; subst. simpl. split; reflexivity.
Qed.

Lemma crossover_keeps_the_store_witness :
  returns (crossover sample_ga parent_a parent_b) sample_world
    (fun children w' =>
       heap w' = heap sample_world
       /\ mutation_count w' = mutation_count sample_world
       /\ incl (refs (fst children)) (refs parent_a ++ refs parent_b)
       /\ incl (refs (snd children)) (refs parent_b ++ refs parent_a)
       /\ ((children = (parent_a, parent_b)
            /\ crossover_count w' = crossover_count sample_world)
           \/ (crossover_count w' = crossover_count sample_world + 1
               /\ sid (fst children) = next_sid sample_world
               /\ sid (snd children) = S (next_sid sample_world)))).
Proof.
  unfold returns.
  destruct (crossover sample_ga parent_a parent_b sample_world)
    as [children w'|e] eqn:E.
  - exact (crossover_keeps_the_store sample_ga parent_a parent_b sample_world
             children w' E).
  - vm_compute in E. discriminate.
Defined.

Lemma remove_nth_perm {A} (l : list A) :
  forall i d, (i < length l)%nat ->
              Permutation l (nth i l d :: remove_nth i l).
Proof.
  induction l as [|a l IH]; intros i d Hi; simpl in Hi; [lia|].
  destruct i as [|i]; simpl; [reflexivity|].
  rewrite perm_swap. constructor. apply IH. lia.
Qed.

Lemma sample_from_perm {A} (k : nat) :
  forall (l : list A) w,
    (k <= length l)%nat ->
    returns (sample_from k l) w
      (fun selected w' =>
         length selected = k
         /\ (exists rest, Permutation l (selected ++ rest))
         /\ same_store w w').
Proof.
  induction k as [|k IH]; intros l w Hk.
  - unfold returns. simpl. split; [reflexivity|].
    split; [exists l; reflexivity|apply same_store_refl].
  - destruct l as [|d l]; [simpl in Hk; lia|].
    cbn [sample_from]. unfold returns, bind at 1, draw.
    set (i := Z.to_nat (_ mod _)).
    assert (Hi : (i < length (d :: l))%nat).
    { unfold i.
      pose proof (Z.mod_pos_bound (tape w (pos w)) (Z.of_nat (length (d :: l)))
                    ltac:(simpl length; lia)). lia. }
    pose proof (remove_nth_perm (d :: l) i d Hi) as Hp.
    set (w1 := mkWorld _ _ _ _ _ _).
    assert (Hlen : (k <= length (remove_nth i (d :: l)))%nat).
    { apply Permutation_length in Hp. simpl in Hp, Hk |- *. lia. }
    pose proof (IH (remove_nth i (d :: l)) w1 Hlen) as Hrec.
    unfold returns in Hrec. unfold bind.
    destruct (sample_from k (remove_nth i (d :: l)) w1) as [rest w2|e];
      [|contradiction].
    destruct Hrec as (Hl & (rest' & Hp') & Hs). unfold ret.
    split; [simpl; congruence|]. split.
    + exists rest'. eapply perm_trans; [exact Hp|].
      simpl. constructor. exact Hp'.
    + destruct Hs as (A0 & B0 & C0). repeat split; assumption.
Qed.

Lemma min_from_least {A} (key : A -> Q) (l : list A) :
  forall best,
    In (min_from key best l) (best :: l)
    /\ forall y, In y (best :: l) -> (key (min_from key best l) <= key y)%Q.
Proof.
  induction l as [|x l IH]; intros best; simpl.
  - split; [left; reflexivity|]. intros y [<-|[]]. apply Qle_refl.
  - destruct (Qltb (key x) (key best)) eqn:E.
    + destruct (IH x) as (Hin & Hle). split.
      * destruct Hin as [Hin|Hin]; [right; left; exact Hin|right; right; exact Hin].
      * intros y Hy. destruct Hy as [Hy|[Hy|Hy]].
        -- subst y. eapply Qle_trans; [apply Hle; left; reflexivity|].
           unfold Qltb in E. apply Bool.negb_true_iff in E.
           destruct (Qlt_le_dec (key x) (key best)) as [L|L];
             [apply Qlt_le_weak, L|].
           apply Qle_bool_iff in L. congruence.
        -- subst y. apply Hle. left. reflexivity.
        -- apply Hle. right. exact Hy.
    + destruct (IH best) as (Hin & Hle). split.
      * destruct Hin as [Hin|Hin]; [left; exact Hin|right; right; exact Hin].
      * intros y Hy. destruct Hy as [Hy|[Hy|Hy]].
        -- subst y. apply Hle. left. reflexivity.
        -- subst y. eapply Qle_trans; [apply Hle; left; reflexivity|].
           unfold Qltb in E. apply Bool.negb_false_iff, Qle_bool_iff in E. exact E.
        -- apply Hle. right. exact Hy.
Qed.

(** X12: on a population of at least five, tournament selection returns
    without changing the store; the winner is one of five individuals
    taken at distinct positions of the population and no other of the
    five has a lower fitness. *)
Theorem tournament_selection_picks_a_member :
  forall (pop : list Solution) (w : World),
    (5 <= length pop)%nat ->
    returns (tournament_selection pop) w
      (fun winner w' =>
         same_store w w'
         /\ In winner pop
         /\ exists selected rest,
              length selected = 5%nat
              /\ Permutation pop (selected ++ rest)
              /\ In winner selected
              /\ forall x, In x selected ->
                           (fitness_in w winner <= fitness_in w x)%Q).
Proof.
  intros pop w Hlen. unfold tournament_selection, sample.
  destruct (length pop <? 5)%nat eqn:E; [apply Nat.ltb_lt in E; lia|].
  apply returns_bind.
  eapply returns_weaken; [apply sample_from_perm; exact Hlen|].
  cbv beta. intros selected w1 (Hl & (rest & Hp) & Hs).
  unfold returns, bind, get_world.
  destruct selected as [|x sel]; [discriminate|].
  unfold py_min, ret.
  destruct (min_from_least (fitness_in w1) sel x) as (Hin & Hle).
  assert (Hfit : forall s, fitness_in w1 s = fitness_in w s).
  { intros s. unfold fitness_in, entries, deref.
    destruct Hs as (-> & _). reflexivity. }
  split; [exact Hs|]. split.
  - eapply Permutation_in; [symmetry; exact Hp|].
    apply in_or_app. left. exact Hin.
  - exists (x :: sel), rest. split; [exact Hl|]. split; [exact Hp|].
    split; [exact Hin|]. intros y Hy. rewrite <- !Hfit. apply Hle, Hy.
Qed.

Lemma tournament_selection_picks_a_member_witness :
  returns (tournament_selection five_individuals) enum_world
    (fun winner w' =>
       same_store enum_world w'
       /\ In winner five_individuals
       /\ exists selected rest,
            length selected = 5%nat
            /\ Permutation five_individuals (selected ++ rest)
            /\ In winner selected
            /\ forall x, In x selected ->
                         (fitness_in enum_world winner <= fitness_in enum_world x)%Q).
Proof.
  apply tournament_selection_picks_a_member. simpl. lia.
Defined.

(** ** The diversity metric *)

Lemma diversity_with_empty ind_i rest w :
  refs ind_i = [] -> diversity_with ind_i rest w = Ok 0 w.
Proof.
  intros Hr. induction rest as [|ind_j rest IH]; simpl; [reflexivity|].
  unfold bind. rewrite Hr. simpl. rewrite IH. reflexivity.
Qed.

Lemma diversity_sum_empty pop w :
  Forall (fun s => refs s = []) pop -> diversity_sum pop w = Ok 0 w.
Proof.
  induction 1 as [|s pop Hs _ IH]; simpl; [reflexivity|].
  unfold bind. rewrite (diversity_with_empty s pop w Hs), IH. reflexivity.
Qed.

Lemma calculate_diversity_no_entries s1 s2 rest w :
  Forall (fun s => refs s = []) (s1 :: s2 :: rest) ->
  calculate_diversity (s1 :: s2 :: rest) w = Raise ZeroDivisionError.
Proof.
  intros H. unfold calculate_diversity.
  destruct (length (s1 :: s2 :: rest) <? 2)%nat eqn:E; [simpl in E; discriminate|].
  unfold bind. rewrite (diversity_sum_empty _ w H).
  inversion H as [|? ? Hs1 _]; subst. unfold hd. rewrite Hs1.
  change (length (@nil nat)) with 0%nat. rewrite Z.mul_0_r. reflexivity.
Qed.

Lemma initial_population_no_courses self n :
  all_courses (data self) = [] ->
  forall w, exists pop w',
    initial_population self n w = Ok pop w'
    /\ length pop = n /\ Forall (fun s => refs s = []) pop.
Proof.
  intros Hc. induction n as [|n IH]; intros w; simpl.
  - exists [], w. repeat split. constructor.
  - unfold generate_random_jadwal, bind at 1, bind at 1, fresh_sid.
    rewrite Hc. cbn [generate_entries]. unfold ret at 1. unfold bind at 1.
    unfold ret at 1.
    destruct (IH (mkWorld (heap w) (S (next_sid w)) (tape w) (pos w)
                          (crossover_count w) (mutation_count w)))
      as (pop & w' & Hp & Hl & Hall).
    unfold bind. rewrite Hp. unfold ret.
    eexists _, w'. split; [reflexivity|]. split; [simpl; congruence|].
    constructor; [reflexivity|exact Hall].
Qed.

(** X13: over a catalog without courses, a run with two or more
    individuals raises [ZeroDivisionError] in its first generation:
    [calculate_diversity] divides by the length of the first individual. *)
Theorem run_without_courses_divides_by_zero :
  forall (self : AlgoritmaGenetika) (w : World),
    all_courses (data self) = [] ->
    2 <= ukuran_populasi self ->
    1 <= generasi self ->
    run self w = Raise ZeroDivisionError.
Proof.
  intros self w Hc HP HG. unfold run.
  destruct (initial_population_no_courses self (Z.to_nat (ukuran_populasi self)) Hc w)
    as (pop & w1 & Hp & Hl & Hall).
  unfold bind at 1. rewrite Hp.
  destruct pop as [|s1 [|s2 rest]]; simpl in Hl; try lia.
  unfold range. destruct (Z.to_nat (generasi self)) as [|g] eqn:Eg; [lia|].
  simpl generation_loop. unfold bind at 1. unfold generation.
  unfold bind at 1. unfold get_world at 1.
  cbn [populasi map]. unfold bind at 1. rewrite py_min_nonempty.
  unfold bind at 1.
  rewrite (calculate_diversity_no_entries s1 s2 rest w1 Hall).
  reflexivity.
Qed.

Lemma run_without_courses_divides_by_zero_witness :
  run ga_empty sample_world = Raise ZeroDivisionError.
Proof.
  apply run_without_courses_divides_by_zero.
  - reflexivity.
  - simpl. lia.
  - simpl. lia.
Defined.

Lemma JadwalDict_eqb_refl d : JadwalDict_eqb d d = true.
Proof.
  unfold JadwalDict_eqb. destruct (d_matakuliah d) as [[k n] sk].
  rewrite !String.eqb_refl, !Z.eqb_refl. reflexivity.
Qed.

Lemma to_dict_enum_typed j w :
  enum_typed j -> exists d, to_dict j w = Ok d w.
Proof.
  intros (h & m & k & Hh & Hm & Hk). unfold to_dict.
  rewrite Hh, Hm, Hk. unfold ret. eauto.
Qed.

Lemma count_diff_same_values w :
  forall post_i pre_j post_j,
    map (deref w) post_i = map (deref w) post_j ->
    Forall enum_typed (map (deref w) post_i) ->
    count_diff post_i (pre_j ++ post_j) (length pre_j) w = Ok 0 w.
Proof.
  induction post_i as [|a post_i IH]; intros pre_j post_j Hmap Hall;
    [reflexivity|].
  destruct post_j as [|b post_j]; [discriminate|].
  simpl in Hmap. inversion Hmap as [[Hab Hrest]].
  simpl in Hall. inversion Hall as [|? ? Ha Hall']; subst.
  destruct (to_dict_enum_typed (deref w a) w Ha) as (d & Hd).
  cbn [count_diff]. unfold bind at 1, read at 1. unfold bind at 1. rewrite Hd.
  unfold bind at 1, index.
  rewrite nth_error_app2 by lia. rewrite Nat.sub_diag. cbn [nth_error].
  unfold ret at 1. unfold bind at 1, read at 1. unfold bind at 1.
  rewrite <- Hab, Hd. unfold bind at 1.
  replace (pre_j ++ b :: post_j) with ((pre_j ++ [b]) ++ post_j)
    by (rewrite <- app_assoc; reflexivity).
  replace (S (length pre_j)) with (length (pre_j ++ [b]))
    by (rewrite length_app; simpl; lia).
  rewrite (IH (pre_j ++ [b]) post_j Hrest Hall').
  rewrite JadwalDict_eqb_refl. reflexivity.
Qed.

Lemma diversity_with_same_values w es ind_i rest :
  entries w ind_i = es ->
  Forall (fun s => entries w s = es) rest ->
  Forall enum_typed es ->
  diversity_with ind_i rest w = Ok 0 w.
Proof.
  intros Hi Hrest Hes. induction Hrest as [|ind_j rest Hj _ IH]; [reflexivity|].
  cbn [diversity_with]. unfold bind at 1.
  assert (Hcd : count_diff (refs ind_i) (refs ind_j) 0 w = Ok 0 w).
  { apply (count_diff_same_values w (refs ind_i) [] (refs ind_j)).
    - unfold entries in Hi, Hj. congruence.
    - unfold entries in Hi. rewrite Hi. exact Hes. }
  rewrite Hcd. unfold bind. rewrite IH. reflexivity.
Qed.

Lemma diversity_sum_same_values w es pop :
  Forall (fun s => entries w s = es) pop ->
  Forall enum_typed es ->
  diversity_sum pop w = Ok 0 w.
Proof.
  intros Hpop Hes. induction Hpop as [|s pop Hs Hrest IH]; [reflexivity|].
  cbn [diversity_sum]. unfold bind.
  rewrite (diversity_with_same_values w es s pop Hs Hrest Hes), IH. reflexivity.
Qed.

(** X14: the diversity of a population of two or more individuals that
    are equal by value is 0, when their entries are non-empty and hold
    the annotated classes (so that [to_dict] does not raise). *)
Theorem calculate_diversity_of_equal_individuals :
  forall (w : World) (es : list Jadwal) (pop : list Solution),
    (2 <= length pop)%nat ->
    es <> [] ->
    Forall enum_typed es ->
    Forall (fun s => entries w s = es) pop ->
    returns (calculate_diversity pop) w (fun d w' => (d == 0)%Q /\ w' = w).
Proof.
  intros w es pop Hlen Hne Hes Hpop. unfold returns, calculate_diversity.
  destruct (length pop <? 2)%nat eqn:E; [apply Nat.ltb_lt in E; lia|].
  unfold bind. rewrite (diversity_sum_same_values w es pop Hpop Hes).
  destruct pop as [|s pop]; [simpl in Hlen; lia|].
  inversion Hpop as [|? ? Hs _]; subst. unfold hd.
  assert (Hl : length (refs s) <> 0%nat).
  { intros H0. apply Hne. unfold entries in *.
    destruct (refs s); [reflexivity|discriminate]. }
  destruct (_ =? 0) eqn:Ed.
  - exfalso. apply Z.eqb_eq in Ed.
    apply Z.mul_eq_0 in Ed as [Ed|Ed]; [apply Z.mul_eq_0 in Ed as [Ed|Ed]|];
      simpl length in *; lia.
  - unfold ret. split; [|reflexivity].
    unfold Qdiv. apply Qmult_0_l.
Qed.

Lemma calculate_diversity_of_equal_individuals_witness :
  returns (calculate_diversity [mkSolution 0 [0%nat; 1%nat];
                               mkSolution 1 [0%nat; 1%nat];
                               mkSolution 2 [0%nat; 1%nat]])
          enum_world (fun d w' => (d == 0)%Q /\ w' = enum_world).
Proof.
  apply (calculate_diversity_of_equal_individuals enum_world
           (entries enum_world (mkSolution 0 [0%nat; 1%nat]))).
  - simpl. lia.
  - discriminate.
  - repeat constructor; do 3 eexists; repeat split; reflexivity.
  - repeat constructor.
Defined.

(** ** A generation of the genetic engine *)

Lemma py_min_inv {A} (key : A -> Q) (l : list A) w x w' :
  py_min key l w = Ok x w' ->
  w' = w /\ In x l /\ forall y, In y l -> (key x <= key y)%Q.
Proof.
  destruct l as [|a l]; [discriminate|].
  unfold py_min, ret. intros H. inversion H; subst; clear H.
  destruct (min_from_least key l a) as (Hin & Hle). repeat split; assumption.
Qed.

Lemma generation_inv self gen st w st' w' :
  generation self gen st w = Ok st' w' ->
  exists num w_d new_populasi current_best,
    num_elites self = inr num
    /\ breed self (Z.to_nat (ukuran_populasi self)) (populasi st)
             (select_elites num w (populasi st)) w_d = Ok new_populasi w'
    /\ populasi st' = py_prefix (ukuran_populasi self) new_populasi
    /\ In current_best (populasi st')
    /\ (forall s, In s (populasi st') ->
                  (fitness_in w' current_best <= fitness_in w' s)%Q)
    /\ best_fitness st'
       = (if lt_inf (fitness_in w' current_best) (best_fitness st)
          then Some (fitness_in w' current_best) else best_fitness st)
    /\ best_solution st'
       = (if lt_inf (fitness_in w' current_best) (best_fitness st)
          then Some current_best else best_solution st)
    /\ generations st' = generations st ++ [gen].
Proof.
  unfold generation. intros H. inv_bind H.
  unfold get_world in Hc. inversion Hc; subst a w0; clear Hc.
  apply lift_inv in Hc2 as (Hnum & ->).
  unfold get_world in Hc4. inversion Hc4; subst a4 w5; clear Hc4.
  apply py_min_inv in Hc5 as (-> & Hin & Hle).
  inversion H; subst; clear H. simpl.
  exists a2, w2, a3, a5. repeat split; try assumption; reflexivity.
Qed.

(** X16: a generation that completes leaves at least one individual.
    With [ukuran_populasi >= 0] it leaves exactly [ukuran_populasi] of
    them, whatever the size of the population it started from. With a
    negative [ukuran_populasi] no child is bred and the slice
    [new_populasi[:ukuran_populasi]] leaves the elite without its last
    [-ukuran_populasi] members. *)
Theorem generation_keeps_population_size :
  forall (self : AlgoritmaGenetika) (gen : Z) (st : GAState) (w : World)
         (st' : GAState) (w' : World),
    generation self gen st w = Ok st' w' ->
    1 <= Z.of_nat (length (populasi st'))
    /\ (0 <= ukuran_populasi self ->
        Z.of_nat (length (populasi st')) = ukuran_populasi self)
    /\ (ukuran_populasi self < 0 ->
        exists num,
          num_elites self = inr num
          /\ Z.of_nat (length (populasi st'))
             = Z.min (Z.of_nat (length (populasi st))) num
               + ukuran_populasi self).
Proof.
  intros self gen st w st' w' H.
  apply generation_inv in H
    as (num & w_d & new_populasi & current_best & Hnum & Hb & Hpop & Hin & _).
  assert (Hpos : 1 <= Z.of_nat (length (populasi st'))).
  { destruct (populasi st'); [contradiction|simpl length; lia]. }
  split; [exact Hpos|]. split.
  - intros HP. apply breed_fills in Hb; [|lia].
    rewrite Hpop. unfold py_prefix.
    destruct (ukuran_populasi self <? 0) eqn:E; [apply Z.ltb_lt in E; lia|].
    rewrite length_firstn. lia.
  - intros HP. exists num. split; [exact Hnum|].
    apply num_elites_inv in Hnum as (Hge & _).
    replace (Z.to_nat (ukuran_populasi self)) with 0%nat in Hb by lia.
    simpl in Hb. inversion Hb; subst new_populasi w_d; clear Hb.
    pose proof (select_elites_length num w (populasi st)) as Hl.
    rewrite Hpop in Hpos |- *. unfold py_prefix in Hpos |- *.
    destruct (ukuran_populasi self <? 0) eqn:E; [|apply Z.ltb_ge in E; lia].
    rewrite length_firstn in Hpos |- *. lia.
Qed.

Lemma generation_keeps_population_size_witness :
  returns (pop <- initial_population sample_ga 1 ;;
           generation sample_ga 0 (mkGAState pop None None [] [] [] []))
          sample_world
          (fun st' _ => Z.of_nat (length (populasi st')) = 1)
  /\ returns (generation (mkGA sample_catalog (-1) 3 (8 # 10) (1 # 10) float_0_1)
                         0 (mkGAState (firstn 2 five_individuals)
                                      None None [] [] [] []))
             enum_world
             (fun st' _ => Z.of_nat (length (populasi st')) = Z.min 2 2 + -1).
Proof.
  split.
  - apply returns_intro; [vm_compute; exact I|].
    intros st' w' E. inv_bind E.
    exact (proj1 (proj2 (generation_keeps_population_size
                           sample_ga 0 _ w st' w' E))
                 ltac:(simpl; lia)).
  - apply returns_intro; [vm_compute; exact I|].
    intros st' w' E.
    destruct (proj2 (proj2 (generation_keeps_population_size _ 0 _ _ st' w' E))
                    ltac:(simpl; lia)) as (num & Hnum & Hlen).
    vm_compute in Hnum. inversion Hnum; subst num. exact Hlen.
Defined.

(** X17: after a generation the best fitness on record is a number, it
    is not above the recorded best of before, and no individual of the
    new population scores below it; it is either the earlier record, kept
    with its solution, or the fitness of a member of the new population,
    recorded as the best solution. *)
Theorem generation_records_the_lowest_fitness :
  forall (self : AlgoritmaGenetika) (gen : Z) (st : GAState) (w : World)
         (st' : GAState) (w' : World),
    generation self gen st w = Ok st' w' ->
    exists q,
      best_fitness st' = Some q
      /\ (forall q0, best_fitness st = Some q0 -> (q <= q0)%Q)
      /\ (forall s, In s (populasi st') -> (q <= fitness_in w' s)%Q)
      /\ ((best_fitness st = Some q /\ best_solution st' = best_solution st)
          \/ (exists s, In s (populasi st') /\ q = fitness_in w' s
                        /\ best_solution st' = Some s)).
Proof.
  intros self gen st w st' w' H.
  apply generation_inv in H
    as (num & w_d & new_populasi & current_best
        & _ & _ & _ & Hin & Hle & Hbf & Hbs & _).
  destruct (best_fitness st) as [q0|] eqn:E0; simpl in Hbf, Hbs.
  - destruct (Qltb (fitness_in w' current_best) q0) eqn:E.
    + exists (fitness_in w' current_best).
      split; [exact Hbf|]. split; [|split; [exact Hle|right; eauto]].
      intros q1 Hq1. inversion Hq1; subst.
      unfold Qltb in E. apply Bool.negb_true_iff in E.
      destruct (Qlt_le_dec (fitness_in w' current_best) q1) as [L|L];
        [apply Qlt_le_weak, L|].
      apply Qle_bool_iff in L. congruence.
    + exists q0. split; [exact Hbf|].
      unfold Qltb in E. apply Bool.negb_false_iff, Qle_bool_iff in E.
      split; [intros q1 Hq1; inversion Hq1; subst; apply Qle_refl|].
      split; [intros s Hs; eapply Qle_trans; [exact E|apply Hle, Hs]|].
      left. split; [reflexivity|exact Hbs].
  - exists (fitness_in w' current_best).
    split; [exact Hbf|]. split; [discriminate|].
    split; [exact Hle|right; eauto].
Qed.

Lemma generation_records_the_lowest_fitness_witness :
  returns (generation ga_5 0 (mkGAState five_individuals None None [] [] [] []))
          enum_world
          (fun st' w' =>
             exists q,
               best_fitness st' = Some q
               /\ (forall q0, None = Some q0 -> (q <= q0)%Q)
               /\ (forall s, In s (populasi st') -> (q <= fitness_in w' s)%Q)
               /\ ((None = Some q /\ best_solution st' = None)
                   \/ (exists s, In s (populasi st') /\ q = fitness_in w' s
                                 /\ best_solution st' = Some s))).
Proof.
  unfold returns.
  destruct (generation ga_5 0 (mkGAState five_individuals None None [] [] [] [])
                       enum_world) as [st' w'|e] eqn:E.
  - exact (generation_records_the_lowest_fitness ga_5 0 _ enum_world st' w' E).
  - vm_compute in E. discriminate.
Defined.

(** ** A run with a single individual *)

Lemma generation_loop_single self s w f :
  ukuran_populasi self = 1 ->
  f = fitness_in w s ->
  forall gens st,
    populasi st = [s] ->
    best_fitness st = Some f ->
    best_solution st = Some s ->
    exists st',
      generation_loop self gens st w = Ok st' w
      /\ populasi st' = [s]
      /\ best_fitness st' = Some f
      /\ best_solution st' = Some s.
Proof.
  intros HP Hf. induction gens as [|gen rest IH]; intros st Hpop Hbf Hbs.
  - exists st. repeat split; assumption.
  - destruct (generation_single self gen st s w HP Hpop)
      as (st1 & Hg & Hpop1 & _ & Hbf1 & Hbs1).
    rewrite Hbf in Hbf1, Hbs1. simpl in Hbf1, Hbs1.
    rewrite <- Hf, Qltb_irrefl in Hbf1, Hbs1.
    cbn [generation_loop]. unfold bind. rewrite Hg.
    rewrite stop_condition_positive
      by (rewrite Hbf1, Hf; apply calculate_fitness_positive).
    apply IH; [exact Hpop1|exact Hbf1|congruence].
Qed.

(** X15: with [ukuran_populasi = 1] and an instructor for every course, a
    run returns after all its generations without a single draw beyond
    those of the generator: the population is the one generated
    individual, no object was changed, and once a generation has run that
    individual is the best solution with its fitness as the best fitness. *)
Theorem run_of_one_individual :
  forall (self : AlgoritmaGenetika) (w : World),
    ukuran_populasi self = 1 ->
    Forall (fun c => c_dosen c <> []) (all_courses (data self)) ->
    exists s w1 st,
      generate_random_jadwal self w = Ok s w1
      /\ run self w = Ok st w1
      /\ populasi st = [s]
      /\ generations st = range (generasi self)
      /\ (1 <= generasi self ->
          best_solution st = Some s
          /\ best_fitness st = Some (fitness_in w1 s)).
Proof.
  intros self w HP Hd.
  destruct (generate_random_jadwal_total self w Hd) as (s & w1 & Hs).
  assert (Hpop : initial_population self (Z.to_nat (ukuran_populasi self)) w
                 = Ok [s] w1).
  { rewrite HP. simpl. unfold bind. rewrite Hs. reflexivity. }
  assert (Hrun : forall st,
             generation_loop self (range (generasi self))
                             (mkGAState [s] None None [] [] [] []) w1 = Ok st w1 ->
             run self w = Ok st w1).
  { intros st H. unfold run, bind. rewrite Hpop. exact H. }
  unfold range in *.
  destruct (Z.to_nat (generasi self)) as [|g] eqn:Eg.
  - exists s, w1, (mkGAState [s] None None [] [] [] []).
    split; [exact Hs|]. split; [apply Hrun; reflexivity|].
    repeat split; try reflexivity; lia.
  - destruct (generation_single self 0 (mkGAState [s] None None [] [] [] []) s w1
                HP eq_refl) as (st1 & Hg & Hpop1 & Hgens1 & Hbf1 & Hbs1).
    simpl in Hbf1, Hbs1, Hgens1.
    destruct (generation_loop_single self s w1 _ HP eq_refl
                (map Z.of_nat (seq 1 g)) st1 Hpop1 Hbf1 Hbs1)
      as (st2 & Hl & Hpop2 & Hbf2 & Hbs2).
    assert (Hloop : generation_loop self (map Z.of_nat (seq 0 (S g)))
                      (mkGAState [s] None None [] [] [] []) w1 = Ok st2 w1).
    { change (map Z.of_nat (seq 0 (S g))) with (0 :: map Z.of_nat (seq 1 g)).
      cbn [generation_loop]. unfold bind. rewrite Hg.
      rewrite stop_condition_positive
        by (rewrite Hbf1; apply calculate_fitness_positive).
      exact Hl. }
    exists s, w1, st2.
    split; [exact Hs|]. split; [apply Hrun; exact Hloop|].
    split; [exact Hpop2|]. split.
    + apply generation_loop_runs_all in Hloop; [exact Hloop|exact I].
    + intros _. split; assumption.
Qed.

Lemma run_of_one_individual_witness :
  exists s w1 st,
    generate_random_jadwal sample_ga sample_world = Ok s w1
    /\ run sample_ga sample_world = Ok st w1
    /\ populasi st = [s]
    /\ generations st = range (generasi sample_ga)
    /\ (1 <= generasi sample_ga ->
        best_solution st = Some s
        /\ best_fitness st = Some (fitness_in w1 s)).
Proof.
  apply run_of_one_individual.
  - reflexivity.
  - repeat constructor; discriminate.
Defined.

(** ** Entries as dictionaries, and the duration of generated entries *)

Lemma Hari_value_inj h1 h2 :
  String.eqb (Hari_value h1) (Hari_value h2) = true -> Hari_eqb h1 h2 = true.
Proof. destruct h1, h2; simpl; intros H; try reflexivity; discriminate. Qed.

Lemma Kelas_value_inj k1 k2 :
  String.eqb (Kelas_value k1) (Kelas_value k2) = true -> Kelas_eqb k1 k2 = true.
Proof. destruct k1, k2; simpl; intros H; try reflexivity; discriminate. Qed.

(** X25: [to_dict] tells entries apart at least as finely as the
    dataclass equality: two entries whose dictionaries are equal are
    equal under [==]. *)
Theorem to_dict_equal_then_equal :
  forall (a b : Jadwal) (w : World) (da db : JadwalDict),
    to_dict a w = Ok da w ->
    to_dict b w = Ok db w ->
    JadwalDict_eqb da db = true ->
    Jadwal_eqb a b = true.
Proof.
  intros a b w da db Ha Hb He. unfold to_dict in Ha, Hb.
  destruct (hari a) as [ha|] eqn:Eha; [|discriminate].
  destruct (matakuliah a) as [ma|] eqn:Ema; [|discriminate].
  destruct (kelas a) as [ka|] eqn:Eka; [|discriminate].
  destruct (hari b) as [hb|] eqn:Ehb; [|discriminate].
  destruct (matakuliah b) as [mb|] eqn:Emb; [|discriminate].
  destruct (kelas b) as [kb|] eqn:Ekb; [|discriminate].
  unfold ret in Ha, Hb. inversion Ha; subst da; clear Ha.
  inversion Hb; subst db; clear Hb.
  unfold JadwalDict_eqb in He. simpl in He.
  repeat (apply andb_prop in He; destruct He as [He ?]).
  unfold Jadwal_eqb. rewrite Eha, Ehb, Ema, Emb, Eka, Ekb. simpl.
  repeat (apply andb_true_intro; split); try assumption.
  - apply Hari_value_inj. assumption.
  - match goal with
    | Hm : (_ && _ && _)%bool = true |- _ =>
        apply andb_prop in Hm; destruct Hm as [Hm _];
        apply andb_prop in Hm; destruct Hm as [Hm _]; exact Hm
    end.
  - apply Kelas_value_inj. assumption.
Qed.

Lemma to_dict_equal_then_equal_witness :
  Jadwal_eqb (deref enum_world 2) (deref enum_world 2) = true.
Proof.
  apply (to_dict_equal_then_equal _ _ enum_world
           (mkJadwalDict "Rabu" 480 600 ("K1", "Statistik", 3) "Dosen A" "305"
                         "pagi" 2)
           (mkJadwalDict "Rabu" 480 600 ("K1", "Statistik", 3) "Dosen A" "305"
                         "pagi" 2));
    reflexivity.
Defined.

Lemma slot_duration (slot : Z * Z) :
  In slot time_slots ->
  fst slot < snd slot /\ 0 <= fst slot /\ snd slot <= 24 * 60
  /\ snd slot - fst slot = 120.
Proof.
  simpl. intros [<-|[<-|[<-|[<-|[<-|[]]]]]]; simpl; lia.
Qed.

(** X26: every entry of a generated solution satisfies the time
    invariant of [Jadwal] and lasts 120 minutes. *)
Theorem generated_entries_last_two_hours :
  forall (self : AlgoritmaGenetika) (w : World) (s : Solution) (w' : World),
    generate_random_jadwal self w = Ok s w' ->
    Forall (fun j => valid_times j /\ get_duration j = 120) (entries w' s).
Proof.
  intros self w s w' H.
  apply generate_random_jadwal_shape in H as (_ & _ & H & _).
  induction H as [|c j cs js Hj _ IH]; constructor; [|exact IH].
  destruct Hj as (_ & _ & Hslot & _).
  apply slot_duration in Hslot. unfold valid_times, get_duration.
  simpl in Hslot. lia.
Qed.

Lemma generated_entries_last_two_hours_witness :
  returns (generate_random_jadwal sample_ga) sample_world
    (fun s w' => Forall (fun j => valid_times j /\ get_duration j = 120)
                        (entries w' s)).
Proof.
  unfold returns.
  destruct (generate_random_jadwal sample_ga sample_world) as [s w'|e] eqn:E.
  - exact (generated_entries_last_two_hours sample_ga sample_world s w' E).
  - vm_compute in E. discriminate.
Defined.

(** ** Neighbour generation *)

Module TabuSearchInvariants.
Import TabuSearch.

Lemma neighbor_of_refl j : neighbor_of j j.
Proof. repeat split. Qed.

Lemma neighbor_of_trans j1 j2 j3 :
  neighbor_of j1 j2 -> neighbor_of j2 j3 -> neighbor_of j1 j3.
Proof.
  unfold neighbor_of. intros (A & B & C & D) (A' & B' & C' & D').
  repeat split; congruence.
Qed.

Lemma neighbor_frame_refl w : neighbor_frame w w.
Proof.
  split; [reflexivity|]. split; [intros r; apply neighbor_of_refl|tauto].
Qed.

Lemma neighbor_frame_trans w1 w2 w3 :
  neighbor_frame w1 w2 -> neighbor_frame w2 w3 -> neighbor_frame w1 w3.
Proof.
  intros (A & B & C) (A' & B' & C'). split; [congruence|]. split.
  - intros r. eapply neighbor_of_trans; [apply B|apply B'].
  - tauto.
Qed.

Lemma neighbor_frame_same_heap w w' : heap w' = heap w -> neighbor_frame w w'.
Proof.
  intros E. split; [congruence|]. split.
  - intros r. unfold deref. rewrite E. apply neighbor_of_refl.
  - unfold all_in_day, deref. rewrite E. tauto.
Qed.

Lemma update_neighbor_frame r f w :
  (forall j, neighbor_of j (f j)) ->
  (all_in_day w -> in_day (f (deref w r))) ->
  returns (update r f) w (fun _ w' => neighbor_frame w w').
Proof.
  intros Hf Hd. unfold returns, update.
  split; [simpl; apply length_list_set|]. split.
  - intros r'. rewrite deref_update.
    destruct ((r' =? r)%nat && (r <? length (heap w))%nat) eqn:E.
    + apply andb_prop in E as [E _]. apply Nat.eqb_eq in E. subst. apply Hf.
    + apply neighbor_of_refl.
  - intros Hall r'. rewrite deref_update.
    destruct ((r' =? r)%nat && (r <? length (heap w))%nat);
      [apply Hd, Hall|apply Hall].
Qed.

Lemma swap_field_frame {V} (get : Jadwal -> V) (set : V -> Jadwal -> Jadwal) a b w :
  (forall v j, neighbor_of j (set v j)) ->
  (forall j1 j2, in_day j1 -> in_day j2 -> in_day (set (get j1) j2)) ->
  returns (swap_field get set a b) w (fun _ w' => neighbor_frame w w').
Proof.
  intros Hk Hd. unfold returns, swap_field, bind, read, update.
  set (w1 := with_heap w (list_set (heap w) a (set (get (deref w b)) (deref w a)))).
  assert (H1 : forall r, deref w1 r
                         = if (r =? a)%nat && (a <? length (heap w))%nat
                           then set (get (deref w b)) (deref w a) else deref w r)
    by (intros r; apply deref_update).
  assert (H2 : forall r,
             deref (with_heap w1 (list_set (heap w1) b
                                    (set (get (deref w a)) (deref w1 b)))) r
             = if (r =? b)%nat && (b <? length (heap w1))%nat
               then set (get (deref w a)) (deref w1 b) else deref w1 r)
    by (intros r; apply deref_update).
  split; [|split].
  - simpl. rewrite !length_list_set. reflexivity.
  - intros r. rewrite H2.
    assert (Hr1 : forall x, neighbor_of (deref w x) (deref w1 x)).
    { intros x. rewrite H1.
      destruct ((x =? a)%nat && (a <? length (heap w))%nat) eqn:E;
        [|apply neighbor_of_refl].
      apply andb_prop in E as [E _]. apply Nat.eqb_eq in E. subst. apply Hk. }
    destruct ((r =? b)%nat && (b <? length (heap w1))%nat) eqn:E; [|apply Hr1].
    apply andb_prop in E as [E _]. apply Nat.eqb_eq in E. subst.
    eapply neighbor_of_trans; [apply Hr1|apply Hk].
  - intros Hall r. rewrite H2.
    assert (Hr1 : forall x, in_day (deref w1 x)).
    { intros x. rewrite H1.
      destruct ((x =? a)%nat && (a <? length (heap w))%nat);
        [apply Hd; apply Hall|apply Hall]. }
    destruct ((r =? b)%nat && (b <? length (heap w1))%nat);
      [apply Hd; [apply Hall|apply Hr1]|apply Hr1].
Qed.

Lemma new_list_frame rs w :
  returns (new_list rs) w (fun s w' => refs s = rs /\ neighbor_frame w w').
Proof.
  unfold returns, new_list. split; [reflexivity|].
  apply neighbor_frame_same_heap. reflexivity.
Qed.

Ltac frame_step lem w' H :=
  apply returns_bind; eapply returns_weaken; [apply lem|cbv beta; intros ? w' H].

Lemma swap_neighbors_frame solution a b w :
  returns (swap_neighbors solution a b) w
    (fun ns w' => length ns = 3%nat /\ neighbor_frame w w').
Proof.
  unfold swap_neighbors.
  frame_step new_list_frame w1 H1. destruct H1 as (_ & H1).
  frame_step (@swap_field_frame string) w2 H2;
    [intros v j; repeat split|intros j1 j2 _ Hj; exact Hj|].
  frame_step new_list_frame w3 H3. destruct H3 as (_ & H3).
  frame_step (@swap_field_frame Z) w4 H4;
    [intros v j; repeat split
    |intros j1 j2 (Hj1 & _) (_ & Hj2); split; [exact Hj1|exact Hj2]|].
  frame_step (@swap_field_frame Z) w5 H5;
    [intros v j; repeat split
    |intros j1 j2 (_ & Hj1) (Hj2 & _); split; [exact Hj2|exact Hj1]|].
  frame_step new_list_frame w6 H6. destruct H6 as (_ & H6).
  frame_step (@swap_field_frame string) w7 H7;
    [intros v j; repeat split|intros j1 j2 _ Hj; exact Hj|].
  unfold returns, ret. split; [reflexivity|].
  eapply neighbor_frame_trans; [exact H1|].
  eapply neighbor_frame_trans; [exact H2|].
  eapply neighbor_frame_trans; [exact H3|].
  eapply neighbor_frame_trans; [exact H4|].
  eapply neighbor_frame_trans; [exact H5|].
  eapply neighbor_frame_trans; [exact H6|exact H7].
Qed.

Lemma swaps_with_frame solution a rest :
  forall w,
    returns (swaps_with solution a rest) w
      (fun ns w' => length ns = (3 * length rest)%nat /\ neighbor_frame w w').
Proof.
  induction rest as [|b rest IH]; intros w.
  - unfold returns. simpl. split; [reflexivity|apply neighbor_frame_refl].
  - cbn [swaps_with].
    frame_step swap_neighbors_frame w1 H1. destruct H1 as (L1 & H1).
    frame_step IH w2 H2. destruct H2 as (L2 & H2).
    unfold returns, ret. split.
    + rewrite length_app, L1, L2. simpl length. lia.
    + eapply neighbor_frame_trans; eassumption.
Qed.

Lemma swaps_frame solution rs :
  forall w,
    returns (swaps solution rs) w
      (fun ns w' =>
         Z.of_nat (length ns)
         = 3 * (Z.of_nat (length rs) * (Z.of_nat (length rs) - 1) / 2)
         /\ neighbor_frame w w').
Proof.
  induction rs as [|a rest IH]; intros w.
  - unfold returns. simpl. split; [reflexivity|apply neighbor_frame_refl].
  - cbn [swaps].
    frame_step swaps_with_frame w1 H1. destruct H1 as (L1 & H1).
    frame_step IH w2 H2. destruct H2 as (L2 & H2).
    unfold returns, ret. split.
    + rewrite length_app, Nat2Z.inj_add, L1, L2.
      replace (Z.of_nat (length (a :: rest)) * (Z.of_nat (length (a :: rest)) - 1))
        with (Z.of_nat (length rest) * (Z.of_nat (length rest) - 1)
              + Z.of_nat (length rest) * 2)
        by (simpl length; lia).
      rewrite Z.div_add by lia. lia.
    + eapply neighbor_frame_trans; eassumption.
Qed.

Lemma randint_frame a b w :
  a <= b ->
  returns (randint a b) w (fun x w' => a <= x <= b /\ neighbor_frame w w').
Proof.
  intros Hab. destruct (returns_inv _ _ _ (randint_total a b w Hab))
    as (x & w' & E & Hx).
  unfold returns. rewrite E. split; [exact Hx|].
  apply neighbor_frame_same_heap. apply randint_inv in E. tauto.
Qed.

Lemma clamp_in_day x : 0 <= clamp x <= 24 * 60.
Proof. unfold clamp. lia. Qed.

Lemma jitter_neighbor_frame solution a w :
  returns (jitter_neighbor solution a) w (fun _ w' => neighbor_frame w w').
Proof.
  unfold jitter_neighbor.
  frame_step new_list_frame w1 H1. destruct H1 as (_ & H1).
  frame_step randint_frame w2 H2; [lia|]. destruct H2 as (_ & H2).
  apply returns_bind. unfold returns at 1, read.
  frame_step update_neighbor_frame w3 H3;
    [intros j; repeat split
    |intros Hall; split; [apply clamp_in_day|apply (Hall a)]|].
  apply returns_bind. unfold returns at 1, read.
  frame_step update_neighbor_frame w4 H4;
    [intros j; repeat split
    |intros Hall; split; [apply (Hall a)|apply clamp_in_day]|].
  unfold returns, ret.
  eapply neighbor_frame_trans; [exact H1|].
  eapply neighbor_frame_trans; [exact H2|].
  eapply neighbor_frame_trans; [exact H3|exact H4].
Qed.

Lemma jitters_frame solution rs :
  forall w,
    returns (jitters solution rs) w
      (fun ns w' => length ns = length rs /\ neighbor_frame w w').
Proof.
  induction rs as [|a rest IH]; intros w.
  - unfold returns. simpl. split; [reflexivity|apply neighbor_frame_refl].
  - cbn [jitters].
    frame_step jitter_neighbor_frame w1 H1.
    frame_step IH w2 H2. destruct H2 as (L2 & H2).
    unfold returns, ret. split; [simpl; congruence|].
    eapply neighbor_frame_trans; eassumption.
Qed.

Lemma get_neighbors_frame solution w :
  returns (get_neighbors solution) w
    (fun ns w' =>
       Z.of_nat (length ns)
       = 3 * (Z.of_nat (length (refs solution))
              * (Z.of_nat (length (refs solution)) - 1) / 2)
         + Z.of_nat (length (refs solution))
       /\ neighbor_frame w w').
Proof.
  unfold get_neighbors.
  frame_step swaps_frame w1 H1. destruct H1 as (L1 & H1).
  frame_step jitters_frame w2 H2. destruct H2 as (L2 & H2).
  unfold returns, ret. split.
  - rewrite length_app, Nat2Z.inj_add, L1, L2. reflexivity.
  - eapply neighbor_frame_trans; eassumption.
Qed.

(** X18: [get_neighbors] never raises, and for a solution of N entries
    it returns 3 N (N-1) / 2 + N neighbours. *)
Theorem get_neighbors_size :
  forall (solution : Solution) (w : World),
    returns (get_neighbors solution) w
      (fun ns _ =>
         Z.of_nat (length ns)
         = 3 * (Z.of_nat (length (refs solution))
                * (Z.of_nat (length (refs solution)) - 1) / 2)
           + Z.of_nat (length (refs solution))).
Proof.
  intros solution w.
  eapply returns_weaken; [apply get_neighbors_frame|].
  cbv beta. intros ns w' (H & _). exact H.
Qed.

(** X19: [get_neighbors] creates and removes no object and keeps the
    day, course, class label and semester of every entry; if all times
    of the store lie in [0, 1440] before, they do afterwards. *)
Theorem get_neighbors_keeps_day_and_course :
  forall (solution : Solution) (w : World),
    returns (get_neighbors solution) w
      (fun _ w' =>
         length (heap w') = length (heap w)
         /\ (forall r,
               hari (deref w' r) = hari (deref w r)
               /\ matakuliah (deref w' r) = matakuliah (deref w r)
               /\ kelas (deref w' r) = kelas (deref w r)
               /\ semester (deref w' r) = semester (deref w r))
         /\ (all_in_day w -> all_in_day w')).
Proof.
  intros solution w.
  eapply returns_weaken; [apply get_neighbors_frame|].
  cbv beta. intros ns w' (_ & H). exact H.
Qed.

(** ** The search loop *)

Lemma accept_fitness_exact self w nb fitness diversified w' :
  accept self w = Ok (nb, fitness, diversified) w' ->
  fitness = objective self (entries w' nb).
Proof.
  unfold accept. intros H. inv_bind H.
  unfold get_world in Hc0. inversion Hc0; subst a0 w1; clear Hc0.
  destruct (scan self w0 a None) as [[bn f]|] eqn:Es.
  - inversion H; subst; clear H.
    apply TabuSearchFacts.scan_selects in Es as [Es|(_ & Hf & _)];
      [discriminate|exact Hf].
  - inv_bind H. inversion H; subst; clear H.
    apply choice_inv in Hc0 as (_ & Hh & _).
    unfold entries, deref. rewrite Hh. reflexivity.
Qed.

Lemma iterate_inv self iteration w self' w' :
  iterate self iteration w = Ok self' w' ->
  exists nb fitness diversified,
    accept self w = Ok (nb, fitness, diversified) w'
    /\ current_solution self' = nb
    /\ tabu_list self' = update_tabu_list self (nb, nb)
    /\ best_fitness self'
       = (if Qltb fitness (best_fitness self) then fitness else best_fitness self)
    /\ objective self' = objective self
    /\ tabu_size self' = tabu_size self
    /\ intensification_threshold self' = intensification_threshold self
    /\ tabu_size_log self'
       = tabu_size_log self ++ [Z.of_nat (length (tabu_list self'))]
    /\ intensification_count self'
       = (if Qltb fitness (best_fitness self)
             && Qltb (objective self (entries w' nb))
                     (fitness * (1 - intensification_threshold self))%Q
          then intensification_count self + 1 else intensification_count self).
Proof.
  unfold iterate. intros H. inv_bind H.
  destruct a as [[nb fitness] diversified]. inv_bind H.
  unfold get_world in Hc0. inversion Hc0; subst a w1; clear Hc0.
  inversion H; subst; clear H.
  exists nb, fitness, diversified. cbn.
  split; [exact Hc|]. repeat split.
  unfold intensification. cbn.
  destruct (Qltb fitness (best_fitness self)); reflexivity.
Qed.

Lemma update_tabu_list_bound self move :
  Z.of_nat (length (tabu_list self)) <= Z.max 0 (tabu_size self) ->
  Z.of_nat (length (update_tabu_list self move)) <= Z.max 0 (tabu_size self).
Proof.
  intros H. unfold update_tabu_list.
  destruct (tabu_size self <? Z.of_nat (length (tabu_list self ++ [move]))) eqn:E.
  - destruct (tabu_list self) as [|m l]; simpl in *; [lia|].
    rewrite length_app. simpl. lia.
  - apply Z.ltb_ge in E. lia.
Qed.

Lemma search_loop_tabu_bound its :
  forall self w self' w',
    Z.of_nat (length (tabu_list self)) <= Z.max 0 (tabu_size self) ->
    Forall (fun n => n <= Z.max 0 (tabu_size self)) (tabu_size_log self) ->
    search_loop self its w = Ok self' w' ->
    tabu_size self' = tabu_size self
    /\ Z.of_nat (length (tabu_list self')) <= Z.max 0 (tabu_size self)
    /\ Forall (fun n => n <= Z.max 0 (tabu_size self)) (tabu_size_log self').
Proof.
  induction its as [|iteration rest IH]; intros self w self' w' Hb Hlog H;
    simpl in H.
  - inversion H; subst. repeat split; assumption.
  - inv_bind H.
    apply iterate_inv in Hc
      as (nb & f & d & _ & _ & Ht & _ & _ & Hts & _ & Hl & _).
    assert (Hb1 : Z.of_nat (length (tabu_list a)) <= Z.max 0 (tabu_size a)).
    { rewrite Ht, Hts. apply update_tabu_list_bound, Hb. }
    assert (Hlog1 : Forall (fun n => n <= Z.max 0 (tabu_size a)) (tabu_size_log a)).
    { rewrite Hl, Hts. apply Forall_app. split; [exact Hlog|].
      constructor; [|constructor]. rewrite <- Hts. exact Hb1. }
    destruct (Qle_bool (best_fitness a) 0).
    + inversion H; subst. rewrite <- Hts. repeat split; assumption.
    + apply IH in H; [|exact Hb1|exact Hlog1].
      rewrite <- Hts. exact H.
Qed.

(** X20: the tabu queue never holds more than [tabu_size] moves: if it
    is within that bound when the search starts, it is at its end, and so
    is every length logged in [metrics['tabu_size']]. *)
Theorem search_bounds_the_tabu_queue :
  forall (self : TabuSearch.t) (w : World) (self' : TabuSearch.t) (w' : World),
    Z.of_nat (length (tabu_list self)) <= Z.max 0 (tabu_size self) ->
    Forall (fun n => n <= Z.max 0 (tabu_size self)) (tabu_size_log self) ->
    search self w = Ok self' w' ->
    Z.of_nat (length (tabu_list self')) <= Z.max 0 (tabu_size self)
    /\ Forall (fun n => n <= Z.max 0 (tabu_size self)) (tabu_size_log self').
Proof.
  intros self w self' w' Hb Hlog H. unfold search in H.
  apply search_loop_tabu_bound in H; [tauto|exact Hb|exact Hlog].
Qed.

Lemma search_bounds_the_tabu_queue_witness :
  returns (self <- ts_small ;; search self) sample_world
    (fun self' _ =>
       Z.of_nat (length (tabu_list self')) <= 1
       /\ Forall (fun n => n <= 1) (tabu_size_log self')).
Proof.
  apply returns_intro; [vm_compute; exact I|].
  intros self' w' E. inv_bind E.
  unfold ts_small, init, bind, get_world, ret in Hc.
  inversion Hc; subst a w; clear Hc.
  refine (search_bounds_the_tabu_queue _ _ _ _ _ _ E).
  - simpl. lia.
  - constructor.
Defined.

Lemma search_loop_best its :
  forall self w self' w',
    search_loop self its w = Ok self' w' ->
    (best_fitness self' <= best_fitness self)%Q.
Proof.
  induction its as [|iteration rest IH]; intros self w self' w' H; simpl in H.
  - inversion H; subst. apply Qle_refl.
  - inv_bind H.
    apply iterate_inv in Hc as (nb & f & d & _ & _ & _ & Hb & _).
    assert (Hle : (best_fitness a <= best_fitness self)%Q).
    { rewrite Hb. destruct (Qltb f (best_fitness self)) eqn:E; [|apply Qle_refl].
      unfold Qltb in E. apply Bool.negb_true_iff in E.
      destruct (Qlt_le_dec f (best_fitness self)) as [L|L];
        [apply Qlt_le_weak, L|].
      apply Qle_bool_iff in L. congruence. }
    destruct (Qle_bool (best_fitness a) 0).
    + inversion H; subst. exact Hle.
    + apply IH in H. eapply Qle_trans; eassumption.
Qed.

(** X21: the best fitness a search returns is never above the fitness of
    the initial solution it started with. *)
Theorem search_never_increases_best_fitness :
  forall (self : TabuSearch.t) (w : World) (self' : TabuSearch.t) (w' : World),
    search self w = Ok self' w' ->
    (best_fitness self' <= best_fitness self)%Q.
Proof.
  intros self w self' w' H. unfold search in H.
  eapply search_loop_best, H.
Qed.

Lemma search_never_increases_best_fitness_witness :
  returns (self <- ts_start ;; self' <- search self ;; ret (self, self'))
          sample_world
          (fun r _ => (best_fitness (snd r) <= best_fitness (fst r))%Q).
Proof.
  apply returns_intro; [vm_compute; exact I|].
  intros r w' E. inv_bind E. inversion E; subst r w'; clear E. simpl.
  exact (search_never_increases_best_fitness a w a0 w0 Hc0).
Defined.

Lemma no_intensification (f thr : Q) :
  (0 < f)%Q -> (0 <= thr)%Q -> Qltb f (f * (1 - thr)) = false.
Proof.
  intros Hf Ht. apply Qltb_false_of_le. nra.
Qed.

Lemma search_loop_intensification its :
  forall self w self' w',
    (forall individu, (0 < objective self individu)%Q) ->
    (0 <= intensification_threshold self)%Q ->
    search_loop self its w = Ok self' w' ->
    intensification_count self' = intensification_count self.
Proof.
  induction its as [|iteration rest IH]; intros self w self' w' Hobj Hthr H;
    simpl in H.
  - inversion H; subst. reflexivity.
  - inv_bind H.
    apply iterate_inv in Hc
      as (nb & f & d & Hacc & _ & _ & _ & Ho & _ & Hit & _ & Hic).
    apply accept_fitness_exact in Hacc.
    rewrite <- Hacc in Hic.
    rewrite (no_intensification f (intensification_threshold self)) in Hic
      by (try (rewrite Hacc; apply Hobj); exact Hthr).
    rewrite andb_false_r in Hic.
    destruct (Qle_bool (best_fitness a) 0).
    + inversion H; subst. exact Hic.
    + apply IH in H; [congruence| |congruence].
      intros l. rewrite Ho. apply Hobj.
Qed.

(** X22: over a positive objective and with a threshold of at least 0,
    a search never counts an intensification: the test compares the
    accepted fitness with the best fitness it has just been stored as. *)
Theorem search_never_intensifies :
  forall (self : TabuSearch.t) (w : World) (self' : TabuSearch.t) (w' : World),
    (forall individu, (0 < objective self individu)%Q) ->
    (0 <= intensification_threshold self)%Q ->
    search self w = Ok self' w' ->
    intensification_count self' = intensification_count self.
Proof.
  intros self w self' w' Hobj Hthr H. unfold search in H.
  eapply search_loop_intensification; eassumption.
Qed.

Lemma search_never_intensifies_witness :
  returns (self <- ts_start ;; search self) sample_world
          (fun self' _ => intensification_count self' = 0).
Proof.
  apply returns_intro; [vm_compute; exact I|].
  intros self' w' E. inv_bind E.
  unfold ts_start, init, bind, get_world, ret in Hc.
  inversion Hc; subst a w; clear Hc.
  refine (search_never_intensifies _ _ _ _ _ _ E).
  - intros individu. apply calculate_fitness_positive.
  - unfold Qle. simpl. lia.
Defined.

Lemma refs_eqb_refl w l : refs_eqb w l l = true.
Proof.
  induction l as [|a l IH]; simpl; [reflexivity|].
  rewrite Nat.eqb_refl, IH. reflexivity.
Qed.

Lemma Solution_eqb_same_refs w s t : refs s = refs t -> Solution_eqb w s t = true.
Proof. unfold Solution_eqb. intros ->. apply refs_eqb_refl. Qed.

Lemma update_tabu_list_newest self move :
  1 <= tabu_size self -> In move (update_tabu_list self move).
Proof.
  intros Hs. unfold update_tabu_list.
  destruct (tabu_size self <? Z.of_nat (length (tabu_list self ++ [move]))) eqn:E.
  - destruct (tabu_list self) as [|m l]; simpl in *.
    + apply Z.ltb_lt in E. lia.
    + apply in_or_app. right. left. reflexivity.
  - apply in_or_app. right. left. reflexivity.
Qed.

Lemma move_in_of_In w move (l : list Move) m :
  In m l -> Move_eqb w move m = true -> move_in w move l = true.
Proof.
  intros Hin He. unfold move_in. apply existsb_exists. exists m. tauto.
Qed.

(** X23: once an iteration has run with [tabu_size >= 1], the tabu test
    rejects every neighbour of the next iteration: the queue holds the
    pair (current, current) and every neighbour is a list of the current
    solution's own objects. The next neighbour is accepted by the
    aspiration criterion or by the diversification branch, never as the
    best non-tabu neighbour. *)
Theorem second_iteration_finds_every_move_tabu :
  forall (self : TabuSearch.t) (iteration : Z) (w : World)
         (self1 : TabuSearch.t) (w1 : World),
    1 <= tabu_size self ->
    iterate self iteration w = Ok self1 w1 ->
    returns (get_neighbors (current_solution self1)) w1
      (fun neighbors w2 =>
         Forall (fun nb =>
                   move_in w2 (current_solution self1, nb) (tabu_list self1)
                   = true)
                neighbors)
    /\ (forall nb fitness diversified w2,
          accept self1 w1 = Ok (nb, fitness, diversified) w2 ->
          move_in w2 (current_solution self1, nb) (tabu_list self1) = true
          /\ (diversified = true \/ aspiration_criteria self1 fitness = true)).
Proof.
  intros self iteration w self1 w1 Hs Hit.
  apply iterate_inv in Hit as (nb0 & f0 & d0 & _ & Hcur & Htabu & _).
  assert (Hin : In (current_solution self1, current_solution self1)
                   (tabu_list self1)).
  { rewrite Htabu, Hcur. apply update_tabu_list_newest, Hs. }
  assert (Hall : forall w' n, refs n = refs (current_solution self1) ->
                   move_in w' (current_solution self1, n) (tabu_list self1) = true).
  { intros w' n Hn. eapply move_in_of_In; [exact Hin|].
    unfold Move_eqb. simpl.
    rewrite (Solution_eqb_same_refs w' _ _ eq_refl),
            (Solution_eqb_same_refs w' _ _ Hn). reflexivity. }
  split.
  - destruct (returns_inv _ _ _ (get_neighbors_frame (current_solution self1) w1))
      as (ns & w2 & E & _).
    unfold returns. rewrite E.
    pose proof (TabuSearchFacts.get_neighbors_refs _ _ _ _ E) as Hrefs.
    rewrite Forall_forall in Hrefs |- *.
    intros nb Hnb. apply Hall, Hrefs, Hnb.
  - intros nb fitness diversified w2 Hacc.
    unfold accept in Hacc. inv_bind Hacc.
    unfold get_world in Hc0. inversion Hc0; subst a0 w3; clear Hc0.
    pose proof (TabuSearchFacts.get_neighbors_refs _ _ _ _ Hc) as Hrefs.
    rewrite Forall_forall in Hrefs.
    destruct (scan self1 w0 a None) as [[bn f]|] eqn:Es.
    + inversion Hacc; subst; clear Hacc.
      apply TabuSearchFacts.scan_selects in Es as [Es|(Hbn & _ & [Hm|Ha])];
        [discriminate| |].
      * rewrite (Hall w2 nb (Hrefs nb Hbn)) in Hm. discriminate.
      * split; [apply Hall, Hrefs, Hbn|right; exact Ha].
    + inv_bind Hacc. inversion Hacc; subst; clear Hacc.
      apply choice_inv in Hc0 as (Hnb & _).
      split; [apply Hall, Hrefs, Hnb|left; reflexivity].
Qed.

Lemma second_iteration_finds_every_move_tabu_witness :
  returns (self <- ts_start ;; iterate self 0) sample_world
    (fun self1 w1 =>
       returns (get_neighbors (current_solution self1)) w1
         (fun neighbors w2 =>
            Forall (fun nb =>
                      move_in w2 (current_solution self1, nb) (tabu_list self1)
                      = true)
                   neighbors)
       /\ (forall nb fitness diversified w2,
             accept self1 w1 = Ok (nb, fitness, diversified) w2 ->
             move_in w2 (current_solution self1, nb) (tabu_list self1) = true
             /\ (diversified = true
                 \/ aspiration_criteria self1 fitness = true))).
Proof.
  apply returns_intro; [vm_compute; exact I|].
  intros self1 w1 E. inv_bind E.
  unfold ts_start, init, bind, get_world, ret in Hc.
  inversion Hc; subst a w; clear Hc.
  refine (second_iteration_finds_every_move_tabu _ 0 _ self1 w1 _ E).
  simpl. lia.
Defined.

(** X24: a search over an empty solution with a budget of at least one
    iteration raises [IndexError]: the neighbourhood is empty and the
    diversification branch calls [random.choice] on it. *)
Theorem search_of_empty_solution_raises :
  forall (self : TabuSearch.t) (w : World),
    refs (current_solution self) = [] ->
    1 <= max_iter self ->
    search self w = Raise IndexError.
Proof.
  intros self w Hr Hm. unfold search, range.
  destruct (Z.to_nat (max_iter self)) as [|n] eqn:E; [lia|].
  cbn [seq map search_loop]. unfold bind at 1, iterate, bind at 1, accept.
  unfold bind at 1, get_neighbors. rewrite Hr. reflexivity.
Qed.

Lemma search_of_empty_solution_raises_witness :
  returns (TabuSearch.init calculate_fitness (mkSolution 0 []) 3 10
             (1 # 10) (8 # 10) (9 # 10))
          sample_world
          (fun self w' => search self w' = Raise IndexError).
Proof.
  unfold returns, init, bind, get_world, ret.
  apply search_of_empty_solution_raises.
  - reflexivity.
  - simpl. lia.
Defined.

Lemma accept_total self w :
  refs (current_solution self) <> [] ->
  returns (accept self) w
    (fun r _ => refs (fst (fst r)) = refs (current_solution self)).
Proof.
  intros Hne.
  destruct (returns_inv _ _ _ (get_neighbors_frame (current_solution self) w))
    as (ns & w1 & E & Hlen & _).
  pose proof (TabuSearchFacts.get_neighbors_refs _ _ _ _ E) as Hrefs.
  rewrite Forall_forall in Hrefs.
  assert (Hns : ns <> []).
  { intros ->.
    destruct (refs (current_solution self)) as [|a l]; [congruence|].
    change (Z.of_nat (length (@nil Solution))) with 0 in Hlen.
    set (n := Z.of_nat (length (a :: l))) in *.
    assert (Hn : 1 <= n) by (subst n; cbn [length]; lia).
    assert (0 <= n * (n - 1) / 2) by (apply Z.div_pos; [nia|lia]).
    lia. }
  unfold returns, accept, bind. rewrite E. unfold get_world.
  destruct (scan self w1 ns None) as [[bn f]|] eqn:Es.
  - unfold ret. simpl.
    apply TabuSearchFacts.scan_selects in Es as [Es|(Hbn & _)]; [discriminate|].
    apply Hrefs, Hbn.
  - destruct (returns_inv _ _ _ (choice_total ns w1 Hns)) as (nb & w2 & Ec & Hin).
    rewrite Ec. unfold ret. simpl. apply Hrefs, Hin.
Qed.

Lemma iterate_total self iteration w :
  refs (current_solution self) <> [] ->
  returns (iterate self iteration) w
    (fun self' _ => refs (current_solution self') = refs (current_solution self)).
Proof.
  intros Hne. unfold iterate. apply returns_bind.
  eapply returns_weaken; [apply accept_total, Hne|].
  cbv beta. intros [[nb f] d] w1 Hr. simpl in Hr.
  unfold returns, bind, get_world, ret. simpl. exact Hr.
Qed.

Lemma search_loop_total its :
  forall self w,
    refs (current_solution self) <> [] ->
    returns (search_loop self its) w
      (fun self' _ => refs (current_solution self') = refs (current_solution self)).
Proof.
  induction its as [|iteration rest IH]; intros self w Hne.
  - unfold returns. simpl. reflexivity.
  - cbn [search_loop]. apply returns_bind.
    eapply returns_weaken; [apply iterate_total, Hne|].
    cbv beta. intros self1 w1 Hr.
    destruct (stop_condition (Some (best_fitness self1))).
    + unfold returns, ret. exact Hr.
    + eapply returns_weaken; [apply IH; rewrite Hr; exact Hne|].
      cbv beta. intros self2 w2 Hr2. congruence.
Qed.

(** X27: a search over a non-empty solution never raises, and the
    current solution it ends with holds the same objects, in the same
    order, as the initial one. *)
Theorem search_of_nonempty_solution_returns :
  forall (self : TabuSearch.t) (w : World),
    refs (current_solution self) <> [] ->
    returns (search self) w
      (fun self' _ => refs (current_solution self') = refs (current_solution self)).
Proof.
  intros self w Hne. unfold search. apply search_loop_total, Hne.
Qed.

Lemma search_of_nonempty_solution_returns_witness :
  returns (TabuSearch.init calculate_fitness parent_a 3 10
             (1 # 10) (8 # 10) (9 # 10))
          sample_world
          (fun self w' =>
             returns (search self) w'
               (fun self' _ =>
                  refs (current_solution self') = refs (current_solution self))).
Proof.
  unfold returns at 1, init, bind, get_world, ret.
  apply search_of_nonempty_solution_returns. discriminate.
Defined.

End TabuSearchInvariants.
